(** * Fixed-buffer allocators of namespace [Core]: linear, stack, pool, free-list

    A shallow embedding of [Src/LinearAllocator.cpp], [Src/StackAllocator.cpp],
    [Src/PoolAllocator.cpp] and [Src/FreeListAllocator.cpp].

    - [size_t] and [uintptr_t] values are integers in [0, 2^64); every
      arithmetic operation on them is followed by [wrap].
    - A pointer is the integer address it holds; [nullptr] is address 0.
      Pointer arithmetic ([m_buffer + m_offset]) is plain addition.
    - Memory is a finite map from byte addresses to byte values.  A byte that
      was never written is absent from the map, and loading it is [Undefined],
      as is a [memcpy] whose source and destination overlap.
      Multi-byte fields are stored little-endian.
    - An allocator object is a record; a member function takes the object and
      returns the updated object together with its result, inside the monad
      [M] that threads the memory and the four possible outcomes of a call. *)

From stdpp Require Import gmap strings list.
From Stdlib Require Import ZArith Lia.

#[local] Open Scope Z_scope.

(** ** Platform constants (LP64) *)

Module Platform.

Definition SIZE_BITS : Z := 64.

(** Reduction of an integer to the range of [size_t]. *)
Definition wrap (z : Z) : Z := z mod 2 ^ SIZE_BITS.

Definition sizeof_size_t : Z := 8.
Definition sizeof_pointer : Z := 8.

(** Number of bytes of a [size_t] or of a pointer, as a loop count. *)
Definition word_bytes : nat := 8.

End Platform.

Export Platform.

Definition ptr : Type := Z.
Definition nullptr : ptr := 0.

(** ** Outcomes of a call *)

Inductive exn : Type :=
| bad_alloc
| runtime_error (what : string).

Inductive outcome (A : Type) : Type :=
| Ret (a : A)          (* the call returned *)
| Throw (e : exn)      (* a C++ exception left the call *)
| Undefined            (* undefined behaviour: a byte read that was never written, a
                          division by zero, a [memcpy] between overlapping ranges *)
| OutOfFuel.           (* a loop of the model ran out of steps *)

Arguments Ret {A} a.
Arguments Throw {A} e.
Arguments Undefined {A}.
Arguments OutOfFuel {A}.

(** ** Memory and the monad of member functions *)

Abbreviation heap := (gmap Z Z).

Definition M (A : Type) : Type := heap -> outcome (A * heap).

#[global] Instance M_ret : MRet M := fun A a h => Ret (a, h).

#[global] Instance M_bind : MBind M := fun A B f m h =>
  match m h with
  | Ret (a, h') => f a h'
  | Throw e => Throw e
  | Undefined => Undefined
  | OutOfFuel => OutOfFuel
  end.

Definition throw {A} (e : exn) : M A := fun _ => Throw e.
Definition undefined {A} : M A := fun _ => Undefined.
Definition out_of_fuel {A} : M A := fun _ => OutOfFuel.

Module Mem.

(** The byte at address [a]; the stored integer is read as a byte. *)
Definition read8 (h : heap) (a : Z) : option Z :=
  match h !! a with
  | Some b => Some (b mod 256)
  | None => None
  end.

Definition write8 (h : heap) (a v : Z) : heap := <[a := v mod 256]> h.

(** Little-endian read of [n] bytes starting at [a]. *)
Fixpoint read_le (h : heap) (n : nat) (a : Z) : option Z :=
  match n with
  | O => Some 0
  | S n' =>
      match read8 h a, read_le h n' (a + 1) with
      | Some b, Some r => Some (b + 256 * r)
      | _, _ => None
      end
  end.

(** Little-endian write of the low [n] bytes of [v] starting at [a]. *)
Fixpoint write_le (h : heap) (n : nat) (a v : Z) : heap :=
  match n with
  | O => h
  | S n' => write_le (write8 h a v) n' (a + 1) (v / 256)
  end.

(** Bytes [src .. src+n) copied to [dst .. dst+n); the source bytes are
    those of the memory before the copy. *)
Fixpoint copy (h0 h : heap) (n : nat) (dst src : Z) : heap :=
  match n with
  | O => h
  | S n' =>
      let h' := match h0 !! src with
                | Some b => <[dst := b]> h
                | None => delete dst h
                end in
      copy h0 h' n' (dst + 1) (src + 1)
  end.

End Mem.

Definition load (n : nat) (a : Z) : M Z := fun h =>
  match Mem.read_le h n a with
  | Some v => Ret (v, h)
  | None => Undefined
  end.

Definition store (n : nat) (a v : Z) : M unit := fun h =>
  Ret (tt, Mem.write_le h n a v).

(** A [size_t] or pointer field at address [a]. *)
Definition load_word (a : Z) : M Z := load word_bytes a.
Definition store_word (a v : Z) : M unit := store word_bytes a v.

(** A [uint8_t] field at address [a]. *)
Definition load_byte (a : Z) : M Z := load 1 a.
Definition store_byte (a v : Z) : M unit := store 1 a v.

(** The [n] bytes at [dst] and the [n] bytes at [src] have a byte in
    common. *)
Definition overlap (dst src n : Z) : bool :=
  (0 <? n) && (src <? dst + n) && (dst <? src + n).

(** [std::memcpy(dst, src, n)], whose behaviour is undefined when the two
    ranges overlap. *)
Definition memcpy (dst src n : Z) : M unit := fun h =>
  if overlap dst src n then Undefined
  else Ret (tt, Mem.copy h h (Z.to_nat n) dst src).

(** ** LinearAllocator *)

Module LinearAllocator.

Record t : Type := Build {
  m_buffer : ptr;
  m_bufferSize : Z;
  m_offset : Z;
  m_name : string;
  m_threadSafe : bool;
  m_peakUsage : Z;
  m_allocationCount : Z
}.

(** The constructor; [buffer] is the address [new uint8_t[bufferSize]]
    returned. *)
Definition create (buffer : ptr) (bufferSize : Z) : t :=
  {| m_buffer := buffer; m_bufferSize := bufferSize; m_offset := 0;
     m_name := "LinearAllocator"; m_threadSafe := false;
     m_peakUsage := 0; m_allocationCount := 0 |}.

Definition padding_for (this : t) (alignment : Z) : Z :=
  wrap (alignment - m_offset this mod alignment) mod alignment.

Definition newOffset_for (this : t) (size alignment : Z) : Z :=
  wrap (m_offset this + padding_for this alignment + size).

Definition Allocate (this : t) (size alignment : Z) : M (ptr * t) :=
  if alignment =? 0 then undefined
  else
    let padding := padding_for this alignment in
    let newOffset := newOffset_for this size alignment in
    if newOffset >? m_bufferSize this then mret (nullptr, this)
    else
      let p := m_buffer this + m_offset this + padding in
      mret (p, {| m_buffer := m_buffer this;
                  m_bufferSize := m_bufferSize this;
                  m_offset := newOffset;
                  m_name := m_name this;
                  m_threadSafe := m_threadSafe this;
                  m_peakUsage := Z.max (m_peakUsage this) newOffset;
                  m_allocationCount := wrap (m_allocationCount this + 1) |}).

Definition Free (this : t) (p : ptr) : M t := mret this.

Definition GetAllocationSize (this : t) (p : ptr) : Z :=
  if (p <? m_buffer this) || (p >=? m_buffer this + m_offset this) then 0
  else wrap (m_buffer this + m_offset this - p).

Definition Reallocate (this : t) (p : ptr) (newSize alignment : Z) : M (ptr * t) :=
  '(newPtr, this') ← Allocate this newSize alignment;
  if negb (newPtr =? nullptr) && negb (p =? nullptr) then
    memcpy newPtr p (Z.min newSize (GetAllocationSize this' p));;
    mret (newPtr, this')
  else mret (newPtr, this').

Definition GetTotalAllocated (this : t) : Z := m_offset this.

Definition GetPeakUsage (this : t) : Z := m_peakUsage this.

Definition Reset (this : t) : t :=
  {| m_buffer := m_buffer this; m_bufferSize := m_bufferSize this;
     m_offset := 0;
     m_name := m_name this; m_threadSafe := m_threadSafe this;
     m_peakUsage := m_peakUsage this;
     m_allocationCount := 0 |}.

Definition Owns (this : t) (p : ptr) : bool :=
  (p >=? m_buffer this) && (p <? m_buffer this + m_offset this).

Definition GetAllocationCount (this : t) : Z := m_allocationCount this.

Definition ValidateInternalState (this : t) : bool :=
  m_offset this <=? m_bufferSize this.

End LinearAllocator.

(** ** StackAllocator *)

Module StackAllocator.

(** [struct AllocationHeader { size_t size; size_t adjustment; }] *)
Definition sizeof_AllocationHeader : Z := 2 * sizeof_size_t.
Definition offsetof_size : Z := 0.
Definition offsetof_adjustment : Z := sizeof_size_t.

Record t : Type := Build {
  m_buffer : ptr;
  m_bufferSize : Z;
  m_offset : Z;
  m_name : string;
  m_threadSafe : bool;
  m_peakUsage : Z;
  m_allocationCount : Z;
  m_markers : list Z          (* std::vector<size_t>, back of the vector last *)
}.

Definition create (buffer : ptr) (bufferSize : Z) : t :=
  {| m_buffer := buffer; m_bufferSize := bufferSize; m_offset := 0;
     m_name := "StackAllocator"; m_threadSafe := false;
     m_peakUsage := 0; m_allocationCount := 0; m_markers := [] |}.

Definition set_offset (this : t) (offset : Z) : t :=
  {| m_buffer := m_buffer this; m_bufferSize := m_bufferSize this;
     m_offset := offset;
     m_name := m_name this; m_threadSafe := m_threadSafe this;
     m_peakUsage := m_peakUsage this;
     m_allocationCount := m_allocationCount this;
     m_markers := m_markers this |}.

Definition set_peakUsage (this : t) (peak : Z) : t :=
  {| m_buffer := m_buffer this; m_bufferSize := m_bufferSize this;
     m_offset := m_offset this;
     m_name := m_name this; m_threadSafe := m_threadSafe this;
     m_peakUsage := peak;
     m_allocationCount := m_allocationCount this;
     m_markers := m_markers this |}.

Definition set_allocationCount (this : t) (count : Z) : t :=
  {| m_buffer := m_buffer this; m_bufferSize := m_bufferSize this;
     m_offset := m_offset this;
     m_name := m_name this; m_threadSafe := m_threadSafe this;
     m_peakUsage := m_peakUsage this;
     m_allocationCount := count;
     m_markers := m_markers this |}.

Definition set_markers (this : t) (markers : list Z) : t :=
  {| m_buffer := m_buffer this; m_bufferSize := m_bufferSize this;
     m_offset := m_offset this;
     m_name := m_name this; m_threadSafe := m_threadSafe this;
     m_peakUsage := m_peakUsage this;
     m_allocationCount := m_allocationCount this;
     m_markers := markers |}.

Definition padding_for (this : t) (alignment : Z) : Z :=
  wrap (alignment
        - wrap (m_offset this + sizeof_AllocationHeader) mod alignment)
    mod alignment.

Definition newOffset_for (this : t) (size alignment : Z) : Z :=
  let totalSize := wrap (size + sizeof_AllocationHeader) in
  wrap (m_offset this + totalSize + padding_for this alignment).

Definition Allocate (this : t) (size alignment : Z) : M (ptr * t) :=
  if alignment =? 0 then undefined
  else
    let headerSize := sizeof_AllocationHeader in
    let padding := padding_for this alignment in
    let newOffset := newOffset_for this size alignment in
    if newOffset >? m_bufferSize this then mret (nullptr, this)
    else
      let alignedAddress := m_buffer this + m_offset this + headerSize + padding in
      let header := alignedAddress - headerSize in
      store_word (header + offsetof_size) size;;
      store_word (header + offsetof_adjustment) (wrap (headerSize + padding));;
      let this1 := set_offset this newOffset in
      let this2 := set_allocationCount this1 (wrap (m_allocationCount this1 + 1)) in
      let this3 := set_peakUsage this2 (Z.max (m_peakUsage this2) (m_offset this2)) in
      mret (alignedAddress, this3).

(** The memory that a successful [Allocate] leaves: the two fields of the
    header written just below the returned address. *)
Definition header_written (this : t) (size alignment : Z) (h : heap) : heap :=
  let p := m_buffer this + m_offset this + sizeof_AllocationHeader
           + padding_for this alignment in
  let header := p - sizeof_AllocationHeader in
  Mem.write_le
    (Mem.write_le h word_bytes (header + offsetof_size) size)
    word_bytes (header + offsetof_adjustment)
    (wrap (sizeof_AllocationHeader + padding_for this alignment)).

Definition Free (this : t) (p : ptr) : M t :=
  if p =? nullptr then mret this
  else
    let header := p - sizeof_AllocationHeader in
    adjustment ← load_word (header + offsetof_adjustment);
    let this1 := set_offset this (wrap (p - m_buffer this - adjustment)) in
    mret (set_allocationCount this1 (wrap (m_allocationCount this1 - 1))).

Definition Owns (this : t) (p : ptr) : bool :=
  (p >=? m_buffer this) && (p <? m_buffer this + m_offset this).

Definition GetAllocationSize (this : t) (p : ptr) : M Z :=
  if negb (Owns this p) then mret 0
  else load_word (p - sizeof_AllocationHeader + offsetof_size).

Definition Reallocate (this : t) (p : ptr) (newSize alignment : Z) : M (ptr * t) :=
  if p =? nullptr then Allocate this newSize alignment
  else
    let header := p - sizeof_AllocationHeader in
    oldSize ← load_word (header + offsetof_size);
    adjustment ← load_word (header + offsetof_adjustment);
    let additionalSpace := wrap (newSize - oldSize) in
    if (p + oldSize =? m_buffer this + m_offset this)
       && (wrap (m_offset this + additionalSpace) <=? m_bufferSize this)
    then
      let this1 := set_offset this (wrap (m_offset this + additionalSpace)) in
      store_word (header + offsetof_size) newSize;;
      mret (p, set_peakUsage this1 (Z.max (m_peakUsage this1) (m_offset this1)))
    else
      '(newPtr, this1) ← Allocate this newSize alignment;
      if newPtr =? nullptr then mret (newPtr, this1)
      else
        memcpy newPtr p (Z.min oldSize newSize);;
        this2 ← Free this1 p;
        mret (newPtr, this2).

Definition GetTotalAllocated (this : t) : Z := m_offset this.

Definition GetPeakUsage (this : t) : Z := m_peakUsage this.

Definition Reset (this : t) : t :=
  set_markers (set_allocationCount (set_offset this 0) 0) [].

Definition GetAllocationCount (this : t) : Z := m_allocationCount this.

Definition ValidateInternalState (this : t) : bool :=
  m_offset this <=? m_bufferSize this.


Definition FreeToMarker (this : t) (marker : Z) : t :=
  if marker <=? m_offset this then set_offset this marker else this.

Definition PushMarker (this : t) : t :=
  set_markers this (m_markers this ++ [m_offset this]).

Definition PopMarker (this : t) : t :=
  match last (m_markers this) with
  | Some back => set_markers (FreeToMarker this back) (removelast (m_markers this))
  | None => this
  end.



End StackAllocator.

(** ** PoolAllocator *)

Module PoolAllocator.

(** [struct Block { Block* next; }] lives in the first word of an idle
    block. *)
Definition offsetof_next : Z := 0.

Record Pool : Type := BuildPool {
  memory : ptr;
  blockSize : Z;
  blockCount : Z;
  freeList : ptr
}.

Record t : Type := Build {
  pools : list Pool;          (* std::vector<Pool>, declared order *)
  totalAllocated : Z;
  peakUsage : Z;
  allocationCount : Z;
  name : string;
  threadSafe : bool
}.

Definition set_freeList (pool : Pool) (head : ptr) : Pool :=
  {| memory := memory pool; blockSize := blockSize pool;
     blockCount := blockCount pool; freeList := head |}.

(** The loop [for (i = 0; i < blockCount; ++i)] that threads the blocks of
    a slab, started at index [i] with [n] iterations left. *)
Fixpoint thread_blocks (n : nat) (start : ptr) (blockSize i : Z) (head : ptr) : M ptr :=
  match n with
  | O => mret head
  | S n' =>
      let block := start + wrap (i * blockSize) in
      store_word (block + offsetof_next) head;;
      thread_blocks n' start blockSize (i + 1) block
  end.

(** The constructor's loop over [poolConfigs]; [mallocs] lists the
    addresses that the successive [std::malloc] calls return, a missing
    or null address being a failed [malloc]. *)
Fixpoint create_pools (poolConfigs : list (Z * Z)) (mallocs : list ptr) : M (list Pool) :=
  match poolConfigs with
  | [] => mret []
  | (blockSize, blockCount) :: configs' =>
      let mem := match mallocs with [] => nullptr | m :: _ => m end in
      if mem =? nullptr then throw bad_alloc
      else
        head ← thread_blocks (Z.to_nat blockCount) mem blockSize 0 nullptr;
        rest ← create_pools configs' (tail mallocs);
        mret ({| memory := mem; blockSize := blockSize;
                 blockCount := blockCount; freeList := head |} :: rest)
  end.

Definition create (poolConfigs : list (Z * Z)) (mallocs : list ptr) : M t :=
  ps ← create_pools poolConfigs mallocs;
  mret {| pools := ps; totalAllocated := 0; peakUsage := 0;
          allocationCount := 0; name := EmptyString; threadSafe := false |}.

(** Index of the first pool, from position [i] on, whose block size
    admits [size]. *)
Fixpoint findPool_from (ps : list Pool) (i : nat) (size : Z) : option nat :=
  match ps with
  | [] => None
  | pool :: ps' =>
      if size <=? blockSize pool then Some i
      else findPool_from ps' (S i) size
  end.

(** [findPool] returns a reference into [pools]; the model returns the
    index of the referenced element. *)
Definition findPool (this : t) (size : Z) : M nat :=
  match findPool_from (pools this) 0 size with
  | Some i => mret i
  | None => throw (runtime_error "No suitable pool found")
  end.

Definition Allocate (this : t) (size alignment : Z) : M (ptr * t) :=
  i ← findPool this size;
  match pools this !! i with
  | None => undefined
  | Some pool =>
      if freeList pool =? nullptr then mret (nullptr, this)
      else
        let block := freeList pool in
        next ← load_word (block + offsetof_next);
        let total := wrap (totalAllocated this + blockSize pool) in
        mret (block,
              {| pools := <[i := set_freeList pool next]> (pools this);
                 totalAllocated := total;
                 peakUsage := Z.max (peakUsage this) total;
                 allocationCount := wrap (allocationCount this + 1);
                 name := name this; threadSafe := threadSafe this |})
  end.

(** The address-range test shared by [Free], [GetAllocationSize] and
    [Owns]. *)
Definition in_pool (pool : Pool) (p : ptr) : bool :=
  (p >=? memory pool)
  && (p <? memory pool + wrap (blockSize pool * blockCount pool)).

(** The loop of [Free] over the pools not yet visited, [done] being the
    pools already passed. *)
Fixpoint Free_from (done rest : list Pool) (this : t) (p : ptr) : M t :=
  match rest with
  | [] => mret this
  | pool :: rest' =>
      if in_pool pool p then
        store_word (p + offsetof_next) (freeList pool);;
        mret {| pools := done ++ set_freeList pool p :: rest';
                totalAllocated := wrap (totalAllocated this - blockSize pool);
                peakUsage := peakUsage this;
                allocationCount := wrap (allocationCount this - 1);
                name := name this; threadSafe := threadSafe this |}
      else Free_from (done ++ [pool]) rest' this p
  end.

Definition Free (this : t) (p : ptr) : M t :=
  if p =? nullptr then mret this
  else Free_from [] (pools this) this p.

Fixpoint GetAllocationSize_from (ps : list Pool) (p : ptr) : Z :=
  match ps with
  | [] => 0
  | pool :: ps' =>
      if in_pool pool p then blockSize pool
      else GetAllocationSize_from ps' p
  end.

Definition GetAllocationSize (this : t) (p : ptr) : Z :=
  GetAllocationSize_from (pools this) p.

Definition Reallocate (this : t) (p : ptr) (newSize alignment : Z) : M (ptr * t) :=
  '(newPtr, this1) ← Allocate this newSize alignment;
  if negb (newPtr =? nullptr) && negb (p =? nullptr) then
    let oldSize := GetAllocationSize this1 p in
    memcpy newPtr p (Z.min oldSize newSize);;
    this2 ← Free this1 p;
    mret (newPtr, this2)
  else mret (newPtr, this1).

Definition GetTotalAllocated (this : t) : Z := totalAllocated this.

Definition GetPeakUsage (this : t) : Z := peakUsage this.

Fixpoint Reset_pools (ps : list Pool) : M (list Pool) :=
  match ps with
  | [] => mret []
  | pool :: ps' =>
      head ← thread_blocks (Z.to_nat (blockCount pool)) (memory pool)
               (blockSize pool) 0 nullptr;
      rest ← Reset_pools ps';
      mret (set_freeList pool head :: rest)
  end.

Definition Reset (this : t) : M t :=
  ps ← Reset_pools (pools this);
  mret {| pools := ps; totalAllocated := 0;
          peakUsage := peakUsage this;
          allocationCount := 0;
          name := name this; threadSafe := threadSafe this |}.

Fixpoint Owns_from (ps : list Pool) (p : ptr) : bool :=
  match ps with
  | [] => false
  | pool :: ps' => if in_pool pool p then true else Owns_from ps' p
  end.

Definition Owns (this : t) (p : ptr) : bool := Owns_from (pools this) p.

Definition GetAllocationCount (this : t) : Z := allocationCount this.

Definition ValidateInternalState (this : t) : bool := true.

(** [b] is the address of one of the blocks of [pool]. *)
Definition is_block (pool : Pool) (b : ptr) : Prop :=
  exists k : Z, 0 <= k < blockCount pool /\ b = memory pool + k * blockSize pool.

(** [free_chain h pool b]: starting at [b] and following the [next] words
    stored in the memory [h], one meets only blocks of [pool], and reaches
    null. *)
Inductive free_chain (h : heap) (pool : Pool) : ptr -> Prop :=
| free_chain_null : free_chain h pool nullptr
| free_chain_block (b next : ptr) :
    b <> nullptr ->
    is_block pool b ->
    Mem.read_le h word_bytes (b + offsetof_next) = Some next ->
    free_chain h pool next ->
    free_chain h pool b.

(** The slab of a pool is a region of addresses that does not wrap around,
    and a block has room for the link. *)
Definition geometry (pool : Pool) : Prop :=
  0 < memory pool
  /\ sizeof_pointer <= blockSize pool
  /\ 0 <= blockCount pool
  /\ memory pool + blockSize pool * blockCount pool < 2 ^ SIZE_BITS.

Definition disjoint (p q : Pool) : Prop :=
  memory p + blockSize p * blockCount p <= memory q
  \/ memory q + blockSize q * blockCount q <= memory p.

Fixpoint pairwise_disjoint (ps : list Pool) : Prop :=
  match ps with
  | [] => True
  | p :: ps' => Forall (disjoint p) ps' /\ pairwise_disjoint ps'
  end.

(** Two pools over the same slab. *)
Definition same_slab (p q : Pool) : Prop :=
  memory p = memory q /\ blockSize p = blockSize q /\ blockCount p = blockCount q.

(** [on_chain h head b]: the block [b] is met when following the [next]
    words from [head]. *)
Inductive on_chain (h : heap) : ptr -> ptr -> Prop :=
| on_chain_here (b : ptr) : b <> nullptr -> on_chain h b b
| on_chain_next (head next b : ptr) :
    head <> nullptr ->
    Mem.read_le h word_bytes (head + offsetof_next) = Some next ->
    on_chain h next b ->
    on_chain h head b.

(** An address outside every slab of a list of pools. *)
Definition outside_slabs (ps : list Pool) (a : Z) : Prop :=
  Forall (fun pool => a < memory pool
                      \/ memory pool + blockSize pool * blockCount pool <= a) ps.

(** The slabs are sound and apart, and every pool's freelist is a chain of
    its own blocks. *)
Definition well_formed (this : t) (h : heap) : Prop :=
  Forall geometry (pools this)
  /\ pairwise_disjoint (pools this)
  /\ Forall (fun pool => free_chain h pool (freeList pool)) (pools this).

(** The pools that the constructor builds from [poolConfigs] when the
    [malloc] calls return [mallocs], before their freelists are threaded. *)
Fixpoint slabs (poolConfigs : list (Z * Z)) (mallocs : list ptr) : list Pool :=
  match poolConfigs with
  | [] => []
  | (blockSize, blockCount) :: configs' =>
      {| memory := match mallocs with [] => nullptr | m :: _ => m end;
         blockSize := blockSize; blockCount := blockCount;
         freeList := nullptr |} :: slabs configs' (tail mallocs)
  end.

End PoolAllocator.

(** ** FreeListAllocator

    The freelist is a linked list inside the buffer; the loops that walk it
    take a number of steps [fuel] and end in [OutOfFuel] when the list is
    longer than that. *)

Module FreeListAllocator.

(** [struct AllocationHeader { size_t size; uint8_t padding; }] *)
Definition sizeof_AllocationHeader : Z := 2 * sizeof_size_t.
Definition offsetof_header_size : Z := 0.
Definition offsetof_header_padding : Z := sizeof_size_t.

(** [struct FreeBlock { size_t size; FreeBlock* next; }] *)
Definition sizeof_FreeBlock : Z := sizeof_size_t + sizeof_pointer.
Definition offsetof_size : Z := 0.
Definition offsetof_next : Z := sizeof_size_t.

Definition MIN_BLOCK_SIZE : Z := sizeof_FreeBlock.

Record t : Type := Build {
  m_buffer : ptr;
  m_bufferSize : Z;
  m_freeList : ptr;
  m_name : string;
  m_threadSafe : bool;
  m_allocatedSize : Z;
  m_peakUsage : Z;
  m_allocationCount : Z
}.

Definition create (buffer : ptr) (bufferSize : Z) : M t :=
  store_word (buffer + offsetof_size) bufferSize;;
  store_word (buffer + offsetof_next) nullptr;;
  mret {| m_buffer := buffer; m_bufferSize := bufferSize;
          m_freeList := buffer;
          m_name := "FreeListAllocator"; m_threadSafe := false;
          m_allocatedSize := 0; m_peakUsage := 0; m_allocationCount := 0 |}.

(** [if (prev) prev->next = target; else m_freeList = target;], returning
    the head of the freelist after the assignment. *)
Definition link (this : t) (prev target : ptr) : M ptr :=
  if prev =? nullptr then mret target
  else store_word (prev + offsetof_next) target;; mret (m_freeList this).

Definition alignedAddress_for (current alignment : Z) : Z :=
  let headerAddress := wrap (current + sizeof_FreeBlock) in
  Z.land (wrap (headerAddress + sizeof_AllocationHeader + alignment - 1))
         (wrap (Z.lnot (wrap (alignment - 1)))).

Definition alignmentPadding_for (current alignment : Z) : Z :=
  let headerAddress := wrap (current + sizeof_FreeBlock) in
  wrap (alignedAddress_for current alignment - headerAddress).

(** The [while (current != nullptr)] loop of [Allocate]. *)
Fixpoint Allocate_loop (fuel : nat) (this : t) (totalSize alignment : Z)
    (prev current : ptr) : M (ptr * t) :=
  match fuel with
  | O => out_of_fuel
  | S fuel' =>
      if current =? nullptr then mret (nullptr, this)
      else
        let alignedAddress := alignedAddress_for current alignment in
        let alignmentPadding := alignmentPadding_for current alignment in
        let requiredSize := wrap (totalSize + alignmentPadding) in
        current_size ← load_word (current + offsetof_size);
        if current_size >=? requiredSize then
          '(requiredSize, head) ←
            (if wrap (current_size - requiredSize) <=? MIN_BLOCK_SIZE then
               next ← load_word (current + offsetof_next);
               head ← link this prev next;
               mret (current_size, head)
             else
               let newBlock := current + requiredSize in
               store_word (newBlock + offsetof_size)
                          (wrap (current_size - requiredSize));;
               next ← load_word (current + offsetof_next);
               store_word (newBlock + offsetof_next) next;;
               head ← link this prev newBlock;
               mret (requiredSize, head));
          let header := wrap (alignedAddress - sizeof_AllocationHeader) in
          store_word (header + offsetof_header_size) requiredSize;;
          store_byte (header + offsetof_header_padding) alignmentPadding;;
          let allocatedSize := wrap (requiredSize - sizeof_FreeBlock) in
          let allocated := wrap (m_allocatedSize this + allocatedSize) in
          mret (alignedAddress,
                {| m_buffer := m_buffer this;
                   m_bufferSize := m_bufferSize this;
                   m_freeList := head;
                   m_name := m_name this;
                   m_threadSafe := m_threadSafe this;
                   m_allocatedSize := allocated;
                   m_peakUsage := Z.max (m_peakUsage this) allocated;
                   m_allocationCount := wrap (m_allocationCount this + 1) |})
        else
          next ← load_word (current + offsetof_next);
          Allocate_loop fuel' this totalSize alignment current next
  end.

Definition Allocate (fuel : nat) (this : t) (size alignment : Z) : M (ptr * t) :=
  let totalSize := wrap (size + sizeof_AllocationHeader) in
  Allocate_loop fuel this totalSize alignment nullptr (m_freeList this).

(** The [while (current != nullptr && current < blockToFree)] loop of
    [Free], returning the final [(prev, current)]. *)
Fixpoint Free_walk (fuel : nat) (blockToFree prev current : ptr) : M (ptr * ptr) :=
  match fuel with
  | O => out_of_fuel
  | S fuel' =>
      if negb (current =? nullptr) && (current <? blockToFree) then
        next ← load_word (current + offsetof_next);
        Free_walk fuel' blockToFree current next
      else mret (prev, current)
  end.

Definition Free (fuel : nat) (this : t) (p : ptr) : M t :=
  if p =? nullptr then mret this
  else
    let header := p - sizeof_AllocationHeader in
    padding ← load_byte (header + offsetof_header_padding);
    let blockToFree := wrap (wrap (p - sizeof_AllocationHeader) - padding) in
    header_size ← load_word (header + offsetof_header_size);
    store_word (blockToFree + offsetof_size) header_size;;
    '(prev, current) ← Free_walk fuel blockToFree nullptr (m_freeList this);
    head ← link this prev blockToFree;
    store_word (blockToFree + offsetof_next) current;;
    block_size ← load_word (blockToFree + offsetof_size);
    (if blockToFree + block_size =? current then
       current_size ← load_word (current + offsetof_size);
       store_word (blockToFree + offsetof_size) (wrap (block_size + current_size));;
       current_next ← load_word (current + offsetof_next);
       store_word (blockToFree + offsetof_next) current_next
     else mret tt);;
    (if prev =? nullptr then mret tt
     else
       prev_size ← load_word (prev + offsetof_size);
       if prev + prev_size =? blockToFree then
         block_size ← load_word (blockToFree + offsetof_size);
         store_word (prev + offsetof_size) (wrap (prev_size + block_size));;
         block_next ← load_word (blockToFree + offsetof_next);
         store_word (prev + offsetof_next) block_next
       else mret tt);;
    header_size ← load_word (header + offsetof_header_size);
    let freedSize := wrap (header_size - sizeof_FreeBlock) in
    mret {| m_buffer := m_buffer this;
            m_bufferSize := m_bufferSize this;
            m_freeList := head;
            m_name := m_name this;
            m_threadSafe := m_threadSafe this;
            m_allocatedSize := wrap (m_allocatedSize this - freedSize);
            m_peakUsage := m_peakUsage this;
            m_allocationCount := wrap (m_allocationCount this - 1) |}.

Definition GetAllocationSize (this : t) (p : ptr) : M Z :=
  if p =? nullptr then mret 0
  else
    let header := p - sizeof_AllocationHeader in
    header_size ← load_word (header + offsetof_header_size);
    padding ← load_byte (header + offsetof_header_padding);
    mret (wrap (wrap (header_size - sizeof_AllocationHeader) - padding)).

Definition Reallocate (fuel : nat) (this : t) (p : ptr) (newSize alignment : Z)
    : M (ptr * t) :=
  if p =? nullptr then Allocate fuel this newSize alignment
  else if newSize =? 0 then this1 ← Free fuel this p; mret (nullptr, this1)
  else
    oldSize ← GetAllocationSize this p;
    if newSize <=? oldSize then mret (p, this)
    else
      '(newPtr, this1) ← Allocate fuel this newSize alignment;
      if newPtr =? nullptr then mret (newPtr, this1)
      else
        memcpy newPtr p (Z.min oldSize newSize);;
        this2 ← Free fuel this1 p;
        mret (newPtr, this2).

Definition GetTotalAllocated (this : t) : Z := m_allocatedSize this.

Definition GetPeakUsage (this : t) : Z := m_peakUsage this.

Definition Reset (this : t) : M t :=
  let head := m_buffer this in
  store_word (head + offsetof_size) (m_bufferSize this);;
  store_word (head + offsetof_next) nullptr;;
  mret {| m_buffer := m_buffer this;
          m_bufferSize := m_bufferSize this;
          m_freeList := head;
          m_name := m_name this;
          m_threadSafe := m_threadSafe this;
          m_allocatedSize := 0;
          m_peakUsage := 0;
          m_allocationCount := 0 |}.

Definition Owns (this : t) (p : ptr) : bool :=
  (p >=? m_buffer this) && (p <? m_buffer this + m_bufferSize this).

Definition GetAllocationCount (this : t) : Z := m_allocationCount this.

(** The loop shared by [GetFragmentationPercentage] and
    [GetDetailedStats]: [(freeMemory, largestFreeBlock, freeBlockCount)]. *)
Fixpoint free_stats (fuel : nat) (block : ptr) (acc : Z * Z * Z) : M (Z * Z * Z) :=
  match fuel with
  | O => out_of_fuel
  | S fuel' =>
      if block =? nullptr then mret acc
      else
        let '(freeMemory, largestFreeBlock, freeBlockCount) := acc in
        block_size ← load_word (block + offsetof_size);
        next ← load_word (block + offsetof_next);
        free_stats fuel' next
          (wrap (freeMemory + block_size),
           Z.max largestFreeBlock block_size,
           wrap (freeBlockCount + 1))
  end.

(** The loop of [ValidateInternalState]: [None] when it returns [false]
    from inside the loop, the accumulated [totalFreeSize] otherwise. *)
Fixpoint Validate_loop (fuel : nat) (block : ptr) (totalFreeSize : Z) : M (option Z) :=
  match fuel with
  | O => out_of_fuel
  | S fuel' =>
      if block =? nullptr then mret (Some totalFreeSize)
      else
        block_size ← load_word (block + offsetof_size);
        let totalFreeSize := wrap (totalFreeSize + block_size) in
        next ← load_word (block + offsetof_next);
        if negb (next =? nullptr) && (block + block_size >? next) then mret None
        else Validate_loop fuel' next totalFreeSize
  end.

Definition ValidateInternalState (fuel : nat) (this : t) : M bool :=
  r ← Validate_loop fuel (m_freeList this) 0;
  match r with
  | None => mret false
  | Some totalFreeSize =>
      mret (wrap (totalFreeSize + m_allocatedSize this) =? m_bufferSize this)
  end.

(** [on_free_list h head c]: the block at address [c] is reached from
    [head] by following [next] fields in the memory [h]. *)
Inductive on_free_list (h : heap) : ptr -> ptr -> Prop :=
| on_free_list_here (c : ptr) :
    c <> nullptr -> on_free_list h c c
| on_free_list_next (head next c : ptr) :
    head <> nullptr ->
    Mem.read_le h word_bytes (head + offsetof_next) = Some next ->
    on_free_list h next c ->
    on_free_list h head c.

(** [all_too_small h totalSize alignment c n]: the freelist from [c] on has
    [n] blocks before the null that ends it, and each of them is smaller
    than what a request of [totalSize] bytes, header included, needs
    there. *)
Inductive all_too_small (h : heap) (totalSize alignment : Z) : ptr -> nat -> Prop :=
| all_too_small_null : all_too_small h totalSize alignment nullptr 0
| all_too_small_block (c size next : Z) (n : nat) :
    c <> nullptr ->
    Mem.read_le h word_bytes (c + offsetof_size) = Some size ->
    size < wrap (totalSize + alignmentPadding_for c alignment) ->
    Mem.read_le h word_bytes (c + offsetof_next) = Some next ->
    all_too_small h totalSize alignment next n ->
    all_too_small h totalSize alignment c (S n).

(** [no_block_fits h size alignment c n]: the freelist from [c] on has [n]
    blocks before the null that ends it, and none of them has room for
    [size] bytes at a multiple of [alignment] that leaves the 32 bytes of
    the two descriptors before it; the addresses involved do not pass
    [2^64]. *)
Inductive no_block_fits (h : heap) (size alignment : Z) : ptr -> nat -> Prop :=
| no_block_fits_null : no_block_fits h size alignment nullptr 0
| no_block_fits_block (c block_size next : Z) (n : nat) :
    0 < c ->
    c + alignment + sizeof_FreeBlock + sizeof_AllocationHeader <= 2 ^ SIZE_BITS ->
    Mem.read_le h word_bytes (c + offsetof_size) = Some block_size ->
    (forall a : Z,
       c + sizeof_FreeBlock + sizeof_AllocationHeader <= a ->
       a mod alignment = 0 ->
       c + block_size < a + size) ->
    Mem.read_le h word_bytes (c + offsetof_next) = Some next ->
    no_block_fits h size alignment next n ->
    no_block_fits h size alignment c (S n).

(** Every block of the freelist lies inside the buffer. *)
Definition free_blocks_in_buffer (this : t) (h : heap) : Prop :=
  forall (c size : Z),
  on_free_list h (m_freeList this) c ->
  Mem.read_le h word_bytes (c + offsetof_size) = Some size ->
  m_buffer this <= c /\ c + size <= m_buffer this + m_bufferSize this.

End FreeListAllocator.

(** ** The interface [IAllocator]

    The member functions that the claims speak of, as a class with one
    instance per allocator.  Functions of an allocator that neither read nor
    write memory are lifted with [mret]; the free-list instance takes the
    bound on its walks of the freelist. *)

Module IAllocator.

Class IAllocator (T : Type) : Type := {
  Allocate : T -> Z -> Z -> M (ptr * T);
  Free : T -> ptr -> M T;
  Reallocate : T -> ptr -> Z -> Z -> M (ptr * T);
  GetAllocationSize : T -> ptr -> M Z;
  GetTotalAllocated : T -> Z;
  GetPeakUsage : T -> Z;
  Reset : T -> M T;
  Owns : T -> ptr -> bool;
  GetAllocationCount : T -> Z;
  ValidateInternalState : T -> M bool
}.

#[export] Instance Linear : IAllocator LinearAllocator.t := {
  Allocate := LinearAllocator.Allocate;
  Free := LinearAllocator.Free;
  Reallocate := LinearAllocator.Reallocate;
  GetAllocationSize this p := mret (LinearAllocator.GetAllocationSize this p);
  GetTotalAllocated := LinearAllocator.GetTotalAllocated;
  GetPeakUsage := LinearAllocator.GetPeakUsage;
  Reset this := mret (LinearAllocator.Reset this);
  Owns := LinearAllocator.Owns;
  GetAllocationCount := LinearAllocator.GetAllocationCount;
  ValidateInternalState this := mret (LinearAllocator.ValidateInternalState this)
}.

#[export] Instance Stack : IAllocator StackAllocator.t := {
  Allocate := StackAllocator.Allocate;
  Free := StackAllocator.Free;
  Reallocate := StackAllocator.Reallocate;
  GetAllocationSize := StackAllocator.GetAllocationSize;
  GetTotalAllocated := StackAllocator.GetTotalAllocated;
  GetPeakUsage := StackAllocator.GetPeakUsage;
  Reset this := mret (StackAllocator.Reset this);
  Owns := StackAllocator.Owns;
  GetAllocationCount := StackAllocator.GetAllocationCount;
  ValidateInternalState this := mret (StackAllocator.ValidateInternalState this)
}.

#[export] Instance Pool : IAllocator PoolAllocator.t := {
  Allocate := PoolAllocator.Allocate;
  Free := PoolAllocator.Free;
  Reallocate := PoolAllocator.Reallocate;
  GetAllocationSize this p := mret (PoolAllocator.GetAllocationSize this p);
  GetTotalAllocated := PoolAllocator.GetTotalAllocated;
  GetPeakUsage := PoolAllocator.GetPeakUsage;
  Reset := PoolAllocator.Reset;
  Owns := PoolAllocator.Owns;
  GetAllocationCount := PoolAllocator.GetAllocationCount;
  ValidateInternalState this := mret (PoolAllocator.ValidateInternalState this)
}.

Definition FreeList (fuel : nat) : IAllocator FreeListAllocator.t := {|
  Allocate := FreeListAllocator.Allocate fuel;
  Free := FreeListAllocator.Free fuel;
  Reallocate := FreeListAllocator.Reallocate fuel;
  GetAllocationSize := FreeListAllocator.GetAllocationSize;
  GetTotalAllocated := FreeListAllocator.GetTotalAllocated;
  GetPeakUsage := FreeListAllocator.GetPeakUsage;
  Reset := FreeListAllocator.Reset;
  Owns := FreeListAllocator.Owns;
  GetAllocationCount := FreeListAllocator.GetAllocationCount;
  ValidateInternalState := FreeListAllocator.ValidateInternalState fuel
|}.

(** The contract of [GetAllocationSize] for pointers that the allocator
    does not own. *)
Definition size_zero_when_not_owned {T : Type} (A : IAllocator T) : Prop :=
  forall (this : T) (p : ptr) (h : heap),
  Owns this p = false -> GetAllocationSize this p h = Ret (0, h).

(** [AllocateAligned<T>(allocator, args...)], up to the construction of
    the object: the address where it would be placed, or null. *)
Definition AllocateAligned {T : Type} `{IAllocator T} (allocator : T)
    (sizeof_T alignof_T : Z) : M (ptr * T) :=
  Allocate allocator sizeof_T alignof_T.

(** [DeallocateAligned<T>(allocator, ptr)], up to the destruction of the
    object. *)
Definition DeallocateAligned {T : Type} `{IAllocator T} (allocator : T) (p : ptr)
    : M T :=
  if p =? nullptr then mret allocator else Free allocator p.

End IAllocator.

(** ** Scenarios

    Sequences of calls on freshly constructed allocators.  [buffer] is the
    address the constructor obtained, [fuel] bounds each walk of the
    freelist. *)

Module Scenario.

(** The result of a call sequence started in empty memory. *)
Definition run {A} (m : M A) : outcome A :=
  match m ∅ with
  | Ret (a, _) => Ret a
  | Throw e => Throw e
  | Undefined => Undefined
  | OutOfFuel => OutOfFuel
  end.

(** One allocation of 200 bytes from a free-list allocator of 1024 bytes,
    then [ValidateInternalState]: the returned address, the verdict, the
    bytes on the freelist and [GetTotalAllocated]. *)
Definition freelist_validate_after_Allocate (buffer : ptr) (fuel : nat)
    : M (ptr * bool * Z * Z) :=
  this ← FreeListAllocator.create buffer 1024;
  '(a, this) ← FreeListAllocator.Allocate fuel this 200 8;
  valid ← FreeListAllocator.ValidateInternalState fuel this;
  '(freeMemory, _, _) ←
    FreeListAllocator.free_stats fuel (FreeListAllocator.m_freeList this) (0, 0, 0);
  mret (a, valid, freeMemory, FreeListAllocator.GetTotalAllocated this).

(** Scenario S3: three allocations of 200 bytes, freed in the order b, a,
    c, then an allocation of 900 bytes.  The result lists the four returned
    addresses, and for the state before the last allocation the head of the
    freelist, the [size] and [next] fields of the head block, and
    [(freeMemory, largestFreeBlock, freeBlockCount)]. *)
Definition freelist_S3 (buffer : ptr) (fuel : nat)
    : M (ptr * ptr * ptr * ptr * (ptr * Z * ptr) * (Z * Z * Z)) :=
  this ← FreeListAllocator.create buffer 1024;
  '(a, this) ← FreeListAllocator.Allocate fuel this 200 8;
  '(b, this) ← FreeListAllocator.Allocate fuel this 200 8;
  '(c, this) ← FreeListAllocator.Allocate fuel this 200 8;
  this ← FreeListAllocator.Free fuel this b;
  this ← FreeListAllocator.Free fuel this a;
  this ← FreeListAllocator.Free fuel this c;
  let head := FreeListAllocator.m_freeList this in
  head_size ← load_word (head + FreeListAllocator.offsetof_size);
  head_next ← load_word (head + FreeListAllocator.offsetof_next);
  stats ← FreeListAllocator.free_stats fuel head (0, 0, 0);
  '(d, this) ← FreeListAllocator.Allocate fuel this 900 8;
  mret (a, b, c, d, (head, head_size, head_next), stats).

(** Two free-list allocators [A] and [B]; a block allocated from [B] is
    passed to [A.Owns] and [A.GetAllocationSize]. *)
Definition freelist_size_of_foreign_pointer (fuel : nat) : M (ptr * bool * Z) :=
  A ← FreeListAllocator.create 4096 1024;
  B ← FreeListAllocator.create 8192 1024;
  '(p, B) ← FreeListAllocator.Allocate fuel B 200 8;
  size ← FreeListAllocator.GetAllocationSize A p;
  mret (p, FreeListAllocator.Owns A p, size).

(** A free-list allocator of 64 bytes after [Allocate(15, 1)], queried with
    the address one past the end of its buffer. *)
Definition freelist_size_of_end_pointer (fuel : nat) : M (ptr * bool * Z) :=
  this ← FreeListAllocator.create 4096 64;
  '(a, this) ← FreeListAllocator.Allocate fuel this 15 1;
  let p := FreeListAllocator.m_buffer this + FreeListAllocator.m_bufferSize this in
  size ← FreeListAllocator.GetAllocationSize this p;
  mret (a, FreeListAllocator.Owns this p, size).

(** A pool allocator with the single class (32, 4) asked for 20 bytes
    aligned to 64. *)
Definition pool_Allocate_aligned_64 : M ptr :=
  this ← PoolAllocator.create [(32, 4)] [4096];
  '(p, this) ← PoolAllocator.Allocate this 20 64;
  mret p.

(** A pool allocator with the single class (32, 4) asked for 64 bytes. *)
Definition pool_Allocate_oversize : M ptr :=
  this ← PoolAllocator.create [(32, 4)] [4096];
  '(p, this) ← PoolAllocator.Allocate this 64 8;
  mret p.

(** A free-list allocator of 640 bytes at address 4096: 100 bytes aligned
    to 512 are allocated and freed, then 400 bytes and 100 bytes aligned to
    8 are allocated.  The result lists the three returned addresses and what
    [Owns] answers for the last one. *)
Definition freelist_Allocate_after_wide_alignment (fuel : nat)
    : M (ptr * ptr * ptr * bool) :=
  this ← FreeListAllocator.create 4096 640;
  '(a, this) ← FreeListAllocator.Allocate fuel this 100 512;
  this ← FreeListAllocator.Free fuel this a;
  '(b, this) ← FreeListAllocator.Allocate fuel this 400 8;
  '(c, this) ← FreeListAllocator.Allocate fuel this 100 8;
  mret (a, b, c, FreeListAllocator.Owns this c).


End Scenario.

(** ** Call sequences

    Programs of a client: sequences of calls on one allocator, each stopping
    at the first call that does not return. *)

Module Calls.

(** The calls on a linear allocator that change it. *)
Inductive linear_call : Type :=
| LAllocate (size alignment : Z)
| LFree (p : ptr)
| LReallocate (p : ptr) (newSize alignment : Z)
| LReset.

Definition linear_do (this : LinearAllocator.t) (c : linear_call) : M LinearAllocator.t :=
  match c with
  | LAllocate size alignment =>
      '(_, this') ← LinearAllocator.Allocate this size alignment; mret this'
  | LFree p => LinearAllocator.Free this p
  | LReallocate p newSize alignment =>
      '(_, this') ← LinearAllocator.Reallocate this p newSize alignment; mret this'
  | LReset => mret (LinearAllocator.Reset this)
  end.

Fixpoint linear_run (this : LinearAllocator.t) (cs : list linear_call)
    : M LinearAllocator.t :=
  match cs with
  | [] => mret this
  | c :: cs' => this' ← linear_do this c; linear_run this' cs'
  end.

(** The calls of a client of the stack allocator that releases memory by
    markers only. *)
Inductive stack_call : Type :=
| SAllocate (size alignment : Z)
| SPushMarker
| SPopMarker
| SFreeToMarker (marker : Z)
| SReset.

Definition stack_do (this : StackAllocator.t) (c : stack_call) : M StackAllocator.t :=
  match c with
  | SAllocate size alignment =>
      '(_, this') ← StackAllocator.Allocate this size alignment; mret this'
  | SPushMarker => mret (StackAllocator.PushMarker this)
  | SPopMarker => mret (StackAllocator.PopMarker this)
  | SFreeToMarker marker => mret (StackAllocator.FreeToMarker this marker)
  | SReset => mret (StackAllocator.Reset this)
  end.

Fixpoint stack_run (this : StackAllocator.t) (cs : list stack_call)
    : M StackAllocator.t :=
  match cs with
  | [] => mret this
  | c :: cs' => this' ← stack_do this c; stack_run this' cs'
  end.

(** [AllocateAligned<T>] followed by [DeallocateAligned<T>] of the pointer
    it returned, on a stack allocator. *)
Definition stack_AllocateAligned_DeallocateAligned (this : StackAllocator.t)
    (sizeof_T alignof_T : Z) : M (ptr * StackAllocator.t) :=
  '(p, this) ← @IAllocator.AllocateAligned _ IAllocator.Stack this sizeof_T alignof_T;
  this ← @IAllocator.DeallocateAligned _ IAllocator.Stack this p;
  mret (p, this).

(** A run of [Allocate] calls on a pool allocator, one per size, all with
    the same alignment; the returned pointers are listed in call order. *)
Fixpoint pool_Allocate_all (this : PoolAllocator.t) (sizes : list Z) (alignment : Z)
    : M (list ptr * PoolAllocator.t) :=
  match sizes with
  | [] => mret ([], this)
  | size :: sizes' =>
      '(p, this1) ← PoolAllocator.Allocate this size alignment;
      '(ps, this2) ← pool_Allocate_all this1 sizes' alignment;
      mret (p :: ps, this2)
  end.

(** A fresh pool allocator with the single class [(blockSize, blockCount)],
    one allocation per element of [sizes], and one more of [size] bytes. *)
Definition pool_drain (blockSize blockCount : Z) (memory : ptr) (sizes : list Z)
    (size alignment : Z) : M (list ptr * ptr) :=
  this ← PoolAllocator.create [(blockSize, blockCount)] [memory];
  '(ps, this) ← pool_Allocate_all this sizes alignment;
  '(q, this) ← PoolAllocator.Allocate this size alignment;
  mret (ps, q).

(** [Free(p); Free(p)] followed by two allocations of [size] bytes: the two
    addresses returned. *)
Definition pool_double_Free (this : PoolAllocator.t) (p : ptr) (size alignment : Z)
    : M (ptr * ptr) :=
  this ← PoolAllocator.Free this p;
  this ← PoolAllocator.Free this p;
  '(a, this) ← PoolAllocator.Allocate this size alignment;
  '(b, this) ← PoolAllocator.Allocate this size alignment;
  mret (a, b).

(** The constructor of the free-list allocator, then the consistency check
    and the statistics of the freelist. *)
Definition freelist_create_check (buffer : ptr) (bufferSize : Z) (fuel : nat)
    : M (FreeListAllocator.t * bool * (Z * Z * Z)) :=
  this ← FreeListAllocator.create buffer bufferSize;
  valid ← FreeListAllocator.ValidateInternalState fuel this;
  stats ← FreeListAllocator.free_stats fuel (FreeListAllocator.m_freeList this) (0, 0, 0);
  mret (this, valid, stats).

(** [Reset], then the consistency check and the statistics of the
    freelist. *)
Definition freelist_Reset_check (this : FreeListAllocator.t) (fuel : nat)
    : M (FreeListAllocator.t * bool * (Z * Z * Z)) :=
  this ← FreeListAllocator.Reset this;
  valid ← FreeListAllocator.ValidateInternalState fuel this;
  stats ← FreeListAllocator.free_stats fuel (FreeListAllocator.m_freeList this) (0, 0, 0);
  mret (this, valid, stats).

(** A fresh free-list allocator, one allocation and its release, then the
    consistency check and the statistics of the freelist. *)
Definition freelist_Allocate_Free (buffer : ptr) (bufferSize size alignment : Z)
    (fuel : nat) : M (ptr * FreeListAllocator.t * bool * (Z * Z * Z)) :=
  this ← FreeListAllocator.create buffer bufferSize;
  '(p, this) ← FreeListAllocator.Allocate fuel this size alignment;
  this ← FreeListAllocator.Free fuel this p;
  valid ← FreeListAllocator.ValidateInternalState fuel this;
  stats ← FreeListAllocator.free_stats fuel (FreeListAllocator.m_freeList this) (0, 0, 0);
  mret (p, this, valid, stats).


End Calls.

(** ** Shapes of states *)

Module Shape.

(** The offset of a linear allocator is at most its peak, and the peak at
    most the size of the buffer. *)
Definition linear_within (buffer bufferSize : Z) (this : LinearAllocator.t) : Prop :=
  LinearAllocator.m_buffer this = buffer
  /\ LinearAllocator.m_bufferSize this = bufferSize
  /\ 0 <= LinearAllocator.m_offset this <= LinearAllocator.m_peakUsage this
  /\ LinearAllocator.m_peakUsage this <= bufferSize.

(** The same for a stack allocator, whose markers are offsets it had. *)
Definition stack_within (buffer bufferSize : Z) (this : StackAllocator.t) : Prop :=
  StackAllocator.m_buffer this = buffer
  /\ StackAllocator.m_bufferSize this = bufferSize
  /\ StackAllocator.m_offset this <= StackAllocator.m_peakUsage this
  /\ 0 <= StackAllocator.m_peakUsage this <= bufferSize
  /\ Forall (fun marker => marker <= bufferSize) (StackAllocator.m_markers this).

(** A chain of [next] words that reaches null in [n] steps. *)
Inductive chain_steps (h : heap) : ptr -> nat -> Prop :=
| chain_steps_null : chain_steps h nullptr 0
| chain_steps_next (b next : ptr) (n : nat) :
    b <> nullptr ->
    Mem.read_le h word_bytes (b + PoolAllocator.offsetof_next) = Some next ->
    chain_steps h next n ->
    chain_steps h b (S n).

(** The address of block [k - 1] of a slab, or null when [k] is 0: the head
    of the freelist that the constructor's loop has built after [k]
    iterations. *)
Definition slab_head (start blockSize k : Z) : ptr :=
  if k =? 0 then nullptr else start + (k - 1) * blockSize.

(** Each of the first [k] blocks of the slab links to the block before it,
    and the first one to null. *)
Definition descending (h : heap) (start blockSize k : Z) : Prop :=
  forall j, 0 <= j < k ->
  Mem.read_le h word_bytes (start + j * blockSize + PoolAllocator.offsetof_next)
  = Some (slab_head start blockSize j).

End Shape.

(** ** Specification vocabulary *)

(** The values a [size_t] can hold. *)
Definition size_t_range (z : Z) : Prop := 0 <= z < 2 ^ SIZE_BITS.

(** An alignment is a power of two that fits in a [size_t]. *)
Definition power_of_two (alignment : Z) : Prop :=
  exists k : Z, 0 <= k < SIZE_BITS /\ alignment = 2 ^ k.

(** A call returned: it neither threw, nor was undefined, nor ran out of
    steps. *)
Definition returns {A} (o : outcome A) : Prop :=
  match o with Ret _ => True | _ => False end.

Definition throws {A} (o : outcome A) : Prop :=
  match o with Throw _ => True | _ => False end.

(** [post m h Q]: when the call [m] started in memory [h] returns, its
    result and the memory it leaves satisfy [Q]. *)
Definition post {A} (m : M A) (h : heap) (Q : A -> heap -> Prop) : Prop :=
  forall (a : A) (h' : heap), m h = Ret (a, h') -> Q a h'.

(** [returns_with m h Q]: the call [m] started in memory [h] returns, and
    its result and the memory it leaves satisfy [Q]. *)
Definition returns_with {A} (m : M A) (h : heap) (Q : A -> heap -> Prop) : Prop :=
  exists (a : A) (h' : heap), m h = Ret (a, h') /\ Q a h'.

(** [no_throw m]: no exception leaves the call [m], in any memory. *)
Definition no_throw {A} (m : M A) : Prop :=
  forall h : heap, ~ throws (m h).

(** * Properties *)

(** ** Arithmetic of [size_t] *)

Lemma wrap_small z : size_t_range z -> wrap z = z.
Proof. intros H. apply Z.mod_small. exact H. Qed.

Lemma wrap_range z : size_t_range (wrap z).
Proof. apply Z.mod_pos_bound. reflexivity. Qed.

Lemma power_of_two_range (alignment : Z) :
  power_of_two alignment -> 0 < alignment < 2 ^ SIZE_BITS.
Proof.
  intros (k & Hk & ->). split.
  - apply Z.pow_pos_nonneg; lia.
  - apply Z.pow_lt_mono_r; lia.
Qed.

Lemma two_SIZE_BITS : 2 ^ SIZE_BITS = 18446744073709551616.
Proof. reflexivity. Qed.

(** The padding that both bump allocators add brings the sum to a multiple
    of the alignment. *)
Lemma bump_padding_aligns (x alignment : Z) :
  0 < alignment < 2 ^ SIZE_BITS ->
  (x + wrap (alignment - x mod alignment) mod alignment) mod alignment = 0.
Proof.
  intros Ha.
  assert (Hr : 0 <= x mod alignment < alignment) by (apply Z.mod_pos_bound; lia).
  rewrite wrap_small by (unfold size_t_range; lia).
  rewrite Zplus_mod, Zmod_mod, <- Zplus_mod.
  replace (x + (alignment - x mod alignment))
    with (alignment + (x - x mod alignment)) by lia.
  pose proof (Z.div_mod x alignment) as Hdm.
  replace (alignment + (x - x mod alignment))
    with ((1 + x / alignment) * alignment) by lia.
  apply Z_mod_mult.
Qed.

Lemma bump_padding_range (x alignment : Z) :
  0 < alignment ->
  0 <= wrap (alignment - x mod alignment) mod alignment < alignment.
Proof. intros Ha. apply Z.mod_pos_bound. exact Ha. Qed.

(** ** Alignment by masking *)

(** The mask [~(alignment - 1)] has its [k] low bits clear. *)
Lemma alignment_mask_low_bits (k : Z) :
  0 <= k < SIZE_BITS ->
  wrap (Z.lnot (wrap (2 ^ k - 1))) mod 2 ^ k = 0.
Proof.
  intros Hk. unfold wrap, SIZE_BITS in *.
  assert (Hpow : 0 < 2 ^ k < 2 ^ 64).
  { split; [apply Z.pow_pos_nonneg; lia | apply Z.pow_lt_mono_r; lia]. }
  rewrite (Z.mod_small (2 ^ k - 1)) by lia.
  replace (Z.lnot (2 ^ k - 1)) with (- 2 ^ k) by (unfold Z.lnot; lia).
  replace (2 ^ 64) with (2 ^ k * 2 ^ (64 - k))
    by (rewrite <- Z.pow_add_r by lia; f_equal; lia).
  rewrite Z.rem_mul_r by (try apply Z.pow_pos_nonneg; lia).
  rewrite Z.mul_comm, Z.mod_add by lia.
  replace (- 2 ^ k) with ((-1) * 2 ^ k) by lia.
  rewrite Z.mod_mul by lia. rewrite Z.mod_0_l; lia.
Qed.

(** Masking with it yields a multiple of [2 ^ k]. *)
Lemma land_alignment_mask (x k : Z) :
  0 <= k < SIZE_BITS ->
  Z.land x (wrap (Z.lnot (wrap (2 ^ k - 1)))) mod 2 ^ k = 0.
Proof.
  intros Hk.
  rewrite <- Z.land_ones by lia.
  rewrite <- Z.land_assoc.
  rewrite (Z.land_ones _ k) by lia.
  rewrite alignment_mask_low_bits by exact Hk.
  apply Z.land_0_r.
Qed.

(** On a value of [size_t] the mask clears the [k] low bits and keeps the
    others. *)
Lemma land_alignment_mask_value (x k : Z) :
  0 <= k < SIZE_BITS ->
  size_t_range x ->
  Z.land x (wrap (Z.lnot (wrap (2 ^ k - 1)))) = x - x mod 2 ^ k.
Proof.
  intros Hk Hx. unfold wrap, size_t_range, SIZE_BITS in *.
  assert (Hpow : 0 < 2 ^ k < 2 ^ 64).
  { split; [apply Z.pow_pos_nonneg; lia | apply Z.pow_lt_mono_r; lia]. }
  rewrite (Z.mod_small (2 ^ k - 1)) by lia.
  replace (2 ^ k - 1) with (Z.ones k) by (rewrite Z.ones_equiv; lia).
  replace (x - x mod 2 ^ k) with (Z.shiftl (Z.shiftr x k) k).
  2:{ rewrite Z.shiftl_mul_pow2, Z.shiftr_div_pow2 by lia.
      pose proof (Z.div_mod x (2 ^ k)). lia. }
  apply Z.bits_inj'. intros n Hn.
  rewrite Z.land_spec, Z.shiftl_spec by lia.
  destruct (Z.lt_ge_cases n k) as [Hlt|Hge].
  - rewrite (Z.testbit_neg_r _ (n - k)) by lia.
    rewrite Z.mod_pow2_bits_low, Z.lnot_spec, Z.ones_spec_low by lia.
    apply andb_false_r.
  - rewrite Z.shiftr_spec by lia. replace (n - k + k) with n by lia.
    destruct (Z.lt_ge_cases n 64) as [Hlt64|Hge64].
    + rewrite Z.mod_pow2_bits_low, Z.lnot_spec, Z.ones_spec_high by lia.
      apply andb_true_r.
    + rewrite Z.mod_pow2_bits_high by lia. rewrite andb_false_r.
      rewrite <- (Z.mod_small x (2 ^ 64)) by lia.
      symmetry. apply Z.mod_pow2_bits_high. lia.
Qed.

(** ** Memory *)

Ltac run_monad :=
  unfold mbind, M_bind, mret, M_ret, throw, undefined, out_of_fuel,
    load_word, store_word, load_byte, store_byte, load, store in *.

Lemma write_le_lookup_other (n : nat) : forall (h : heap) (a v b : Z),
  b < a \/ a + Z.of_nat n <= b ->
  Mem.write_le h n a v !! b = h !! b.
Proof.
  induction n as [|n IH]; intros h a v b Hb; simpl; [reflexivity|].
  rewrite IH by lia. unfold Mem.write8.
  apply lookup_insert_ne. lia.
Qed.

Lemma read_le_ext (n : nat) : forall (h1 h2 : heap) (a : Z),
  (forall i, a <= i < a + Z.of_nat n -> h1 !! i = h2 !! i) ->
  Mem.read_le h1 n a = Mem.read_le h2 n a.
Proof.
  induction n as [|n IH]; intros h1 h2 a Hext; simpl; [reflexivity|].
  unfold Mem.read8. rewrite (Hext a) by lia.
  rewrite (IH h1 h2 (a + 1)); [reflexivity|].
  intros i Hi. apply Hext. lia.
Qed.

(** A field that lies outside a written field keeps its value. *)
Lemma read_le_write_le_other (n m : nat) (h : heap) (a b v : Z) :
  b + Z.of_nat n <= a \/ a + Z.of_nat m <= b ->
  Mem.read_le (Mem.write_le h m a v) n b = Mem.read_le h n b.
Proof.
  intros Hd. apply read_le_ext. intros i Hi.
  apply write_le_lookup_other. lia.
Qed.

(** Reading a field back gives the value written, reduced to the width of
    the field. *)
Lemma read_le_write_le_same (n : nat) : forall (h : heap) (a v : Z),
  Mem.read_le (Mem.write_le h n a v) n a = Some (v mod 256 ^ Z.of_nat n).
Proof.
  induction n as [|n IH]; intros h a v.
  - simpl. rewrite Z.mod_1_r. reflexivity.
  - cbn [Mem.write_le Mem.read_le]. unfold Mem.read8 at 1.
    rewrite write_le_lookup_other by lia.
    unfold Mem.write8 at 1. rewrite lookup_insert_eq.
    rewrite IH, Zmod_mod. f_equal.
    rewrite Nat2Z.inj_succ, Z.pow_succ_r by lia.
    rewrite Z.rem_mul_r by lia. reflexivity.
Qed.

(** A field of [n] bytes holds a value below [256 ^ n]. *)
Lemma read_le_range (n : nat) : forall (h : heap) (a v : Z),
  Mem.read_le h n a = Some v -> 0 <= v < 256 ^ Z.of_nat n.
Proof.
  induction n as [|n IH]; intros h a v Hread; cbn [Mem.read_le] in Hread.
  - inversion Hread; subst. simpl. lia.
  - unfold Mem.read8 in Hread.
    destruct (h !! a) as [b|]; [|discriminate].
    destruct (Mem.read_le h n (a + 1)) as [r|] eqn:Hr; [|discriminate].
    inversion Hread; subst. specialize (IH _ _ _ Hr).
    pose proof (Z.mod_pos_bound b 256 ltac:(lia)).
    rewrite Nat2Z.inj_succ, Z.pow_succ_r by lia. nia.
Qed.

Lemma read_word_range (h : heap) (a v : Z) :
  Mem.read_le h word_bytes a = Some v -> size_t_range v.
Proof. intros Hread. apply read_le_range in Hread. exact Hread. Qed.

Lemma read_word_write_word (h : heap) (a v : Z) :
  size_t_range v ->
  Mem.read_le (Mem.write_le h word_bytes a v) word_bytes a = Some v.
Proof.
  intros Hv. rewrite read_le_write_le_same. f_equal.
  apply Z.mod_small. exact Hv.
Qed.

(** ** The monad *)

Lemma post_ret {A} (a : A) (h : heap) (Q : A -> heap -> Prop) :
  Q a h -> post (mret a) h Q.
Proof. intros HQ a' h' Heq. inversion Heq; subst. exact HQ. Qed.

Lemma post_bind {A B} (m : M A) (f : A -> M B) (h : heap) (Q : B -> heap -> Prop) :
  post m h (fun a h1 => post (f a) h1 Q) -> post (m ≫= f) h Q.
Proof.
  intros Hm b h' Heq. unfold mbind, M_bind in Heq.
  destruct (m h) as [[a h1]| | |] eqn:E; try discriminate.
  exact (Hm a h1 E b h' Heq).
Qed.

Lemma post_bind_any {A B} (m : M A) (f : A -> M B) (h : heap) (Q : B -> heap -> Prop) :
  (forall a h1, post (f a) h1 Q) -> post (m ≫= f) h Q.
Proof. intros Hf. apply post_bind. intros a h1 _. apply Hf. Qed.

Lemma post_load (n : nat) (a : Z) (h : heap) (Q : Z -> heap -> Prop) :
  (forall v, Mem.read_le h n a = Some v -> Q v h) -> post (load n a) h Q.
Proof.
  intros HQ v h' Heq. unfold load in Heq.
  destruct (Mem.read_le h n a) as [v0|] eqn:E; [|discriminate].
  inversion Heq; subst. apply HQ. reflexivity.
Qed.

Lemma post_store (n : nat) (a v : Z) (h : heap) (Q : unit -> heap -> Prop) :
  Q tt (Mem.write_le h n a v) -> post (store n a v) h Q.
Proof. intros HQ u h' Heq. inversion Heq; subst. exact HQ. Qed.

Lemma post_weaken {A} (m : M A) (h : heap) (Q Q' : A -> heap -> Prop) :
  (forall a h', Q a h' -> Q' a h') -> post m h Q -> post m h Q'.
Proof. intros HQ Hm a h' Heq. apply HQ, Hm, Heq. Qed.

Lemma no_throw_ret {A} (a : A) : no_throw (mret a : M A).
Proof. intros h []. Qed.

Lemma no_throw_bind {A B} (m : M A) (f : A -> M B) :
  no_throw m -> (forall a, no_throw (f a)) -> no_throw (m ≫= f).
Proof.
  intros Hm Hf h. unfold mbind, M_bind.
  specialize (Hm h).
  destruct (m h) as [[a h1]| | |].
  - apply Hf.
  - exact Hm.
  - intros [].
  - intros [].
Qed.

Lemma no_throw_load (n : nat) (a : Z) : no_throw (load n a).
Proof. intros h. unfold load. destruct (Mem.read_le h n a); intros []. Qed.

Lemma no_throw_store (n : nat) (a v : Z) : no_throw (store n a v).
Proof. intros h []. Qed.

Lemma no_throw_undefined {A} : no_throw (undefined : M A).
Proof. intros h []. Qed.

Lemma no_throw_out_of_fuel {A} : no_throw (out_of_fuel : M A).
Proof. intros h []. Qed.

Lemma no_throw_memcpy (dst src n : Z) : no_throw (memcpy dst src n).
Proof. intros h. unfold memcpy. destruct (overlap dst src n); intros []. Qed.

(** A [memcpy] between ranges that do not overlap returns. *)
Lemma memcpy_disjoint (dst src n : Z) (h : heap) :
  n <= 0 \/ dst + n <= src \/ src + n <= dst ->
  memcpy dst src n h = Ret (tt, Mem.copy h h (Z.to_nat n) dst src).
Proof.
  intros H. unfold memcpy, overlap.
  destruct (Z.ltb_spec 0 n); cbn [andb]; [|reflexivity].
  destruct (Z.ltb_spec src (dst + n)); cbn [andb]; [|reflexivity].
  destruct (Z.ltb_spec dst (src + n)); [lia | reflexivity].
Qed.

(** A [memcpy] between ranges that overlap is undefined. *)
Lemma memcpy_overlap (dst src n : Z) (h : heap) :
  0 < n -> src < dst + n -> dst < src + n ->
  memcpy dst src n h = Undefined.
Proof.
  intros Hn H1 H2. unfold memcpy, overlap.
  destruct (Z.ltb_spec 0 n); [|lia].
  destruct (Z.ltb_spec src (dst + n)); [|lia].
  destruct (Z.ltb_spec dst (src + n)); [reflexivity | lia].
Qed.

Ltac no_throw_step :=
  lazymatch goal with
  | |- no_throw (_ ≫= _) => apply no_throw_bind; [|intros ?]
  | |- no_throw (mret _) => apply no_throw_ret
  | |- no_throw (load_word _) => apply no_throw_load
  | |- no_throw (load_byte _) => apply no_throw_load
  | |- no_throw (store_word _ _) => apply no_throw_store
  | |- no_throw (store_byte _ _) => apply no_throw_store
  | |- no_throw (memcpy _ _ _) => apply no_throw_memcpy
  | |- no_throw undefined => apply no_throw_undefined
  | |- no_throw out_of_fuel => apply no_throw_out_of_fuel
  | |- no_throw (if ?b then _ else _) => destruct b
  | |- no_throw (let '(_, _) := ?x in _) => destruct x
  | |- no_throw (match ?x with _ => _ end) => destruct x
  end.

(** ** Symbolic execution *)

Lemma returns_with_ret {A} (a : A) (h : heap) (Q : A -> heap -> Prop) :
  Q a h -> returns_with (mret a) h Q.
Proof. intros HQ. exists a, h. split; [reflexivity | exact HQ]. Qed.

Lemma returns_with_bind {A B} (m : M A) (f : A -> M B) (h : heap)
    (Q : B -> heap -> Prop) :
  returns_with m h (fun a h1 => returns_with (f a) h1 Q) ->
  returns_with (m ≫= f) h Q.
Proof.
  intros (a & h1 & Hm & b & h2 & Hf & HQ). exists b, h2. split; [|exact HQ].
  unfold mbind, M_bind. rewrite Hm. exact Hf.
Qed.

Lemma returns_with_store (n : nat) (a v : Z) (h : heap) (Q : unit -> heap -> Prop) :
  Q tt (Mem.write_le h n a v) -> returns_with (store n a v) h Q.
Proof. intros HQ. exists tt, (Mem.write_le h n a v). split; [reflexivity | exact HQ]. Qed.

Lemma returns_with_load (n : nat) (a v : Z) (h : heap) (Q : Z -> heap -> Prop) :
  Mem.read_le h n a = Some v -> Q v h -> returns_with (load n a) h Q.
Proof.
  intros Hread HQ. exists v, h. split; [|exact HQ].
  unfold load. rewrite Hread. reflexivity.
Qed.

Lemma returns_with_weaken {A} (m : M A) (h : heap) (Q Q' : A -> heap -> Prop) :
  (forall a h', Q a h' -> Q' a h') -> returns_with m h Q -> returns_with m h Q'.
Proof. intros HQ (a & h' & Hm & Ha). exists a, h'. split; [exact Hm | apply HQ, Ha]. Qed.

Lemma returns_with_eq {A} (m : M A) (h h' : heap) (a : A) :
  m h = Ret (a, h') -> forall Q : A -> heap -> Prop, Q a h' -> returns_with m h Q.
Proof. intros Hm Q HQ. exists a, h'. split; assumption. Qed.

Lemma returns_with_post {A} (m : M A) (h : heap) (Q : A -> heap -> Prop) :
  returns_with m h Q -> post m h Q.
Proof.
  intros (a & h' & Hm & HQ) a' h'' Heq. rewrite Hm in Heq.
  inversion Heq; subst. exact HQ.
Qed.

(** Removes the [wrap]s whose argument the context bounds. *)
Ltac simpl_wrap :=
  repeat match goal with
         | |- context [wrap ?z] =>
             rewrite (wrap_small z) by (unfold size_t_range; lia)
         end.

Lemma read_word_write_word_at (h : heap) (a b v : Z) :
  a = b -> size_t_range v ->
  Mem.read_le (Mem.write_le h word_bytes a v) word_bytes b = Some v.
Proof. intros <- Hv. apply read_word_write_word. exact Hv. Qed.

Lemma read_byte_write_byte_at (h : heap) (a b v : Z) :
  a = b -> 0 <= v < 256 ->
  Mem.read_le (Mem.write_le h 1 a v) 1 b = Some v.
Proof.
  intros <- Hv. rewrite read_le_write_le_same. f_equal.
  apply Z.mod_small. exact Hv.
Qed.

(** Brings a read through the writes that precede it. *)
Ltac read_through :=
  repeat match goal with
         | |- context [Mem.read_le (Mem.write_le ?h ?m ?a ?v) ?n ?b] =>
             first
               [ rewrite (read_le_write_le_other n m h a b v)
                   by (simpl Z.of_nat; lia)
               | rewrite (read_word_write_word_at h a b v)
                   by (unfold size_t_range; lia)
               | rewrite (read_byte_write_byte_at h a b v) by lia ]
         end.

(** Turns a boolean test on integers into the proposition it decides. *)
Ltac bool_to_prop H :=
  rewrite ?Z.geb_leb, ?Z.gtb_ltb in H;
  rewrite ?andb_true_iff, ?andb_false_iff, ?negb_true_iff, ?negb_false_iff,
    ?Z.eqb_eq, ?Z.eqb_neq, ?Z.ltb_lt, ?Z.ltb_ge, ?Z.leb_le, ?Z.leb_gt in H.

Ltac prove_bool :=
  rewrite ?Z.geb_leb, ?Z.gtb_ltb;
  rewrite ?andb_true_iff, ?andb_false_iff, ?negb_true_iff, ?negb_false_iff,
    ?Z.eqb_eq, ?Z.eqb_neq, ?Z.ltb_lt, ?Z.ltb_ge, ?Z.leb_le, ?Z.leb_gt;
  lia.

(** Picks the branch of a conditional that the context forces, or splits
    into the two cases when it forces neither. *)
Ltac pick_branch :=
  match goal with
  | |- returns_with (if ?b then _ else _) _ _ =>
      first
        [ replace b with true by (symmetry; prove_bool)
        | replace b with false by (symmetry; prove_bool)
        | let E := fresh "E" in destruct b eqn:E; bool_to_prop E ]
  end.

Ltac sym_step :=
  lazymatch goal with
  | |- returns_with (mret _) _ _ => apply returns_with_ret
  | |- returns_with (_ ≫= _) _ _ => apply returns_with_bind
  | |- returns_with (store_word _ _) _ _ => apply returns_with_store
  | |- returns_with (store_byte _ _) _ _ => apply returns_with_store
  | |- returns_with (load_word _) _ _ =>
      eapply returns_with_load; [simpl_wrap; read_through; reflexivity|]
  | |- returns_with (load_byte _) _ _ =>
      eapply returns_with_load; [simpl_wrap; read_through; reflexivity|]
  | |- returns_with (if _ then _ else _) _ _ => simpl_wrap; pick_branch
  | |- returns_with (let '(_, _) := ?x in _) _ _ => cbv beta iota
  end.

Lemma returns_with_value {A} (m : M A) (h h' : heap) (a : A) :
  returns_with m h (fun a' h'' => a' = a /\ h'' = h') -> m h = Ret (a, h').
Proof. intros (a' & h'' & Hm & -> & ->). exact Hm. Qed.

(** ** LinearAllocator *)

Section Linear.
Import LinearAllocator.

Lemma linear_padding_nonneg (this : t) (alignment : Z) :
  0 < alignment -> 0 <= padding_for this alignment < alignment.
Proof. intros Ha. unfold padding_for. apply bump_padding_range. exact Ha. Qed.

(** The failing path of [Allocate] returns before any assignment. *)
Lemma linear_Allocate_exhausted (this : t) (size alignment : Z) (h : heap) :
  alignment <> 0 ->
  newOffset_for this size alignment > m_bufferSize this ->
  Allocate this size alignment h = Ret ((nullptr, this), h).
Proof.
  intros Ha Hex. unfold Allocate.
  destruct (Z.eqb_spec alignment 0) as [?|_]; [contradiction|].
  destruct (Z.gtb_spec (newOffset_for this size alignment) (m_bufferSize this));
    [reflexivity | lia].
Qed.

Lemma linear_Allocate_fits (this : t) (size alignment : Z) (h : heap) :
  alignment <> 0 ->
  newOffset_for this size alignment <= m_bufferSize this ->
  Allocate this size alignment h =
    Ret ((m_buffer this + m_offset this + padding_for this alignment,
          {| m_buffer := m_buffer this;
             m_bufferSize := m_bufferSize this;
             m_offset := newOffset_for this size alignment;
             m_name := m_name this;
             m_threadSafe := m_threadSafe this;
             m_peakUsage := Z.max (m_peakUsage this) (newOffset_for this size alignment);
             m_allocationCount := wrap (m_allocationCount this + 1) |}), h).
Proof.
  intros Ha Hfit. unfold Allocate.
  destruct (Z.eqb_spec alignment 0) as [?|_]; [contradiction|].
  destruct (Z.gtb_spec (newOffset_for this size alignment) (m_bufferSize this));
    [lia | reflexivity].
Qed.

Lemma linear_Allocate_never_throws (this : t) (size alignment : Z) (h : heap) :
  ~ throws (Allocate this size alignment h).
Proof.
  unfold Allocate.
  destruct (alignment =? 0); [intros []|].
  destruct (newOffset_for this size alignment >? m_bufferSize this); intros [].
Qed.

Lemma linear_Allocate_returns (this : t) (size alignment : Z) (h : heap) :
  alignment <> 0 -> returns (Allocate this size alignment h).
Proof.
  intros Ha. unfold Allocate.
  destruct (Z.eqb_spec alignment 0) as [?|_]; [contradiction|].
  destruct (newOffset_for this size alignment >? m_bufferSize this); exact I.
Qed.

(** A null result can only come from the failing path. *)
Lemma linear_Allocate_null_inv (this this' : t) (size alignment : Z) (h h' : heap) :
  0 < alignment -> 0 < m_buffer this -> 0 <= m_offset this ->
  Allocate this size alignment h = Ret ((nullptr, this'), h') ->
  newOffset_for this size alignment > m_bufferSize this /\ this' = this /\ h' = h.
Proof.
  intros Ha Hb Ho. unfold Allocate.
  destruct (Z.eqb_spec alignment 0) as [?|_]; [lia|].
  destruct (Z.gtb_spec (newOffset_for this size alignment) (m_bufferSize this)) as [Hgt|Hle];
    run_monad; intros Heq; inversion Heq; subst.
  - repeat split. lia.
  - pose proof (linear_padding_nonneg this alignment Ha). unfold nullptr in *. lia.
Qed.

Lemma linear_GetAllocationSize_not_owned (this : t) (p : ptr) :
  Owns this p = false -> GetAllocationSize this p = 0.
Proof.
  unfold Owns, GetAllocationSize. intros Hown.
  destruct (Z.ltb_spec p (m_buffer this)); [reflexivity|].
  destruct (Z.geb_spec p (m_buffer this + m_offset this)); [reflexivity|].
  exfalso. revert Hown.
  destruct (Z.geb_spec p (m_buffer this)); [|lia].
  destruct (Z.ltb_spec p (m_buffer this + m_offset this)); [discriminate|lia].
Qed.

Lemma linear_Owns_iff (this : t) (p : ptr) :
  Owns this p = true <-> m_buffer this <= p < m_buffer this + m_offset this.
Proof.
  unfold Owns.
  destruct (Z.geb_spec p (m_buffer this));
    destruct (Z.ltb_spec p (m_buffer this + m_offset this)); simpl;
    split; intros; try discriminate; try reflexivity; lia.
Qed.

(** The returned address is aligned relative to the start of the buffer. *)
Lemma linear_Allocate_offset_aligned (this : t) (alignment : Z) :
  0 < alignment < 2 ^ SIZE_BITS ->
  (m_offset this + padding_for this alignment) mod alignment = 0.
Proof. intros Ha. unfold padding_for. apply bump_padding_aligns. exact Ha. Qed.

(** [Allocate] refuses a request that no aligned offset leaves room for,
    when the sum of offset, padding and size stays below [2^64]. *)
Lemma linear_Allocate_no_room (this : t) (size alignment : Z) (h : heap) :
  0 < alignment -> 0 <= size -> 0 <= m_offset this ->
  m_offset this + alignment + size < 2 ^ SIZE_BITS ->
  (forall o : Z,
     m_offset this <= o -> o mod alignment = 0 -> m_bufferSize this < o + size) ->
  Allocate this size alignment h = Ret ((nullptr, this), h).
Proof.
  intros Ha Hs Ho Hno Hroom.
  pose proof (linear_padding_nonneg this alignment Ha) as Hpad.
  apply linear_Allocate_exhausted; [lia|].
  unfold newOffset_for. rewrite wrap_small by (unfold size_t_range; lia).
  assert (m_bufferSize this < (m_offset this + padding_for this alignment) + size).
  { apply Hroom; [lia|]. apply linear_Allocate_offset_aligned. lia. }
  lia.
Qed.

Lemma linear_Allocate_nonnull_inv (this this' : LinearAllocator.t)
    (size alignment p : Z) (h h' : heap) :
  LinearAllocator.Allocate this size alignment h = Ret ((p, this'), h') ->
  p <> nullptr ->
  alignment <> 0
  /\ LinearAllocator.newOffset_for this size alignment
     <= LinearAllocator.m_bufferSize this
  /\ p = LinearAllocator.m_buffer this + LinearAllocator.m_offset this
         + LinearAllocator.padding_for this alignment
  /\ LinearAllocator.m_offset this' = LinearAllocator.newOffset_for this size alignment
  /\ LinearAllocator.m_buffer this' = LinearAllocator.m_buffer this
  /\ h' = h.
Proof.
  intros Heq Hp.
  destruct (Z.eqb_spec alignment 0) as [Ha|Ha].
  - unfold LinearAllocator.Allocate in Heq. subst alignment. discriminate.
  - destruct (Z.gtb_spec (LinearAllocator.newOffset_for this size alignment)
                (LinearAllocator.m_bufferSize this)) as [Hgt|Hle].
    + rewrite linear_Allocate_exhausted in Heq by lia.
      inversion Heq; subst. contradiction.
    + rewrite linear_Allocate_fits in Heq by lia.
      inversion Heq; subst. simpl. repeat split; auto.
Qed.

Lemma linear_Allocate_owned (this this' : LinearAllocator.t)
    (size alignment p : Z) (h h' : heap) :
  LinearAllocator.Allocate this size alignment h = Ret ((p, this'), h') ->
  p <> nullptr ->
  0 < alignment -> 0 < size -> 0 <= LinearAllocator.m_offset this ->
  size_t_range (LinearAllocator.m_offset this
                + LinearAllocator.padding_for this alignment + size) ->
  LinearAllocator.Owns this' p = true.
Proof.
  intros Heq Hp Ha Hs Ho Hno.
  destruct (linear_Allocate_nonnull_inv _ _ _ _ _ _ _ Heq Hp)
    as (_ & _ & -> & Ho' & Hb & _).
  pose proof (linear_padding_nonneg this alignment Ha).
  apply linear_Owns_iff. rewrite Ho', Hb.
  unfold LinearAllocator.newOffset_for. rewrite wrap_small by exact Hno. lia.
Qed.

End Linear.

(** ** StackAllocator *)

Section Stack.
Import StackAllocator.

Lemma stack_padding_range (this : t) (alignment : Z) :
  0 < alignment -> 0 <= padding_for this alignment < alignment.
Proof. intros Ha. unfold padding_for. apply bump_padding_range. exact Ha. Qed.

Lemma stack_Allocate_exhausted (this : t) (size alignment : Z) (h : heap) :
  alignment <> 0 ->
  newOffset_for this size alignment > m_bufferSize this ->
  Allocate this size alignment h = Ret ((nullptr, this), h).
Proof.
  intros Ha Hex. unfold Allocate.
  destruct (Z.eqb_spec alignment 0) as [?|_]; [contradiction|].
  destruct (Z.gtb_spec (newOffset_for this size alignment) (m_bufferSize this));
    [reflexivity | lia].
Qed.

Lemma stack_Allocate_fits (this : t) (size alignment : Z) (h : heap) :
  alignment <> 0 ->
  newOffset_for this size alignment <= m_bufferSize this ->
  Allocate this size alignment h =
    Ret ((m_buffer this + m_offset this + sizeof_AllocationHeader
            + padding_for this alignment,
          {| m_buffer := m_buffer this;
             m_bufferSize := m_bufferSize this;
             m_offset := newOffset_for this size alignment;
             m_name := m_name this;
             m_threadSafe := m_threadSafe this;
             m_peakUsage := Z.max (m_peakUsage this) (newOffset_for this size alignment);
             m_allocationCount := wrap (m_allocationCount this + 1);
             m_markers := m_markers this |}),
         header_written this size alignment h).
Proof.
  intros Ha Hfit. unfold Allocate.
  destruct (Z.eqb_spec alignment 0) as [?|_]; [contradiction|].
  destruct (Z.gtb_spec (newOffset_for this size alignment) (m_bufferSize this));
    [lia | reflexivity].
Qed.

Lemma stack_Allocate_never_throws (this : t) (size alignment : Z) (h : heap) :
  ~ throws (Allocate this size alignment h).
Proof.
  unfold Allocate.
  destruct (alignment =? 0); [intros []|].
  destruct (newOffset_for this size alignment >? m_bufferSize this); intros [].
Qed.

Lemma stack_Allocate_null_inv (this this' : t) (size alignment : Z) (h h' : heap) :
  0 < alignment -> 0 < m_buffer this -> 0 <= m_offset this ->
  Allocate this size alignment h = Ret ((nullptr, this'), h') ->
  newOffset_for this size alignment > m_bufferSize this /\ this' = this /\ h' = h.
Proof.
  intros Ha Hb Ho Heq.
  destruct (Z.gtb_spec (newOffset_for this size alignment) (m_bufferSize this)) as [Hgt|Hle].
  - rewrite stack_Allocate_exhausted in Heq by lia.
    inversion Heq; subst. repeat split. lia.
  - rewrite stack_Allocate_fits in Heq by lia.
    inversion Heq as [[Hp Hthis Hh]].
    pose proof (stack_padding_range this alignment Ha).
    unfold nullptr, sizeof_AllocationHeader, sizeof_size_t in *. lia.
Qed.

(** A non-null result can only come from the successful path. *)
Lemma stack_Allocate_nonnull_inv (this this' : t) (size alignment p : Z) (h h' : heap) :
  Allocate this size alignment h = Ret ((p, this'), h') ->
  p <> nullptr ->
  alignment <> 0
  /\ newOffset_for this size alignment <= m_bufferSize this
  /\ p = m_buffer this + m_offset this + sizeof_AllocationHeader
         + padding_for this alignment
  /\ m_offset this' = newOffset_for this size alignment
  /\ m_buffer this' = m_buffer this
  /\ m_bufferSize this' = m_bufferSize this
  /\ m_markers this' = m_markers this
  /\ h' = header_written this size alignment h.
Proof.
  intros Heq Hp.
  destruct (Z.eqb_spec alignment 0) as [Ha|Ha].
  - unfold Allocate in Heq. subst alignment. discriminate.
  - destruct (Z.gtb_spec (newOffset_for this size alignment) (m_bufferSize this)) as [Hgt|Hle].
    + rewrite stack_Allocate_exhausted in Heq by lia.
      inversion Heq; subst. contradiction.
    + rewrite stack_Allocate_fits in Heq by lia.
      inversion Heq; subst. simpl. repeat split; auto.
Qed.

(** Without wrap-around the new offset is the old one plus header,
    padding and size. *)
Lemma stack_newOffset_exact (this : t) (size alignment : Z) :
  0 <= m_offset this -> 0 <= size -> 0 < alignment ->
  m_offset this + size + alignment + sizeof_AllocationHeader < 2 ^ SIZE_BITS ->
  newOffset_for this size alignment =
    m_offset this + sizeof_AllocationHeader + padding_for this alignment + size.
Proof.
  intros Ho Hs Ha Hno.
  pose proof (stack_padding_range this alignment Ha) as Hp.
  unfold newOffset_for.
  assert (H16 : sizeof_AllocationHeader = 16) by reflexivity.
  rewrite (wrap_small (size + _)) by (unfold size_t_range; lia).
  rewrite wrap_small by (unfold size_t_range; lia).
  lia.
Qed.

(** The returned address is aligned relative to the start of the buffer. *)
Lemma stack_Allocate_offset_aligned (this : t) (alignment : Z) :
  0 < alignment < 2 ^ SIZE_BITS ->
  0 <= m_offset this ->
  m_offset this + sizeof_AllocationHeader < 2 ^ SIZE_BITS ->
  (m_offset this + sizeof_AllocationHeader + padding_for this alignment)
    mod alignment = 0.
Proof.
  intros Ha Ho Hno. unfold padding_for.
  assert (H16 : sizeof_AllocationHeader = 16) by reflexivity.
  rewrite (wrap_small (m_offset this + _)) by (unfold size_t_range; lia).
  apply bump_padding_aligns. exact Ha.
Qed.

(** [Allocate] refuses a request that no aligned offset after the header
    leaves room for, when the sum of offset, header, padding and size stays
    below [2^64]. *)
Lemma stack_Allocate_no_room (this : t) (size alignment : Z) (h : heap) :
  0 < alignment -> 0 <= size -> 0 <= m_offset this ->
  m_offset this + sizeof_AllocationHeader + alignment + size < 2 ^ SIZE_BITS ->
  (forall o : Z,
     m_offset this + sizeof_AllocationHeader <= o -> o mod alignment = 0 ->
     m_bufferSize this < o + size) ->
  Allocate this size alignment h = Ret ((nullptr, this), h).
Proof.
  intros Ha Hs Ho Hno Hroom.
  assert (H16 : sizeof_AllocationHeader = 16) by reflexivity.
  pose proof (stack_padding_range this alignment Ha) as Hpad.
  apply stack_Allocate_exhausted; [lia|].
  rewrite stack_newOffset_exact by lia.
  assert (m_bufferSize this
          < (m_offset this + sizeof_AllocationHeader + padding_for this alignment) + size).
  { apply Hroom; [lia|]. apply stack_Allocate_offset_aligned; lia. }
  lia.
Qed.

Lemma stack_Owns_iff (this : t) (p : ptr) :
  Owns this p = true <-> m_buffer this <= p < m_buffer this + m_offset this.
Proof.
  unfold Owns.
  destruct (Z.geb_spec p (m_buffer this));
    destruct (Z.ltb_spec p (m_buffer this + m_offset this)); simpl;
    split; intros; try discriminate; try reflexivity; lia.
Qed.

Lemma stack_GetAllocationSize_not_owned (this : t) (p : ptr) (h : heap) :
  Owns this p = false -> GetAllocationSize this p h = Ret (0, h).
Proof. intros Hown. unfold GetAllocationSize. rewrite Hown. reflexivity. Qed.

(** The size stored by [Allocate] is the one [GetAllocationSize] reads. *)
Lemma stack_GetAllocationSize_after_Allocate
    (this this' : t) (size alignment p : Z) (h h' : heap) :
  size_t_range size ->
  Allocate this size alignment h = Ret ((p, this'), h') ->
  p <> nullptr ->
  Owns this' p = true ->
  GetAllocationSize this' p h' = Ret (size, h').
Proof.
  intros Hs Heq Hp Hown.
  destruct (stack_Allocate_nonnull_inv _ _ _ _ _ _ _ Heq Hp)
    as (Ha & Hfit & -> & Ho & Hb & Hbs & Hm & ->).
  unfold GetAllocationSize. rewrite Hown. simpl.
  run_monad. unfold header_written.
  replace (m_buffer this + m_offset this + sizeof_AllocationHeader
           + padding_for this alignment - sizeof_AllocationHeader + offsetof_size)
    with (m_buffer this + m_offset this + padding_for this alignment) by
    (unfold sizeof_AllocationHeader, offsetof_size; lia).
  replace (m_buffer this + m_offset this + sizeof_AllocationHeader
           + padding_for this alignment - sizeof_AllocationHeader + offsetof_adjustment)
    with (m_buffer this + m_offset this + padding_for this alignment + 8) by
    (unfold sizeof_AllocationHeader, offsetof_adjustment, sizeof_size_t; lia).
  rewrite read_le_write_le_other by (unfold word_bytes; lia).
  rewrite read_word_write_word by exact Hs.
  reflexivity.
Qed.




Lemma stack_Allocate_owned (this this' : StackAllocator.t)
    (size alignment p : Z) (h h' : heap) :
  StackAllocator.Allocate this size alignment h = Ret ((p, this'), h') ->
  p <> nullptr ->
  0 < alignment -> 0 < size -> 0 <= StackAllocator.m_offset this ->
  StackAllocator.m_offset this + size + alignment
    + StackAllocator.sizeof_AllocationHeader < 2 ^ SIZE_BITS ->
  StackAllocator.Owns this' p = true.
Proof.
  intros Heq Hp Ha Hs Ho Hno.
  destruct (stack_Allocate_nonnull_inv _ _ _ _ _ _ _ Heq Hp)
    as (_ & _ & -> & Ho' & Hb & _).
  pose proof (stack_padding_range this alignment Ha).
  apply stack_Owns_iff. rewrite Ho', Hb.
  rewrite stack_newOffset_exact by lia.
  assert (H16 : StackAllocator.sizeof_AllocationHeader = 16) by reflexivity.
  lia.
Qed.

End Stack.

(** ** PoolAllocator *)

Section Pool.
Import PoolAllocator.

(** [findPool] picks the first pool in declared order that admits the
    size. *)
Lemma findPool_from_first (before : list Pool) :
  forall (pool : Pool) (after : list Pool) (i : nat) (size : Z),
  Forall (fun q => blockSize q < size) before ->
  size <= blockSize pool ->
  findPool_from (before ++ pool :: after) i size = Some (i + length before)%nat.
Proof.
  induction before as [|q before IH]; intros pool after i size Hsmall Hfit; simpl.
  - destruct (Z.leb_spec size (blockSize pool)); [|lia].
    f_equal. lia.
  - inversion Hsmall as [|? ? Hq Hrest]; subst.
    destruct (Z.leb_spec size (blockSize q)); [lia|].
    rewrite IH by assumption. f_equal. lia.
Qed.

Lemma findPool_from_None (ps : list Pool) :
  forall (i : nat) (size : Z),
  findPool_from ps i size = None <-> Forall (fun q => blockSize q < size) ps.
Proof.
  induction ps as [|q ps IH]; intros i size; simpl.
  - split; [constructor | reflexivity].
  - destruct (Z.leb_spec size (blockSize q)) as [Hle|Hlt].
    + split; [discriminate|]. intros HF. inversion HF; subst. lia.
    + rewrite IH. split.
      * intros HF. constructor; assumption.
      * intros HF. inversion HF; assumption.
Qed.

Lemma findPool_from_Some (ps : list Pool) :
  forall (i j : nat) (size : Z),
  findPool_from ps i size = Some j ->
  exists before pool after,
    ps = before ++ pool :: after
    /\ j = (i + length before)%nat
    /\ Forall (fun q => blockSize q < size) before
    /\ size <= blockSize pool.
Proof.
  induction ps as [|q ps IH]; intros i j size Hfind; simpl in Hfind.
  - discriminate.
  - destruct (Z.leb_spec size (blockSize q)) as [Hle|Hlt].
    + inversion Hfind; subst. exists [], q, ps. simpl.
      repeat split; [lia | constructor | exact Hle].
    + destruct (IH _ _ _ Hfind) as (before & pool & after & -> & -> & HF & Hfit).
      exists (q :: before), pool, after. simpl.
      repeat split; [lia | constructor; assumption | exact Hfit].
Qed.

(** A request larger than every class leaves [Allocate] by the exception of
    [findPool]. *)
Lemma pool_Allocate_no_class (this : t) (size alignment : Z) (h : heap) :
  Forall (fun q => blockSize q < size) (pools this) ->
  Allocate this size alignment h = Throw (runtime_error "No suitable pool found").
Proof.
  intros HF. unfold Allocate, findPool.
  apply (findPool_from_None _ 0%nat) in HF. rewrite HF. reflexivity.
Qed.

Lemma pool_Allocate_throws_inv (this : t) (size alignment : Z) (h : heap) :
  throws (Allocate this size alignment h) ->
  Forall (fun q => blockSize q < size) (pools this).
Proof.
  unfold Allocate, findPool. intros Hthrow.
  destruct (findPool_from (pools this) 0 size) as [i|] eqn:Hfind.
  - exfalso. run_monad.
    destruct (pools this !! i) as [pool|]; [|exact Hthrow].
    destruct (freeList pool =? nullptr); [exact Hthrow|].
    destruct (Mem.read_le h word_bytes (freeList pool + offsetof_next));
      exact Hthrow.
  - apply (findPool_from_None _ 0%nat). exact Hfind.
Qed.

Lemma pool_Allocate_class_empty (this : t) (before after : list Pool) (pool : Pool)
    (size alignment : Z) (h : heap) :
  pools this = before ++ pool :: after ->
  Forall (fun q => blockSize q < size) before ->
  size <= blockSize pool ->
  freeList pool = nullptr ->
  Allocate this size alignment h = Ret ((nullptr, this), h).
Proof.
  intros Hps Hsmall Hfit Hempty. unfold Allocate, findPool.
  rewrite Hps, (findPool_from_first before pool after 0 size Hsmall Hfit).
  run_monad. cbn [Nat.add].
  rewrite list_lookup_middle by reflexivity.
  rewrite Hempty. reflexivity.
Qed.

Lemma pool_Allocate_class_pop (this : t) (before after : list Pool) (pool : Pool)
    (size alignment next : Z) (h : heap) :
  pools this = before ++ pool :: after ->
  Forall (fun q => blockSize q < size) before ->
  size <= blockSize pool ->
  freeList pool <> nullptr ->
  Mem.read_le h word_bytes (freeList pool + offsetof_next) = Some next ->
  Allocate this size alignment h =
    Ret ((freeList pool,
          {| pools := before ++ set_freeList pool next :: after;
             totalAllocated := wrap (totalAllocated this + blockSize pool);
             peakUsage := Z.max (peakUsage this)
                                (wrap (totalAllocated this + blockSize pool));
             allocationCount := wrap (allocationCount this + 1);
             name := name this; threadSafe := threadSafe this |}), h).
Proof.
  intros Hps Hsmall Hfit Hhead Hnext. unfold Allocate, findPool.
  rewrite Hps, (findPool_from_first before pool after 0 size Hsmall Hfit).
  run_monad. cbn [Nat.add].
  rewrite list_lookup_middle by reflexivity.
  destruct (Z.eqb_spec (freeList pool) nullptr) as [?|_]; [contradiction|].
  rewrite Hnext.
  rewrite insert_app_r_alt, Nat.sub_diag by lia.
  reflexivity.
Qed.

Lemma pool_GetAllocationSize_not_owned (this : t) (p : ptr) :
  Owns this p = false -> GetAllocationSize this p = 0.
Proof.
  unfold Owns, GetAllocationSize.
  induction (pools this) as [|pool ps IH]; simpl; [reflexivity|].
  destruct (in_pool pool p); [discriminate | exact IH].
Qed.

(** For an owned pointer [GetAllocationSize] is the block size of the first
    pool whose address range holds it. *)
Lemma pool_GetAllocationSize_owned (this : t) (p : ptr) :
  Owns this p = true ->
  exists before pool after,
    pools this = before ++ pool :: after
    /\ Forall (fun q => in_pool q p = false) before
    /\ in_pool pool p = true
    /\ GetAllocationSize this p = blockSize pool.
Proof.
  unfold Owns, GetAllocationSize.
  induction (pools this) as [|pool ps IH]; simpl; [discriminate|].
  destruct (in_pool pool p) eqn:Hin; intros Hown.
  - exists [], pool, ps. repeat split; [constructor | exact Hin].
  - destruct (IH Hown) as (before & q & after & -> & HF & Hq & Hsz).
    exists (pool :: before), q, after. repeat split; try assumption.
    constructor; assumption.
Qed.

Lemma pool_Reset_keeps_peak (this this' : t) (h h' : heap) :
  Reset this h = Ret (this', h') ->
  peakUsage this' = peakUsage this
  /\ totalAllocated this' = 0 /\ allocationCount this' = 0.
Proof.
  unfold Reset. run_monad.
  destruct (Reset_pools (pools this) h) as [[ps h1]| | |]; try discriminate.
  intros Heq. inversion Heq; subst. simpl. repeat split.
Qed.

Lemma pool_Owns_from_in_pool (ps : list PoolAllocator.Pool) (pool : PoolAllocator.Pool)
    (p : ptr) :
  pool ∈ ps -> PoolAllocator.in_pool pool p = true ->
  PoolAllocator.Owns_from ps p = true.
Proof.
  induction ps as [|q ps IH]; intros Hin Hp.
  - inversion Hin.
  - simpl. destruct (PoolAllocator.in_pool q p) eqn:Hq; [reflexivity|].
    apply IH; [|exact Hp].
    inversion Hin; subst; [congruence | assumption].
Qed.

End Pool.

Lemma pool_thread_blocks_returns (n : nat) :
  forall (start blockSize i : Z) (head : ptr) (h : heap),
  exists (head' : ptr) (h' : heap),
    PoolAllocator.thread_blocks n start blockSize i head h = Ret (head', h').
Proof.
  induction n as [|n IH]; intros start blockSize i head h;
    cbn [PoolAllocator.thread_blocks].
  - eexists _, _. reflexivity.
  - run_monad. apply IH.
Qed.

Lemma pool_Reset_pools_returns (ps : list PoolAllocator.Pool) :
  forall h : heap,
  exists (ps' : list PoolAllocator.Pool) (h' : heap),
    PoolAllocator.Reset_pools ps h = Ret (ps', h').
Proof.
  induction ps as [|pool ps IH]; intros h; cbn [PoolAllocator.Reset_pools].
  - eexists _, _. reflexivity.
  - destruct (pool_thread_blocks_returns (Z.to_nat (PoolAllocator.blockCount pool))
                (PoolAllocator.memory pool) (PoolAllocator.blockSize pool) 0 nullptr h)
      as (head & h1 & Hthread).
    destruct (IH h1) as (ps' & h2 & Hrest).
    run_monad. rewrite Hthread, Hrest. eexists _, _. reflexivity.
Qed.

(** ** The invariant of the pool allocator *)

Section PoolInvariant.
Import PoolAllocator.

Lemma same_slab_set_freeList (pool : Pool) (head : ptr) :
  same_slab pool (set_freeList pool head).
Proof. repeat split. Qed.

Lemma same_slab_refl (pool : Pool) : same_slab pool pool.
Proof. repeat split. Qed.

Lemma same_slabs_middle (before after : list Pool) (pool : Pool) (head : ptr) :
  Forall2 same_slab (before ++ pool :: after)
          (before ++ set_freeList pool head :: after).
Proof.
  apply Forall2_app.
  - apply Forall_Forall2_diag, Forall_forall. intros ? _. apply same_slab_refl.
  - constructor; [apply same_slab_set_freeList|].
    apply Forall_Forall2_diag, Forall_forall. intros ? _. apply same_slab_refl.
Qed.

Lemma geometry_same_slab (p q : Pool) : same_slab p q -> geometry p -> geometry q.
Proof. intros (Hm & Hs & Hc). unfold geometry. rewrite Hm, Hs, Hc. auto. Qed.

Lemma disjoint_same_slab (p p' q q' : Pool) :
  same_slab p p' -> same_slab q q' -> disjoint p q -> disjoint p' q'.
Proof.
  intros (Hm & Hs & Hc) (Hm' & Hs' & Hc'). unfold disjoint.
  rewrite Hm, Hs, Hc, Hm', Hs', Hc'. auto.
Qed.

Lemma geometry_same_slabs (ps ps' : list Pool) :
  Forall2 same_slab ps ps' -> Forall geometry ps -> Forall geometry ps'.
Proof.
  induction 1 as [|p p' ps ps' Hp Hps IH]; intros HF; [constructor|].
  inversion HF; subst. constructor; [eapply geometry_same_slab; eauto | auto].
Qed.

Lemma pairwise_disjoint_same_slabs (ps ps' : list Pool) :
  Forall2 same_slab ps ps' -> pairwise_disjoint ps -> pairwise_disjoint ps'.
Proof.
  induction 1 as [|p p' ps ps' Hp Hps IH]; intros Hd; [exact I|].
  destruct Hd as [Hhead Htail]. split; [|auto].
  clear IH Htail. induction Hps as [|q q' qs qs' Hq Hqs IHq]; [constructor|].
  inversion Hhead; subst.
  constructor; [eapply disjoint_same_slab; eauto | auto].
Qed.

Lemma is_block_same_slab (p q : Pool) (b : ptr) :
  same_slab p q -> is_block p b -> is_block q b.
Proof.
  intros (Hm & Hs & Hc) (k & Hk & ->). exists k. rewrite <- Hm, <- Hs, <- Hc. auto.
Qed.

Lemma free_chain_same_slab (h : heap) (p q : Pool) (b : ptr) :
  same_slab p q -> free_chain h p b -> free_chain h q b.
Proof.
  intros Hpq. induction 1 as [|b next Hb Hblock Hread Hchain IH].
  - constructor.
  - econstructor; eauto using is_block_same_slab.
Qed.

(** A block of a pool lies in the address range that [Owns] tests. *)
Lemma is_block_in_pool (pool : Pool) (b : ptr) :
  geometry pool -> is_block pool b -> in_pool pool b = true.
Proof.
  intros (Hm & Hbs & Hcnt & Hno) (k & Hk & ->). unfold in_pool.
  assert (H8 : sizeof_pointer = 8) by reflexivity.
  rewrite wrap_small by (unfold size_t_range; nia).
  apply andb_true_intro. split.
  - apply Z.geb_le. nia.
  - apply Z.ltb_lt. nia.
Qed.

(** [Allocate] pops the head of a well-formed chain: the address it returns
    is a block of the chosen pool, so it is owned, and the state stays well
    formed. *)
Lemma pool_Allocate_owned (this this' : PoolAllocator.t)
    (size alignment p : Z) (h h' : heap) :
  well_formed this h ->
  Allocate this size alignment h = Ret ((p, this'), h') ->
  p <> nullptr ->
  Owns this' p = true /\ well_formed this' h'.
Proof.
  intros (Hgeo & Hdis & Hwf) Heq Hp.
  unfold Allocate, findPool in Heq.
  destruct (findPool_from (pools this) 0 size) as [i|] eqn:Hfind; [|discriminate].
  destruct (findPool_from_Some _ _ _ _ Hfind)
    as (before & pool & after & Hps & -> & Hsmall & Hfit).
  run_monad. cbn [Nat.add] in Heq. rewrite Hps in Heq.
  rewrite list_lookup_middle in Heq by reflexivity.
  destruct (Z.eqb_spec (freeList pool) nullptr) as [Hnull|Hhead].
  { inversion Heq; subst. contradiction. }
  destruct (Mem.read_le h word_bytes (freeList pool + offsetof_next))
    as [next|] eqn:Hread; [|discriminate].
  rewrite insert_app_r_alt, Nat.sub_diag in Heq by lia.
  inversion Heq; subst p this' h'. clear Heq.
  rewrite Hps in Hgeo, Hdis, Hwf.
  pose proof (same_slabs_middle before after pool next) as Hsame.
  assert (Hpool : geometry pool /\ free_chain h pool (freeList pool)).
  { apply Forall_app in Hgeo, Hwf. destruct Hgeo as [_ Hgeo], Hwf as [_ Hwf].
    inversion Hgeo; inversion Hwf; subst. split; assumption. }
  destruct Hpool as [Hg Hchain].
  inversion Hchain as [Hz|b next' Hb Hblock Hread' Htail]; subst.
  { congruence. }
  rewrite Hread in Hread'. inversion Hread'; subst next'.
  split.
  - unfold Owns. cbn [pools].
    apply (pool_Owns_from_in_pool _ (set_freeList pool next)).
    + apply elem_of_app. right. left.
    + unfold in_pool. cbn [set_freeList memory blockSize blockCount].
      apply (is_block_in_pool pool); assumption.
  - unfold well_formed. cbn [pools].
    split; [eapply geometry_same_slabs; eassumption|].
    split; [eapply pairwise_disjoint_same_slabs; eassumption|].
    apply Forall_app in Hwf. destruct Hwf as [Hwf1 Hwf2].
    inversion Hwf2 as [|? ? _ Hwf3]; subst.
    apply Forall_app. split; [exact Hwf1|].
    constructor; [|exact Hwf3].
    cbn [set_freeList freeList].
    eapply free_chain_same_slab; [apply same_slab_set_freeList | exact Htail].
Qed.

End PoolInvariant.

Section PoolConstructor.
Import PoolAllocator.
#[local] Opaque Mem.write_le Mem.read_le.

Lemma free_chain_head_range (h : heap) (pool : Pool) (b : ptr) :
  geometry pool -> free_chain h pool b -> size_t_range b.
Proof.
  intros (Hm & Hbs & Hcnt & Hno) Hchain. unfold size_t_range.
  assert (H8 : sizeof_pointer = 8) by reflexivity.
  destruct Hchain as [|b next Hb (k & Hk & ->) _ _].
  - unfold nullptr. split; [lia | apply Z.pow_pos_nonneg; unfold SIZE_BITS; lia].
  - nia.
Qed.

(** A chain only depends on the bytes of its pool's slab. *)
Lemma free_chain_frame (h h' : heap) (pool : Pool) (b : ptr) :
  geometry pool ->
  free_chain h pool b ->
  (forall a, memory pool <= a < memory pool + blockSize pool * blockCount pool ->
             h' !! a = h !! a) ->
  free_chain h' pool b.
Proof.
  intros (Hm & Hbs & Hcnt & Hno) Hchain Hframe.
  assert (H8 : sizeof_pointer = 8) by reflexivity.
  induction Hchain as [|b next Hb Hblock Hread Hchain IH]; [constructor|].
  econstructor; eauto.
  rewrite <- Hread. apply read_le_ext. intros a Ha. apply Hframe.
  destruct Hblock as (k & Hk & ->).
  unfold offsetof_next in Ha. change (Z.of_nat word_bytes) with 8 in Ha. nia.
Qed.

(** A chain through the first [i] blocks of a slab is a chain through its
    first [j >= i] blocks. *)
Lemma free_chain_more_blocks (h : heap) (start bs i j : Z) (f f' b : ptr) :
  i <= j ->
  free_chain h (BuildPool start bs i f) b ->
  free_chain h (BuildPool start bs j f') b.
Proof.
  intros Hij. induction 1 as [|b next Hb (k & Hk & Hbk) Hread Hchain IH];
    [constructor|].
  econstructor; eauto. exists k. simpl in *. split; [lia | exact Hbk].
Qed.

(** The loop that threads a slab: started at block [i] with a chain through
    the blocks before it, it ends with a chain through the first [i + n]
    blocks, and writes only inside the blocks [i .. i + n). *)
Lemma pool_thread_blocks_spec (n : nat) :
  forall (start bs cnt i : Z) (head : ptr) (h : heap),
  0 < start -> sizeof_pointer <= bs -> 0 <= i -> i + Z.of_nat n <= cnt ->
  start + bs * cnt < 2 ^ SIZE_BITS ->
  free_chain h (BuildPool start bs i nullptr) head ->
  exists (head' : ptr) (h' : heap),
    thread_blocks n start bs i head h = Ret (head', h')
    /\ free_chain h' (BuildPool start bs (i + Z.of_nat n) nullptr) head'
    /\ (forall a, a < start + bs * i \/ start + bs * (i + Z.of_nat n) <= a ->
                  h' !! a = h !! a).
Proof.
  assert (H8 : sizeof_pointer = 8) by reflexivity.
  induction n as [|n IH]; intros start bs cnt i head h Hs Hbs Hi Hcnt Hno Hchain.
  - exists head, h. split; [reflexivity|]. split; [|reflexivity].
    rewrite Z.add_0_r. exact Hchain.
  - cbn [thread_blocks]. run_monad.
    rewrite Nat2Z.inj_succ in *.
    assert (Hwrap : wrap (i * bs) = i * bs)
      by (apply wrap_small; unfold size_t_range; nia).
    rewrite Hwrap.
    set (block := start + i * bs) in *.
    set (h1 := Mem.write_le h word_bytes (block + offsetof_next) head).
    assert (Hgeo : geometry (BuildPool start bs i nullptr)).
    { unfold geometry. simpl. repeat split; try lia. nia. }
    assert (Hchain1 : free_chain h1 (BuildPool start bs (i + 1) nullptr) block).
    { apply (free_chain_block _ _ block head).
      - unfold block, nullptr. nia.
      - exists i. simpl. split; [lia | reflexivity].
      - unfold h1. apply read_word_write_word.
        eapply free_chain_head_range; eassumption.
      - apply (free_chain_more_blocks _ _ _ i (i + 1) nullptr); [lia|].
        apply (free_chain_frame h); [exact Hgeo | exact Hchain |].
        simpl. intros a Ha. unfold h1. apply write_le_lookup_other.
        unfold block, offsetof_next. change (Z.of_nat word_bytes) with 8. nia. }
    destruct (IH start bs cnt (i + 1) block h1 Hs Hbs ltac:(lia) ltac:(lia) Hno Hchain1)
      as (head' & h' & Hrun & Hchain' & Hframe).
    exists head', h'. split; [exact Hrun|]. split.
    + replace (i + Z.succ (Z.of_nat n)) with (i + 1 + Z.of_nat n) by lia.
      exact Hchain'.
    + intros a Ha. rewrite Hframe by nia.
      unfold h1. apply write_le_lookup_other.
      unfold block, offsetof_next. change (Z.of_nat word_bytes) with 8. nia.
Qed.

Lemma pool_Reset_pools_spec (ps : list Pool) :
  forall h : heap,
  Forall geometry ps -> pairwise_disjoint ps ->
  exists (ps' : list Pool) (h' : heap),
    Reset_pools ps h = Ret (ps', h')
    /\ Forall2 same_slab ps ps'
    /\ Forall (fun pool => free_chain h' pool (freeList pool)) ps'
    /\ (forall a, outside_slabs ps a -> h' !! a = h !! a).
Proof.
  assert (H8 : sizeof_pointer = 8) by reflexivity.
  induction ps as [|pool ps IH]; intros h Hgeo Hdis.
  - exists [], h. repeat split; constructor.
  - inversion Hgeo as [|? ? Hg Hgeo']; subst.
    destruct Hdis as [Hhead Hdis'].
    destruct Hg as (Hm & Hbs & Hcnt & Hno).
    destruct (pool_thread_blocks_spec (Z.to_nat (blockCount pool)) (memory pool)
                (blockSize pool) (blockCount pool) 0 nullptr h)
      as (head & h1 & Hthread & Hchain & Hframe1); try lia.
    { constructor. }
    rewrite Z2Nat.id, Z.add_0_l in Hchain by lia.
    destruct (IH h1 Hgeo' Hdis') as (ps' & h2 & Hrest & Hsame & Hchains & Hframe2).
    exists (set_freeList pool head :: ps'), h2.
    split; [|split; [|split]].
    + cbn [Reset_pools]. run_monad. rewrite Hthread, Hrest. reflexivity.
    + constructor; [apply same_slab_set_freeList | exact Hsame].
    + constructor; [|exact Hchains].
      cbn [set_freeList freeList].
      apply (free_chain_same_slab _ (BuildPool (memory pool) (blockSize pool)
                                       (blockCount pool) nullptr));
        [repeat split|].
      apply (free_chain_frame h1);
        [repeat split; cbn [memory blockSize blockCount]; lia | exact Hchain |].
      simpl. intros a Ha. apply Hframe2.
      unfold outside_slabs. eapply Forall_impl; [exact Hhead|].
      intros q Hq. unfold disjoint in Hq. cbv beta. lia.
    + intros a Ha. inversion Ha as [|? ? Hout Hrest']; subst.
      rewrite Hframe2 by exact Hrest'.
      apply Hframe1. rewrite Z2Nat.id by lia. lia.
Qed.

(** With every [malloc] returning a non-null address, the constructor's
    loop is the loop of [Reset] over the slabs. *)
Lemma pool_create_pools_as_Reset (poolConfigs : list (Z * Z)) :
  forall (mallocs : list ptr) (h : heap),
  Forall geometry (slabs poolConfigs mallocs) ->
  create_pools poolConfigs mallocs h = Reset_pools (slabs poolConfigs mallocs) h.
Proof.
  induction poolConfigs as [|[bs cnt] configs IH]; intros mallocs h Hgeo;
    [reflexivity|].
  cbn [create_pools slabs Reset_pools] in *.
  inversion Hgeo as [|? ? (Hm & _) Hgeo']; subst. cbn [memory] in Hm.
  destruct mallocs as [|m ms]; [unfold nullptr in Hm; lia|].
  destruct (Z.eqb_spec m nullptr) as [Hz|_]; [unfold nullptr in Hz; lia|].
  run_monad. cbn [set_freeList memory blockSize blockCount tail].
  destruct (thread_blocks (Z.to_nat cnt) m bs 0 nullptr h) as [[head h1]| | |];
    try reflexivity.
  rewrite IH by exact Hgeo'. reflexivity.
Qed.

(** The constructor returns a well-formed allocator when the slabs that
    [malloc] hands out are sound and apart. *)
Lemma pool_create_well_formed (poolConfigs : list (Z * Z)) (mallocs : list ptr)
    (h : heap) :
  Forall geometry (slabs poolConfigs mallocs) ->
  pairwise_disjoint (slabs poolConfigs mallocs) ->
  exists (this : t) (h' : heap),
    create poolConfigs mallocs h = Ret (this, h')
    /\ well_formed this h'
    /\ Forall2 same_slab (slabs poolConfigs mallocs) (pools this).
Proof.
  intros Hgeo Hdis.
  destruct (pool_Reset_pools_spec _ h Hgeo Hdis)
    as (ps & h' & Hrun & Hsame & Hchains & _).
  eexists _, h'. split.
  - unfold create. run_monad.
    rewrite pool_create_pools_as_Reset, Hrun by exact Hgeo. reflexivity.
  - cbn [pools]. split; [|exact Hsame].
    split; [eapply geometry_same_slabs; eassumption|].
    split; [eapply pairwise_disjoint_same_slabs; eassumption | exact Hchains].
Qed.

(** [Reset] returns a well-formed allocator with the same slabs. *)
Lemma pool_Reset_well_formed (this : t) (h : heap) :
  Forall geometry (pools this) ->
  pairwise_disjoint (pools this) ->
  exists (this' : t) (h' : heap),
    Reset this h = Ret (this', h') /\ well_formed this' h'.
Proof.
  intros Hgeo Hdis.
  destruct (pool_Reset_pools_spec _ h Hgeo Hdis)
    as (ps & h' & Hrun & Hsame & Hchains & _).
  eexists _, h'. split.
  - unfold Reset. run_monad. rewrite Hrun. reflexivity.
  - cbn [pools].
    split; [eapply geometry_same_slabs; eassumption|].
    split; [eapply pairwise_disjoint_same_slabs; eassumption | exact Hchains].
Qed.

End PoolConstructor.

Section PoolFree.
Import PoolAllocator.
#[local] Opaque Mem.write_le Mem.read_le.

(** Writing the link of a block that is not on a chain leaves the chain as
    it is. *)
Lemma free_chain_write_off_chain (h : heap) (pool : Pool) (b p v : Z) :
  geometry pool ->
  is_block pool p ->
  free_chain h pool b ->
  ~ on_chain h b p ->
  free_chain (Mem.write_le h word_bytes (p + offsetof_next) v) pool b.
Proof.
  intros (Hm & Hbs & Hcnt & Hno) (kp & Hkp & ->) Hchain.
  assert (H8 : sizeof_pointer = 8) by reflexivity.
  induction Hchain as [|b next Hb Hblock Hread Hchain IH]; intros Hoff;
    [constructor|].
  econstructor; eauto.
  - rewrite read_le_write_le_other; [exact Hread|].
    destruct Hblock as (k & Hk & ->).
    assert (k <> kp).
    { intros ->. apply Hoff. constructor. exact Hb. }
    unfold offsetof_next. change (Z.of_nat word_bytes) with 8. nia.
  - apply IH. intros Hon. apply Hoff. econstructor; eassumption.
Qed.

Lemma pool_in_pool_iff (pool : Pool) (p : ptr) :
  geometry pool ->
  in_pool pool p = true
  <-> memory pool <= p < memory pool + blockSize pool * blockCount pool.
Proof.
  intros (Hm & Hbs & Hcnt & Hno). unfold in_pool.
  assert (H8 : sizeof_pointer = 8) by reflexivity.
  rewrite wrap_small by (unfold size_t_range; nia).
  rewrite andb_true_iff, Z.geb_le, Z.ltb_lt. reflexivity.
Qed.

Lemma is_block_slab (pool : Pool) (p : ptr) :
  geometry pool -> is_block pool p ->
  memory pool <= p /\ p + sizeof_pointer <= memory pool + blockSize pool * blockCount pool.
Proof.
  intros (Hm & Hbs & Hcnt & Hno) (k & Hk & ->).
  assert (H8 : sizeof_pointer = 8) by reflexivity.
  assert (Hmul : (k + 1) * blockSize pool <= blockCount pool * blockSize pool)
    by (apply Z.mul_le_mono_nonneg_r; lia).
  nia.
Qed.

(** The loop of [Free] passes the pools whose range does not hold the
    pointer and pushes the block on the first one that does. *)
Lemma pool_Free_from_push (before : list Pool) :
  forall (done after : list Pool) (pool : Pool) (this : t) (p : ptr) (h : heap),
  Forall (fun q => in_pool q p = false) before ->
  in_pool pool p = true ->
  Free_from done (before ++ pool :: after) this p h =
    Ret ({| pools := (done ++ before) ++ set_freeList pool p :: after;
            totalAllocated := wrap (totalAllocated this - blockSize pool);
            peakUsage := peakUsage this;
            allocationCount := wrap (allocationCount this - 1);
            name := name this; threadSafe := threadSafe this |},
         Mem.write_le h word_bytes (p + offsetof_next) (freeList pool)).
Proof.
  induction before as [|q before IH]; intros done after pool this p h Hout Hin.
  - cbn [app Free_from]. rewrite Hin, app_nil_r. reflexivity.
  - inversion Hout as [|? ? Hq Hout']; subst.
    cbn [app Free_from]. rewrite Hq.
    rewrite IH by assumption. rewrite <- !app_assoc. reflexivity.
Qed.

Lemma pairwise_disjoint_middle (before after : list Pool) (pool : Pool) :
  pairwise_disjoint (before ++ pool :: after) ->
  Forall (fun q => disjoint q pool) before /\ Forall (disjoint pool) after.
Proof.
  induction before as [|q before IH]; intros Hd.
  - destruct Hd as [Hhead _]. split; [constructor | exact Hhead].
  - destruct Hd as [Hhead Htail]. destruct (IH Htail) as [Hb Ha].
    split; [|exact Ha]. constructor; [|exact Hb].
    apply Forall_app in Hhead. destruct Hhead as [_ Hhead].
    inversion Hhead; assumption.
Qed.

(** [Free] of a block that is not on the freelist of its pool pushes it
    there and keeps the allocator well formed. *)
Lemma pool_Free_well_formed (this : t) (before after : list Pool) (pool : Pool)
    (p : ptr) (h : heap) :
  well_formed this h ->
  pools this = before ++ pool :: after ->
  is_block pool p ->
  ~ on_chain h (freeList pool) p ->
  exists (this' : t) (h' : heap),
    Free this p h = Ret (this', h')
    /\ pools this' = before ++ set_freeList pool p :: after
    /\ well_formed this' h'.
Proof.
  intros (Hgeo & Hdis & Hwf) Hps Hblock Hoff.
  rewrite Hps in Hgeo, Hdis, Hwf.
  assert (H8 : sizeof_pointer = 8) by reflexivity.
  pose proof (proj1 (Forall_app _ _ _) Hgeo) as [Hgeo1 Hgeo2].
  inversion Hgeo2 as [|? ? Hg Hgeo3]; subst.
  pose proof (proj1 (Forall_app _ _ _) Hwf) as [Hwf1 Hwf2].
  inversion Hwf2 as [|? ? Hchain Hwf3]; subst.
  destruct (pairwise_disjoint_middle _ _ _ Hdis) as [Hdis1 Hdis3].
  destruct (is_block_slab pool p Hg Hblock) as [Hlo Hhi].
  assert (Hp : p <> nullptr).
  { destruct Hg as (Hm & _). unfold nullptr. lia. }
  assert (Hin : in_pool pool p = true) by (apply is_block_in_pool; assumption).
  assert (Hout : Forall (fun q => in_pool q p = false) before).
  { apply Forall_forall. intros q Hq.
    apply not_true_is_false. intros Hqp.
    rewrite Forall_forall in Hgeo1, Hdis1.
    apply (pool_in_pool_iff q p (Hgeo1 q Hq)) in Hqp.
    specialize (Hdis1 q Hq). unfold disjoint in Hdis1. lia. }
  eexists _, _. split; [|split].
  - unfold Free. destruct (Z.eqb_spec p nullptr) as [?|_]; [contradiction|].
    rewrite Hps. apply pool_Free_from_push; assumption.
  - reflexivity.
  - unfold well_formed. cbn [pools app].
    pose proof (same_slabs_middle before after pool p) as Hsame.
    split; [eapply geometry_same_slabs; eassumption|].
    split; [eapply pairwise_disjoint_same_slabs; eassumption|].
    assert (Hframe : forall q, geometry q -> disjoint q pool \/ disjoint pool q ->
                     free_chain h q (freeList q) ->
                     free_chain (Mem.write_le h word_bytes (p + offsetof_next)
                                   (freeList pool)) q (freeList q)).
    { intros q Hgq Hdq Hcq. apply (free_chain_frame h); [exact Hgq | exact Hcq |].
      intros a Ha. apply write_le_lookup_other.
      unfold offsetof_next. change (Z.of_nat word_bytes) with 8.
      unfold disjoint in Hdq. lia. }
    apply Forall_app. split; [|constructor].
    + rewrite Forall_forall in *. intros q Hq.
      apply Hframe; auto.
    + cbn [set_freeList freeList].
      apply (free_chain_same_slab _ pool); [apply same_slab_set_freeList|].
      apply (free_chain_block _ _ p (freeList pool)); auto.
      * apply read_word_write_word.
        eapply free_chain_head_range; eassumption.
      * apply free_chain_write_off_chain; assumption.
    + rewrite Forall_forall in *. intros q Hq.
      apply Hframe; auto.
Qed.

End PoolFree.

(** ** FreeListAllocator *)

Section FreeList.
Import FreeListAllocator.

Lemma freelist_link_no_throw (this : t) (prev target : ptr) :
  no_throw (link this prev target).
Proof. unfold link. repeat no_throw_step. Qed.

Lemma freelist_Allocate_loop_no_throw (fuel : nat) :
  forall (this : t) (totalSize alignment : Z) (prev current : ptr),
  no_throw (Allocate_loop fuel this totalSize alignment prev current).
Proof.
  induction fuel as [|fuel IH]; intros this totalSize alignment prev current;
    cbn [Allocate_loop].
  - apply no_throw_out_of_fuel.
  - repeat first [apply IH | apply freelist_link_no_throw | no_throw_step].
Qed.

End FreeList.

Section FreeListAllocate.
Import FreeListAllocator.

(** The address computed for a candidate block is a multiple of the
    alignment, whatever the address of the block. *)
Lemma freelist_alignedAddress_aligned (current alignment : Z) :
  power_of_two alignment ->
  alignedAddress_for current alignment mod alignment = 0.
Proof.
  intros (k & Hk & ->). unfold alignedAddress_for.
  apply land_alignment_mask. exact Hk.
Qed.

(** Without wrap-around it is the first multiple of the alignment at or
    after the end of the two descriptors. *)
Lemma freelist_alignedAddress_range (current alignment : Z) :
  power_of_two alignment ->
  0 <= current ->
  current + sizeof_FreeBlock + sizeof_AllocationHeader + alignment <= 2 ^ SIZE_BITS ->
  current + sizeof_FreeBlock + sizeof_AllocationHeader
    <= alignedAddress_for current alignment
    < current + sizeof_FreeBlock + sizeof_AllocationHeader + alignment.
Proof.
  intros (k & Hk & ->) Hc Hno. unfold alignedAddress_for.
  assert (Hpow : 0 < 2 ^ k) by (apply Z.pow_pos_nonneg; lia).
  assert (H16 : sizeof_FreeBlock = 16) by reflexivity.
  assert (H16' : sizeof_AllocationHeader = 16) by reflexivity.
  rewrite (wrap_small (current + _)) by (unfold size_t_range; lia).
  rewrite (wrap_small (current + _ + _ + _ - 1)) by (unfold size_t_range; lia).
  rewrite land_alignment_mask_value by (unfold size_t_range; lia).
  pose proof (Z.mod_pos_bound
                (current + sizeof_FreeBlock + sizeof_AllocationHeader + 2 ^ k - 1)
                (2 ^ k) Hpow) as Hm.
  pose proof (land_alignment_mask
                (current + sizeof_FreeBlock + sizeof_AllocationHeader + 2 ^ k - 1) k Hk)
    as Hal.
  rewrite land_alignment_mask_value in Hal by (unfold size_t_range; lia).
  set (x := current + sizeof_FreeBlock + sizeof_AllocationHeader + 2 ^ k - 1) in *.
  split; [|lia].
  (* x - x mod 2^k is a multiple of 2^k that exceeds x - 2^k *)
  destruct (Z.le_gt_cases (current + sizeof_FreeBlock + sizeof_AllocationHeader)
              (x - x mod 2 ^ k)) as [?|Hlt]; [assumption|exfalso].
  pose proof (Z.div_mod x (2 ^ k)) as Hdm.
  pose proof (Z.div_mod (current + sizeof_FreeBlock + sizeof_AllocationHeader - 1) (2 ^ k))
    as Hdm'.
  pose proof (Z.mod_pos_bound
                (current + sizeof_FreeBlock + sizeof_AllocationHeader - 1) (2 ^ k) Hpow).
  assert (x = (current + sizeof_FreeBlock + sizeof_AllocationHeader - 1) + 1 * 2 ^ k)
    as Hx by (unfold x; lia).
  assert (Hdiv : x / 2 ^ k
                 = (current + sizeof_FreeBlock + sizeof_AllocationHeader - 1) / 2 ^ k + 1).
  { rewrite Hx. apply Z.div_add. lia. }
  nia.
Qed.

Lemma freelist_Allocate_loop_post (fuel : nat) :
  forall (this : t) (totalSize alignment : Z) (prev current : ptr) (h : heap),
  post (Allocate_loop fuel this totalSize alignment prev current) h
    (fun '(p, this') h' =>
       (p = nullptr /\ this' = this /\ h' = h)
       \/ exists (c size : Z),
            on_free_list h current c
            /\ Mem.read_le h word_bytes (c + offsetof_size) = Some size
            /\ wrap (totalSize + alignmentPadding_for c alignment) <= size
            /\ p = alignedAddress_for c alignment
            /\ m_buffer this' = m_buffer this
            /\ m_bufferSize this' = m_bufferSize this).
Proof.
  induction fuel as [|fuel IH]; intros this totalSize alignment prev current h;
    cbn [Allocate_loop].
  - intros a h' Heq. discriminate.
  - destruct (Z.eqb_spec current nullptr) as [Hnull|Hcur].
    { apply post_ret. left. repeat split. }
    apply post_bind, post_load. intros size Hsize.
    destruct (Z.geb_spec size (wrap (totalSize + alignmentPadding_for current alignment)))
      as [Hfit|Hsmall].
    + apply post_bind_any. intros [required head] h1.
      apply post_bind_any. intros _ h2.
      apply post_bind_any. intros _ h3.
      apply post_ret. right. exists current, size.
      repeat split; auto. constructor. exact Hcur.
    + apply post_bind, post_load. intros next Hnext.
      eapply post_weaken; [|apply IH].
      intros [p this'] h' [Hleft|(c & sz & Hon & Hread & Hle & Hp & Hb & Hbs)].
      * left. exact Hleft.
      * right. exists c, sz. repeat split; auto.
        econstructor; eassumption.
Qed.

Lemma freelist_Owns_iff (this : FreeListAllocator.t) (p : ptr) :
  FreeListAllocator.Owns this p = true
  <-> FreeListAllocator.m_buffer this <= p
      < FreeListAllocator.m_buffer this + FreeListAllocator.m_bufferSize this.
Proof.
  unfold FreeListAllocator.Owns.
  destruct (Z.geb_spec p (FreeListAllocator.m_buffer this));
    destruct (Z.ltb_spec p (FreeListAllocator.m_buffer this
                            + FreeListAllocator.m_bufferSize this)); simpl;
    split; intros; try discriminate; try reflexivity; lia.
Qed.

(** The region [p, p + size) that [Allocate] hands out lies inside the
    candidate block it was cut from, hence inside the buffer when the
    freelist blocks do. *)
Lemma freelist_Allocate_owned (fuel : nat) (this this' : FreeListAllocator.t)
    (size alignment p : Z) (h h' : heap) :
  power_of_two alignment ->
  0 <= size ->
  size + alignment + FreeListAllocator.sizeof_FreeBlock
    + FreeListAllocator.sizeof_AllocationHeader <= 2 ^ SIZE_BITS ->
  0 <= FreeListAllocator.m_buffer this ->
  FreeListAllocator.m_buffer this + FreeListAllocator.m_bufferSize this + alignment
    + FreeListAllocator.sizeof_FreeBlock
    + FreeListAllocator.sizeof_AllocationHeader <= 2 ^ SIZE_BITS ->
  FreeListAllocator.free_blocks_in_buffer this h ->
  FreeListAllocator.Allocate fuel this size alignment h = Ret ((p, this'), h') ->
  p <> nullptr ->
  FreeListAllocator.m_buffer this < p
  /\ p + size <= FreeListAllocator.m_buffer this + FreeListAllocator.m_bufferSize this
  /\ (0 < size -> FreeListAllocator.Owns this' p = true).
Proof.
  intros Hpow Hs Hsno Hb Hno Hin Heq Hp.
  unfold FreeListAllocator.Allocate in Heq.
  pose proof (freelist_Allocate_loop_post fuel this _ alignment nullptr
                (FreeListAllocator.m_freeList this) h _ _ Heq) as Hpost.
  simpl in Hpost.
  destruct Hpost as [(Hnull & _)|(c & csize & Hon & Hread & Hle & Hpeq & Hb' & Hbs')];
    [contradiction|].
  destruct (Hin c csize Hon Hread) as [Hlo Hhi].
  assert (Hpos : 0 < alignment).
  { destruct Hpow as (k & Hk & ->). apply Z.pow_pos_nonneg; lia. }
  assert (H16 : FreeListAllocator.sizeof_FreeBlock = 16) by reflexivity.
  assert (H16' : FreeListAllocator.sizeof_AllocationHeader = 16) by reflexivity.
  assert (Hcs : 0 <= csize).
  { pose proof (wrap_range (wrap (size + FreeListAllocator.sizeof_AllocationHeader)
                            + FreeListAllocator.alignmentPadding_for c alignment)).
    unfold size_t_range in *. lia. }
  pose proof (freelist_alignedAddress_range c alignment Hpow ltac:(lia) ltac:(lia))
    as Hrange.
  rewrite <- Hpeq in Hrange.
  unfold FreeListAllocator.alignmentPadding_for in Hle. rewrite <- Hpeq in Hle.
  rewrite (wrap_small (c + _)) in Hle by (unfold size_t_range; lia).
  rewrite (wrap_small (p - _)) in Hle by (unfold size_t_range; lia).
  rewrite (wrap_small (size + _)) in Hle by (unfold size_t_range; lia).
  rewrite wrap_small in Hle by (unfold size_t_range; lia).
  split; [lia|]. split; [lia|].
  intros Hs'. apply freelist_Owns_iff. rewrite Hb', Hbs'. lia.
Qed.

End FreeListAllocate.

(** ** The free-list allocator, executed symbolically *)

Section FreeListSymbolic.
Import FreeListAllocator.
#[local] Opaque Mem.write_le Mem.read_le.

Ltac fl_step :=
  lazymatch goal with
  | |- returns_with (create _ _) _ _ => unfold create
  | |- returns_with (Allocate _ _ _ _) _ _ =>
      unfold Allocate; cbn [Allocate_loop m_freeList]
  | |- returns_with (Free _ _ _) _ _ =>
      unfold Free; cbn [Free_walk m_freeList]
  | |- returns_with (ValidateInternalState _ _) _ _ =>
      unfold ValidateInternalState; cbn [Validate_loop m_freeList]
  | |- returns_with (link _ _ _) _ _ => unfold link; cbn [m_freeList]
  | |- returns_with (free_stats _ _ _) _ _ => cbn [free_stats]
  | |- returns_with (Allocate_loop _ _ _ _ _ _) _ _ => cbn [Allocate_loop m_freeList]
  | |- returns_with (Free_walk _ _ _ _) _ _ => cbn [Free_walk]
  | |- returns_with (Validate_loop _ _ _) _ _ => cbn [Validate_loop]
  | |- returns_with (match ?x with Some _ => _ | None => _ end) _ _ => cbv beta iota
  | |- _ => sym_step
  end; cbv beta;
  cbn [m_buffer m_bufferSize m_freeList m_name m_threadSafe m_allocatedSize
       m_peakUsage m_allocationCount].

Lemma freelist_required_exact (c size alignment : Z) :
  power_of_two alignment ->
  0 <= c -> 0 <= size ->
  size + alignment + sizeof_FreeBlock + sizeof_AllocationHeader <= 2 ^ SIZE_BITS ->
  c + alignment + sizeof_FreeBlock + sizeof_AllocationHeader <= 2 ^ SIZE_BITS ->
  alignmentPadding_for c alignment
    = alignedAddress_for c alignment - c - sizeof_FreeBlock
  /\ wrap (wrap (size + sizeof_AllocationHeader) + alignmentPadding_for c alignment)
     = size + (alignedAddress_for c alignment - c).
Proof.
  intros Hpow Hc Hs Hsno Hno.
  pose proof (power_of_two_range alignment Hpow) as Ha.
  pose proof (freelist_alignedAddress_range c alignment Hpow Hc ltac:(lia)) as Hrange.
  assert (H16 : sizeof_FreeBlock = 16) by reflexivity.
  assert (H16' : sizeof_AllocationHeader = 16) by reflexivity.
  unfold alignmentPadding_for. simpl_wrap. split; lia.
Qed.

(** On a freshly constructed free-list allocator, for a request whose
    arithmetic does not wrap around, the first [Allocate] returns; it
    succeeds exactly when the request, with its descriptors and padding,
    fits in the buffer, and then leaves a state that
    [ValidateInternalState] rejects. *)
Lemma freelist_first_Allocate_invalidates
    (buffer bufferSize size alignment : Z) (fuel : nat) (h : heap) :
  0 < buffer ->
  size_t_range bufferSize ->
  power_of_two alignment ->
  0 <= size ->
  size + alignment + sizeof_FreeBlock + sizeof_AllocationHeader <= 2 ^ SIZE_BITS ->
  buffer + bufferSize + alignment + sizeof_FreeBlock + sizeof_AllocationHeader
    <= 2 ^ SIZE_BITS ->
  (2 <= fuel)%nat ->
  returns_with (this ← create buffer bufferSize; Allocate fuel this size alignment) h
    (fun '(p, this) h' =>
       if bufferSize >=? size + (alignedAddress_for buffer alignment - buffer)
       then p = alignedAddress_for buffer alignment
            /\ p <> nullptr
            /\ ValidateInternalState fuel this h' = Ret (false, h')
       else p = nullptr).
Proof.
  intros Hb Hbs Hpow Hs Hsno Hno Hfuel.
  assert (H16 : sizeof_FreeBlock = 16) by reflexivity.
  assert (H16' : sizeof_AllocationHeader = 16) by reflexivity.
  assert (Hmin : MIN_BLOCK_SIZE = 16) by reflexivity.
  assert (Hos : offsetof_size = 0) by reflexivity.
  assert (Hon : offsetof_next = 8) by reflexivity.
  assert (Hhs : offsetof_header_size = 0) by reflexivity.
  assert (Hhp : offsetof_header_padding = 8) by reflexivity.
  assert (Hwb : Z.of_nat word_bytes = 8) by reflexivity.
  assert (Hnull : nullptr = 0) by reflexivity.
  pose proof (power_of_two_range alignment Hpow) as Ha.
  unfold size_t_range in Hbs.
  pose proof (freelist_alignedAddress_range buffer alignment Hpow ltac:(lia) ltac:(lia))
    as Hrange.
  destruct (freelist_required_exact buffer size alignment Hpow ltac:(lia) Hs Hsno
              ltac:(lia)) as [Hpad Hreq].
  destruct fuel as [|[|fuel]]; try lia.
  set (A := alignedAddress_for buffer alignment) in *.
  repeat (rewrite ?Hreq, ?Hpad; fold A; fl_step).
  all: (destruct (Z.geb_spec bufferSize (size + (A - buffer))); try lia;
     try reflexivity).
  all:  (split; [reflexivity|]; split; [lia|]);
    apply returns_with_value; repeat fl_step.
  all:  (split; [|reflexivity]); apply Z.eqb_neq.
  all: simpl_wrap; lia.
Qed.

(** Addresses that are multiples of 8 need no padding beyond the two
    descriptors when the alignment is 8. *)
Lemma freelist_alignedAddress_of_aligned (c alignment : Z) :
  power_of_two alignment ->
  0 <= c ->
  c + sizeof_FreeBlock + sizeof_AllocationHeader + alignment <= 2 ^ SIZE_BITS ->
  (c + sizeof_FreeBlock + sizeof_AllocationHeader) mod alignment = 0 ->
  alignedAddress_for c alignment = c + sizeof_FreeBlock + sizeof_AllocationHeader.
Proof.
  intros Hpow Hc Hno Hmod.
  pose proof (power_of_two_range alignment Hpow) as Ha.
  pose proof (freelist_alignedAddress_range c alignment Hpow Hc Hno) as Hrange.
  pose proof (freelist_alignedAddress_aligned c alignment Hpow) as Hal.
  set (A := alignedAddress_for c alignment) in *.
  set (B := c + sizeof_FreeBlock + sizeof_AllocationHeader) in *.
  assert (Hdiff : (A - B) mod alignment = 0).
  { rewrite Zminus_mod, Hal, Hmod. reflexivity. }
  rewrite Z.mod_small in Hdiff by lia. lia.
Qed.

Lemma freelist_aligned_8 (c : Z) :
  0 <= c -> c mod 8 = 0 -> c + 48 <= 2 ^ SIZE_BITS ->
  alignedAddress_for c 8 = c + 32 /\ alignmentPadding_for c 8 = 16.
Proof.
  intros Hc Hc8 Hno.
  assert (Hpow : power_of_two 8).
  { exists 3. split; [unfold SIZE_BITS; lia | reflexivity]. }
  assert (H16 : sizeof_FreeBlock = 16) by reflexivity.
  assert (H16' : sizeof_AllocationHeader = 16) by reflexivity.
  assert (HA : alignedAddress_for c 8 = c + 32).
  { rewrite freelist_alignedAddress_of_aligned; try lia; try exact Hpow.
    rewrite H16, H16'.
    replace (c + 16 + 16) with (c + 4 * 8) by lia.
    rewrite Z_mod_plus_full. exact Hc8. }
  split; [exact HA|].
  unfold alignmentPadding_for. rewrite HA. simpl_wrap. lia.
Qed.

Ltac align_8 :=
  repeat match goal with
         | |- context [alignmentPadding_for ?c 8] =>
             let Ha := fresh "Ha" in
             let Hp := fresh "Hp" in
             destruct (freelist_aligned_8 c) as [Ha Hp];
             [ lia | Z.to_euclidean_division_equations; lia | lia
             | rewrite ?Ha, ?Hp; clear Ha Hp ]
         end.

(** Scenario S3 for a buffer at any address that is a multiple of 8, as
    [operator new[]] returns, and any bound of at least two steps on the
    walks of the freelist. *)
Lemma freelist_S3_symbolic (q : Z) (fuel : nat) (h : heap) :
  0 < q -> 8 * q + 1024 + 64 <= 2 ^ SIZE_BITS -> (2 <= fuel)%nat ->
  returns_with (Scenario.freelist_S3 (8 * q) fuel) h
    (fun r _ => r = (8 * q + 32, 8 * q + 264, 8 * q + 496, 8 * q + 32,
                     (8 * q, 1024, nullptr), (1024, 1024, 1))).
Proof.
  intros Hq Hno Hfuel.
  destruct fuel as [|[|fuel]]; try lia.
  assert (H16 : sizeof_FreeBlock = 16) by reflexivity.
  assert (H16' : sizeof_AllocationHeader = 16) by reflexivity.
  assert (Hmin : MIN_BLOCK_SIZE = 16) by reflexivity.
  assert (Hos : offsetof_size = 0) by reflexivity.
  assert (Hon : offsetof_next = 8) by reflexivity.
  assert (Hhs : offsetof_header_size = 0) by reflexivity.
  assert (Hhp : offsetof_header_padding = 8) by reflexivity.
  assert (Hwb : Z.of_nat word_bytes = 8) by reflexivity.
  assert (Hnull : nullptr = 0) by reflexivity.
  assert (H2 : 2 ^ SIZE_BITS = 18446744073709551616) by reflexivity.
  unfold Scenario.freelist_S3.
  repeat (align_8; fl_step).
  repeat match goal with |- (_, _) = (_, _) => f_equal end; lia.
Qed.

End FreeListSymbolic.

(** ** The free-list allocator: fresh state and allocation size *)

Section FreeListFresh.
Import FreeListAllocator.
#[local] Opaque Mem.write_le Mem.read_le.

Lemma freelist_create_eq (buffer : ptr) (bufferSize : Z) (h : heap) :
  create buffer bufferSize h =
    Ret ({| m_buffer := buffer; m_bufferSize := bufferSize; m_freeList := buffer;
            m_name := "FreeListAllocator"; m_threadSafe := false;
            m_allocatedSize := 0; m_peakUsage := 0; m_allocationCount := 0 |},
         Mem.write_le
           (Mem.write_le h word_bytes (buffer + offsetof_size) bufferSize)
           word_bytes (buffer + offsetof_next) nullptr).
Proof. reflexivity. Qed.

(** The freelist of a freshly constructed allocator is the single block that
    spans the buffer. *)
Lemma freelist_create_blocks_in_buffer (buffer bufferSize : Z) (h h' : heap) (this : t) :
  size_t_range bufferSize ->
  create buffer bufferSize h = Ret (this, h') ->
  m_buffer this = buffer /\ m_bufferSize this = bufferSize
  /\ free_blocks_in_buffer this h'.
Proof.
  intros Hbs Hcreate. rewrite freelist_create_eq in Hcreate.
  inversion Hcreate; subst this h'. clear Hcreate.
  split; [reflexivity|]. split; [reflexivity|].
  intros c size Hon Hread. cbn [m_freeList m_buffer m_bufferSize] in *.
  assert (Hc : c = buffer).
  { inversion Hon as [|head next c' Hhead Hnext Hrest]; subst; [reflexivity|].
    rewrite read_word_write_word in Hnext
      by (unfold size_t_range, nullptr in *; lia).
    inversion Hnext; subst next.
    inversion Hrest; subst; contradiction. }
  subst c.
  rewrite read_le_write_le_other in Hread
    by (unfold offsetof_size, offsetof_next, sizeof_size_t;
        change (Z.of_nat word_bytes) with 8; lia).
  rewrite read_word_write_word in Hread by exact Hbs.
  inversion Hread; subst size. lia.
Qed.

End FreeListFresh.

Section FreeListSize.
Import FreeListAllocator.
#[local] Opaque Mem.write_le Mem.read_le.

(** What [GetAllocationSize] reads back from a header that was just
    written. *)
Lemma freelist_GetAllocationSize_of_header (this : t) (h : heap) (p size padding : Z) :
  p <> nullptr ->
  size_t_range size ->
  0 <= padding < 256 ->
  sizeof_AllocationHeader + padding <= size ->
  let header := p - sizeof_AllocationHeader in
  let h' := Mem.write_le
              (Mem.write_le h word_bytes (header + offsetof_header_size) size)
              1 (header + offsetof_header_padding) padding in
  GetAllocationSize this p h' = Ret (size - sizeof_AllocationHeader - padding, h').
Proof.
  intros Hp Hsize Hpad Hle header h'. subst header h'. unfold GetAllocationSize.
  destruct (Z.eqb_spec p nullptr) as [?|_]; [contradiction|].
  assert (H16 : sizeof_AllocationHeader = 16) by reflexivity.
  assert (Hhs : offsetof_header_size = 0) by reflexivity.
  assert (Hhp : offsetof_header_padding = 8) by reflexivity.
  assert (Hwb : Z.of_nat word_bytes = 8) by reflexivity.
  unfold size_t_range in Hsize.
  run_monad.
  rewrite read_le_write_le_other by (simpl Z.of_nat; lia).
  rewrite read_word_write_word by exact Hsize.
  rewrite read_le_write_le_same.
  change (256 ^ Z.of_nat 1) with 256. rewrite (Z.mod_small padding) by lia.
  rewrite (wrap_small (size - _)) by (unfold size_t_range; lia).
  rewrite wrap_small by (unfold size_t_range; lia).
  reflexivity.
Qed.

(** For the pointer it has just returned, with an alignment of at most 128,
    [GetAllocationSize] is the number of bytes from the pointer to the end
    of the block cut for it, which is at least the requested size. *)
Lemma freelist_GetAllocationSize_after_Allocate_loop (fuel : nat) :
  forall (this : t) (size alignment : Z) (prev current : ptr) (h : heap),
  power_of_two alignment -> alignment <= 128 ->
  0 <= size ->
  size + alignment + sizeof_FreeBlock + sizeof_AllocationHeader <= 2 ^ SIZE_BITS ->
  0 <= m_buffer this ->
  m_buffer this + m_bufferSize this + alignment
    + sizeof_FreeBlock + sizeof_AllocationHeader <= 2 ^ SIZE_BITS ->
  (forall c csize, on_free_list h current c ->
     Mem.read_le h word_bytes (c + offsetof_size) = Some csize ->
     m_buffer this <= c /\ c + csize <= m_buffer this + m_bufferSize this) ->
  post (Allocate_loop fuel this (wrap (size + sizeof_AllocationHeader)) alignment
          prev current) h
    (fun '(p, this') h' =>
       p <> nullptr ->
       exists usable : Z,
         size <= usable
         /\ GetAllocationSize this' p h' = Ret (usable, h')).
Proof.
  assert (H16 : sizeof_FreeBlock = 16) by reflexivity.
  assert (H16' : sizeof_AllocationHeader = 16) by reflexivity.
  assert (Hmin : MIN_BLOCK_SIZE = 16) by reflexivity.
  induction fuel as [|fuel IH];
    intros this size alignment prev current h Hpow H128 Hs Hsno Hb Hno Hin;
    cbn [Allocate_loop].
  - intros a h' Heq. discriminate.
  - destruct (Z.eqb_spec current nullptr) as [Hnull|Hcur].
    { apply post_ret. intros Hp. contradiction. }
    apply post_bind, post_load. intros csize Hcsize.
    destruct (Hin current csize (on_free_list_here _ _ Hcur) Hcsize) as [Hlo Hhi].
    pose proof (read_word_range _ _ _ Hcsize) as Hcr. unfold size_t_range in Hcr.
    pose proof (power_of_two_range alignment Hpow) as Ha.
    pose proof (freelist_alignedAddress_range current alignment Hpow
                  ltac:(lia) ltac:(lia)) as Hrange.
    destruct (freelist_required_exact current size alignment Hpow
                ltac:(lia) Hs Hsno ltac:(lia)) as [Hpad Hreq].
    rewrite Hreq, Hpad.
    set (A := alignedAddress_for current alignment) in *.
    destruct (Z.geb_spec csize (size + (A - current))) as [Hfit|Hsmall].
    + rewrite (wrap_small (csize - _)) by (unfold size_t_range; lia).
      rewrite (wrap_small (A - _)) by (unfold size_t_range; lia).
      apply post_bind.
      destruct (Z.leb_spec (csize - (size + (A - current))) MIN_BLOCK_SIZE).
      * apply post_bind, post_load. intros next _.
        apply post_bind_any. intros head h1. apply post_ret.
        apply post_bind, post_store. apply post_bind, post_store. apply post_ret.
        intros Hp. eexists. split; [|apply freelist_GetAllocationSize_of_header];
          unfold size_t_range; lia.
      * apply post_bind, post_store. apply post_bind, post_load. intros next _.
        apply post_bind, post_store.
        apply post_bind_any. intros head h1. apply post_ret.
        apply post_bind, post_store. apply post_bind, post_store. apply post_ret.
        intros Hp. eexists. split; [|apply freelist_GetAllocationSize_of_header];
          unfold size_t_range; lia.
    + apply post_bind, post_load. intros next Hnext.
      apply IH; try assumption.
      intros c sz Hon Hread. apply Hin; [|exact Hread].
      econstructor; eassumption.
Qed.

Lemma freelist_GetAllocationSize_after_Allocate (fuel : nat) (this this' : t)
    (size alignment p : Z) (h h' : heap) :
  power_of_two alignment -> alignment <= 128 ->
  0 <= size ->
  size + alignment + sizeof_FreeBlock + sizeof_AllocationHeader <= 2 ^ SIZE_BITS ->
  0 <= m_buffer this ->
  m_buffer this + m_bufferSize this + alignment
    + sizeof_FreeBlock + sizeof_AllocationHeader <= 2 ^ SIZE_BITS ->
  free_blocks_in_buffer this h ->
  Allocate fuel this size alignment h = Ret ((p, this'), h') ->
  p <> nullptr ->
  exists usable : Z,
    size <= usable /\ GetAllocationSize this' p h' = Ret (usable, h').
Proof.
  intros Hpow H128 Hs Hsno Hb Hno Hin Heq Hp.
  exact (freelist_GetAllocationSize_after_Allocate_loop fuel this size alignment
           nullptr (m_freeList this) h Hpow H128 Hs Hsno Hb Hno Hin _ _ Heq Hp).
Qed.

End FreeListSize.

(** When every block of the freelist is too small, the walk of [Allocate]
    reaches the end of the list and returns null without touching anything,
    given at least one step per block and one for the end. *)
Lemma freelist_Allocate_loop_exhausted (this : FreeListAllocator.t)
    (totalSize alignment : Z) (h : heap) (current : ptr) (n : nat) :
  FreeListAllocator.all_too_small h totalSize alignment current n ->
  forall (fuel : nat) (prev : ptr),
  (n < fuel)%nat ->
  FreeListAllocator.Allocate_loop fuel this totalSize alignment prev current h
  = Ret ((nullptr, this), h).
Proof.
  induction 1 as [|c size next n Hc Hsize Hsmall Hnext Hrest IH];
    intros fuel prev Hfuel.
  - destruct fuel as [|fuel]; [lia|]. reflexivity.
  - destruct fuel as [|fuel]; [lia|].
    cbn [FreeListAllocator.Allocate_loop].
    destruct (Z.eqb_spec c nullptr) as [?|_]; [contradiction|].
    run_monad. rewrite Hsize.
    destruct (Z.geb_spec size
                (wrap (totalSize + FreeListAllocator.alignmentPadding_for c alignment)));
      [lia|].
    rewrite Hnext. apply IH. lia.
Qed.

(** A block with no room for the request at its first aligned address fails
    the test [current->size >= requiredSize] of the walk. *)
Lemma freelist_no_block_fits_too_small (h : heap) (size alignment : Z)
    (c : ptr) (n : nat) :
  power_of_two alignment -> 0 <= size ->
  size + alignment + FreeListAllocator.sizeof_FreeBlock
    + FreeListAllocator.sizeof_AllocationHeader <= 2 ^ SIZE_BITS ->
  FreeListAllocator.no_block_fits h size alignment c n ->
  FreeListAllocator.all_too_small h
    (wrap (size + FreeListAllocator.sizeof_AllocationHeader)) alignment c n.
Proof.
  intros Hpow Hs Hsno Hfits.
  induction Hfits as [|c block_size next n Hc Hno Hsize Hroom Hnext _ IH].
  - constructor.
  - apply FreeListAllocator.all_too_small_block
      with (size := block_size) (next := next); try assumption.
    + unfold nullptr. lia.
    + destruct (freelist_required_exact c size alignment Hpow ltac:(lia) Hs Hsno Hno)
        as [_ ->].
      pose proof (freelist_alignedAddress_range c alignment Hpow ltac:(lia) ltac:(lia))
        as Hrange.
      pose proof (Hroom (FreeListAllocator.alignedAddress_for c alignment) ltac:(lia)
                    (freelist_alignedAddress_aligned c alignment Hpow)).
      lia.
Qed.

(** * The claims *)

(** C1 (the code departs from the claim).  After a single successful
    [Allocate(200, 8)] on a fresh free-list allocator of 1024 bytes,
    [ValidateInternalState] returns false: the freelist holds 792 bytes and
    [GetTotalAllocated] is 216, which add up to 1008, the buffer size less
    [sizeof(FreeBlock)]. *)
Theorem freelist_ValidateInternalState_after_Allocate :
  Scenario.run (Scenario.freelist_validate_after_Allocate 4096 8)
  = Ret (4128, false, 792, 216).
Proof. vm_compute. reflexivity. Qed.

(** C2, as amended.  [Allocate] of the linear, the stack and the free-list
    allocator never leaves by an exception, whatever the request.  It
    returns null, changing nothing, when the request does not fit and is
    small enough that the [size_t] sums of the call stay below [2^64]:
    - linear allocator, with [m_offset + alignment + size < 2^64]: no offset
      at or after [m_offset] that is a multiple of [alignment] leaves room
      for [size] bytes in the buffer;
    - stack allocator, with [m_offset + 16 + alignment + size < 2^64]: the
      same, for the offsets at or after [m_offset + 16], the header taken
      into account;
    - free-list allocator, with [alignment] a power of two,
      [size + alignment + 32 <= 2^64] and a freelist that ends in null and
      whose blocks start [alignment + 32] bytes or more below [2^64]: no
      block of the freelist has room for [size] bytes at a multiple of
      [alignment] that is 32 bytes or more after its start.
    (A larger size can make the sum wrap around and be accepted.)
    [Allocate] of the pool allocator returns null when the class it selects
    has an empty freelist; it leaves by the exception
    [runtime_error("No suitable pool found")] exactly when the requested
    size exceeds the block size of every declared class. *)
Theorem Allocate_exhaustion_outcomes :
  forall (size alignment : Z) (h : heap),
  (forall this : LinearAllocator.t,
     ~ throws (LinearAllocator.Allocate this size alignment h)
     /\ (0 < alignment -> 0 <= size ->
         0 <= LinearAllocator.m_offset this ->
         LinearAllocator.m_offset this + alignment + size < 2 ^ SIZE_BITS ->
         (forall o : Z,
            LinearAllocator.m_offset this <= o -> o mod alignment = 0 ->
            LinearAllocator.m_bufferSize this < o + size) ->
         LinearAllocator.Allocate this size alignment h = Ret ((nullptr, this), h)))
  /\ (forall this : StackAllocator.t,
        ~ throws (StackAllocator.Allocate this size alignment h)
        /\ (0 < alignment -> 0 <= size ->
            0 <= StackAllocator.m_offset this ->
            StackAllocator.m_offset this + StackAllocator.sizeof_AllocationHeader
              + alignment + size < 2 ^ SIZE_BITS ->
            (forall o : Z,
               StackAllocator.m_offset this + StackAllocator.sizeof_AllocationHeader
                 <= o ->
               o mod alignment = 0 ->
               StackAllocator.m_bufferSize this < o + size) ->
            StackAllocator.Allocate this size alignment h = Ret ((nullptr, this), h)))
  /\ (forall (fuel : nat) (this : FreeListAllocator.t),
        ~ throws (FreeListAllocator.Allocate fuel this size alignment h)
        /\ (forall n : nat,
              power_of_two alignment -> 0 <= size ->
              size + alignment + FreeListAllocator.sizeof_FreeBlock
                + FreeListAllocator.sizeof_AllocationHeader <= 2 ^ SIZE_BITS ->
              FreeListAllocator.no_block_fits h size alignment
                (FreeListAllocator.m_freeList this) n ->
              (n < fuel)%nat ->
              FreeListAllocator.Allocate fuel this size alignment h
              = Ret ((nullptr, this), h)))
  /\ (forall this : PoolAllocator.t,
        (throws (PoolAllocator.Allocate this size alignment h)
         <-> Forall (fun q => PoolAllocator.blockSize q < size)
                    (PoolAllocator.pools this))
        /\ (Forall (fun q => PoolAllocator.blockSize q < size)
                   (PoolAllocator.pools this) ->
            PoolAllocator.Allocate this size alignment h
            = Throw (runtime_error "No suitable pool found"))
        /\ (forall (before after : list PoolAllocator.Pool) (pool : PoolAllocator.Pool),
              PoolAllocator.pools this = before ++ pool :: after ->
              Forall (fun q => PoolAllocator.blockSize q < size) before ->
              size <= PoolAllocator.blockSize pool ->
              PoolAllocator.freeList pool = nullptr ->
              PoolAllocator.Allocate this size alignment h
              = Ret ((nullptr, this), h))).
Proof.
  intros size alignment h. split; [|split; [|split]].
  - intros this. split.
    + apply linear_Allocate_never_throws.
    + intros Ha Hs Ho Hno Hroom. apply linear_Allocate_no_room; assumption.
  - intros this. split.
    + apply stack_Allocate_never_throws.
    + intros Ha Hs Ho Hno Hroom. apply stack_Allocate_no_room; assumption.
  - intros fuel this. split.
    + apply freelist_Allocate_loop_no_throw.
    + intros n Hpow Hs Hsno Hfits Hfuel. unfold FreeListAllocator.Allocate.
      eapply freelist_Allocate_loop_exhausted; [|exact Hfuel].
      apply freelist_no_block_fits_too_small; assumption.
  - intros this. split; [split|split].
    + apply pool_Allocate_throws_inv.
    + intros HF. rewrite pool_Allocate_no_class by exact HF. exact I.
    + apply pool_Allocate_no_class.
    + intros before after pool Hps Hsmall Hfit Hempty.
      eapply pool_Allocate_class_empty; eassumption.
Qed.

(** A linear allocator of 128 bytes with 104 in use refuses 40 more by
    returning null; a pool allocator whose only class has blocks of 32 bytes
    answers a request of 64 bytes with the exception. *)
Lemma Allocate_exhaustion_outcomes_witness :
  let lin := LinearAllocator.Build 4096 128 104 "LinearAllocator" false 104 1 in
  let pool := PoolAllocator.Build [PoolAllocator.BuildPool 4096 32 4 4192]
                0 0 0 EmptyString false in
  LinearAllocator.Allocate lin 40 8 ∅ = Ret ((nullptr, lin), ∅)
  /\ PoolAllocator.Allocate pool 64 8 ∅
     = Throw (runtime_error "No suitable pool found").
Proof.
  intros lin pool. split.
  - destruct (Allocate_exhaustion_outcomes 40 8 ∅) as (Hlin & _).
    apply (Hlin lin); unfold lin;
      cbn [LinearAllocator.m_offset LinearAllocator.m_bufferSize];
      rewrite ?two_SIZE_BITS; lia.
  - destruct (Allocate_exhaustion_outcomes 64 8 ∅) as (_ & _ & _ & Hpool).
    apply (Hpool pool). repeat constructor.
Defined.

(** C2, as stated, fails: the pool allocator with the single class (32, 4),
    asked for 64 bytes, does not return null; the exception of [findPool]
    leaves [Allocate]. *)
Lemma pool_Allocate_oversize_throws :
  Scenario.run Scenario.pool_Allocate_oversize
  = Throw (runtime_error "No suitable pool found")
  /\ Scenario.run Scenario.pool_Allocate_oversize <> Ret nullptr.
Proof. split; vm_compute; [reflexivity | discriminate]. Qed.

(** C3, as amended.  Let [Allocate(size, alignment)], with [alignment] a
    power of two and [size > 0], return a non-null [p], in a state where the
    arithmetic of the call does not wrap around.
    - Free-list allocator: [p mod alignment = 0], and [p] is owned when the
      blocks of the freelist lie inside the buffer (which the allocator
      itself does not ensure in every state it reaches).
    - Linear and stack allocators: [p] is owned, and [p - m_buffer] is a
      multiple of [alignment], so that [p mod alignment = 0] when the address
      of the buffer is itself a multiple of [alignment].
    - Pool allocator: the call does not look at [alignment]; [p] is the head
      of the freelist of the selected class, and is owned when the freelists
      are chains inside their slabs. *)
Theorem Allocate_result_aligned_and_owned :
  forall (size alignment : Z),
  power_of_two alignment ->
  0 < size ->
  (forall (this this' : LinearAllocator.t) (p : ptr) (h h' : heap),
     0 <= LinearAllocator.m_offset this ->
     size_t_range (LinearAllocator.m_offset this
                   + LinearAllocator.padding_for this alignment + size) ->
     LinearAllocator.Allocate this size alignment h = Ret ((p, this'), h') ->
     p <> nullptr ->
     (p - LinearAllocator.m_buffer this) mod alignment = 0
     /\ (LinearAllocator.m_buffer this mod alignment = 0 -> p mod alignment = 0)
     /\ LinearAllocator.Owns this' p = true)
  /\ (forall (this this' : StackAllocator.t) (p : ptr) (h h' : heap),
        0 <= StackAllocator.m_offset this ->
        StackAllocator.m_offset this + size + alignment
          + StackAllocator.sizeof_AllocationHeader < 2 ^ SIZE_BITS ->
        StackAllocator.Allocate this size alignment h = Ret ((p, this'), h') ->
        p <> nullptr ->
        (p - StackAllocator.m_buffer this) mod alignment = 0
        /\ (StackAllocator.m_buffer this mod alignment = 0 -> p mod alignment = 0)
        /\ StackAllocator.Owns this' p = true)
  /\ (forall (fuel : nat) (this this' : FreeListAllocator.t) (p : ptr) (h h' : heap),
        FreeListAllocator.Allocate fuel this size alignment h = Ret ((p, this'), h') ->
        p <> nullptr ->
        p mod alignment = 0
        /\ (size + alignment + FreeListAllocator.sizeof_FreeBlock
              + FreeListAllocator.sizeof_AllocationHeader <= 2 ^ SIZE_BITS ->
            0 <= FreeListAllocator.m_buffer this ->
            FreeListAllocator.m_buffer this + FreeListAllocator.m_bufferSize this
              + alignment + FreeListAllocator.sizeof_FreeBlock
              + FreeListAllocator.sizeof_AllocationHeader <= 2 ^ SIZE_BITS ->
            FreeListAllocator.free_blocks_in_buffer this h ->
            FreeListAllocator.Owns this' p = true))
  /\ (forall (this this' : PoolAllocator.t) (p : ptr) (h h' : heap),
        PoolAllocator.Allocate this size alignment h = Ret ((p, this'), h') ->
        p <> nullptr ->
        (forall alignment' : Z,
           PoolAllocator.Allocate this size alignment' h = Ret ((p, this'), h'))
        /\ (exists (before after : list PoolAllocator.Pool) (pool : PoolAllocator.Pool),
              PoolAllocator.pools this = before ++ pool :: after
              /\ Forall (fun q => PoolAllocator.blockSize q < size) before
              /\ size <= PoolAllocator.blockSize pool
              /\ p = PoolAllocator.freeList pool)
        /\ (PoolAllocator.well_formed this h ->
            PoolAllocator.Owns this' p = true)).
Proof.
  intros size alignment Hpow Hsize.
  pose proof (power_of_two_range alignment Hpow) as Ha.
  split; [|split; [|split]].
  - intros this this' p h h' Ho Hno Heq Hp.
    pose proof (linear_Allocate_owned _ _ _ _ _ _ _ Heq Hp ltac:(lia) Hsize Ho Hno)
      as Hown.
    destruct (linear_Allocate_nonnull_inv _ _ _ _ _ _ _ Heq Hp)
      as (_ & _ & -> & _).
    pose proof (linear_Allocate_offset_aligned this alignment Ha) as Hal.
    assert (Hrel : (LinearAllocator.m_buffer this + LinearAllocator.m_offset this
                    + LinearAllocator.padding_for this alignment
                    - LinearAllocator.m_buffer this) mod alignment = 0).
    { rewrite <- Hal. f_equal. lia. }
    split; [exact Hrel|]. split; [|exact Hown].
    intros Hbase.
    rewrite <- Z.add_assoc, Z.add_mod, Hbase, Hal by lia. reflexivity.
  - intros this this' p h h' Ho Hno Heq Hp.
    pose proof (stack_Allocate_owned _ _ _ _ _ _ _ Heq Hp ltac:(lia) Hsize Ho Hno)
      as Hown.
    destruct (stack_Allocate_nonnull_inv _ _ _ _ _ _ _ Heq Hp)
      as (_ & _ & -> & _).
    assert (H16 : StackAllocator.sizeof_AllocationHeader = 16) by reflexivity.
    pose proof (stack_Allocate_offset_aligned this alignment Ha Ho ltac:(lia)) as Hal.
    assert (Hrel : (StackAllocator.m_buffer this + StackAllocator.m_offset this
                    + StackAllocator.sizeof_AllocationHeader
                    + StackAllocator.padding_for this alignment
                    - StackAllocator.m_buffer this) mod alignment = 0).
    { rewrite <- Hal. f_equal. lia. }
    split; [exact Hrel|]. split; [|exact Hown].
    intros Hbase.
    replace (StackAllocator.m_buffer this + StackAllocator.m_offset this
             + StackAllocator.sizeof_AllocationHeader
             + StackAllocator.padding_for this alignment)
      with (StackAllocator.m_buffer this
            + (StackAllocator.m_offset this + StackAllocator.sizeof_AllocationHeader
               + StackAllocator.padding_for this alignment)) by lia.
    rewrite Z.add_mod, Hbase, Hal by lia. reflexivity.
  - intros fuel this this' p h h' Heq Hp. split.
    + pose proof (freelist_Allocate_loop_post fuel this _ alignment nullptr
                    (FreeListAllocator.m_freeList this) h _ _ Heq) as Hpost.
      simpl in Hpost.
      destruct Hpost as [(Hnull & _)|(c & csize & _ & _ & _ & -> & _)];
        [contradiction|].
      apply freelist_alignedAddress_aligned. exact Hpow.
    + intros Hsno Hb Hno Hin.
      destruct (freelist_Allocate_owned fuel this this' size alignment p h h'
                  Hpow ltac:(lia) Hsno Hb Hno Hin Heq Hp) as (_ & _ & Hown).
      exact (Hown Hsize).
  - intros this this' p h h' Heq Hp. split; [|split].
    + intros alignment'. exact Heq.
    + unfold PoolAllocator.Allocate, PoolAllocator.findPool in Heq.
      destruct (PoolAllocator.findPool_from (PoolAllocator.pools this) 0 size)
        as [i|] eqn:Hfind; [|discriminate].
      destruct (findPool_from_Some _ _ _ _ Hfind)
        as (before & pool & after & Hps & -> & Hsmall & Hfit).
      exists before, after, pool. repeat split; try assumption.
      run_monad. cbn [Nat.add] in Heq. rewrite Hps in Heq.
      rewrite list_lookup_middle in Heq by reflexivity.
      destruct (Z.eqb_spec (PoolAllocator.freeList pool) nullptr) as [Hnull|Hhead].
      { inversion Heq; subst. contradiction. }
      destruct (Mem.read_le h word_bytes
                  (PoolAllocator.freeList pool + PoolAllocator.offsetof_next));
        [|discriminate].
      inversion Heq. reflexivity.
    + intros Hwf. eapply pool_Allocate_owned; eassumption.
Qed.

(** A linear allocator at the aligned address 4096 serves 8 bytes aligned to
    32 at an address that is a multiple of 32 and that it owns. *)
Lemma Allocate_result_aligned_and_owned_witness :
  let this := LinearAllocator.create 4096 128 in
  exists (p : ptr) (this' : LinearAllocator.t),
    LinearAllocator.Allocate this 8 32 ∅ = Ret ((p, this'), ∅)
    /\ p mod 32 = 0
    /\ LinearAllocator.Owns this' p = true.
Proof.
  intros this. eexists _, _. split; [vm_compute; reflexivity|].
  assert (Hpow : power_of_two 32).
  { exists 5. split; [unfold SIZE_BITS; lia | reflexivity]. }
  destruct (Allocate_result_aligned_and_owned 8 32 Hpow ltac:(lia)) as (Hlin & _).
  destruct (Hlin this
              (LinearAllocator.Build 4096 128 8 "LinearAllocator" false 8 1)
              4096 ∅ ∅) as (_ & Hal & Hown).
  - simpl. lia.
  - vm_compute. split; [discriminate | reflexivity].
  - vm_compute. reflexivity.
  - discriminate.
  - split; [apply Hal; reflexivity | exact Hown].
Defined.

(** C3, as stated, fails in four ways.  The pool allocator with the single
    class (32, 4), asked for 20 bytes aligned to 64, returns 4192, which is
    not a multiple of 64.  A linear allocator whose buffer starts at 4112,
    asked for 8 bytes aligned to 32, returns 4112, which is not a multiple of
    32.  A linear allocator asked for 0 bytes returns a non-null address that
    it does not own.  A free-list allocator of 640 bytes at 4096, after
    [Allocate(100, 512)] and [Free] of the result (the padding of 496 bytes
    is stored in one byte as 240, so that [Free] puts a block of 612 bytes at
    4352), returns 4384 for [Allocate(400, 8)] and then 4816 for
    [Allocate(100, 8)]: an address past the end of the buffer at 4736, which
    it does not own. *)
Lemma Allocate_result_not_aligned_or_not_owned :
  (Scenario.run Scenario.pool_Allocate_aligned_64 = Ret 4192
   /\ 4192 mod 64 <> 0)
  /\ (exists this' : LinearAllocator.t,
        LinearAllocator.Allocate (LinearAllocator.create 4112 128) 8 32 ∅
        = Ret ((4112, this'), ∅)
        /\ 4112 mod 32 <> 0)
  /\ (exists this' : LinearAllocator.t,
        LinearAllocator.Allocate (LinearAllocator.create 4096 128) 0 8 ∅
        = Ret ((4096, this'), ∅)
        /\ 4096 <> nullptr
        /\ LinearAllocator.Owns this' 4096 = false)
  /\ (Scenario.run (Scenario.freelist_Allocate_after_wide_alignment 8)
      = Ret (4608, 4384, 4816, false)
      /\ 4816 <> nullptr
      /\ 4096 + 640 <= 4816).
Proof.
  split; [|split; [|split]].
  - split; [vm_compute; reflexivity | vm_compute; discriminate].
  - eexists. split; [vm_compute; reflexivity | vm_compute; discriminate].
  - eexists. split; [vm_compute; reflexivity|].
    split; [discriminate | reflexivity].
  - split; [vm_compute; reflexivity|]. split; [discriminate | lia].
Qed.

(** C4.  Scenario S3 on a buffer of 1024 bytes, at any address that is a
    multiple of 8 and with any bound of at least two steps on the walks of
    the freelist: the calls all return; after the three allocations and the
    frees in the order b, a, c the freelist is the single block at the start
    of the buffer, of size 1024 and with no successor; and [Allocate(900, 8)]
    then returns a non-null address, the one the first allocation had
    returned. *)
Theorem freelist_S3_coalesces :
  forall (buffer : ptr) (fuel : nat) (h : heap),
  0 < buffer ->
  buffer mod 8 = 0 ->
  buffer + 1024 + 64 <= 2 ^ SIZE_BITS ->
  (2 <= fuel)%nat ->
  returns_with (Scenario.freelist_S3 buffer fuel) h
    (fun r _ =>
       exists (a b c d : ptr),
         r = (a, b, c, d, (buffer, 1024, nullptr), (1024, 1024, 1))
         /\ d <> nullptr /\ d = a).
Proof.
  intros buffer fuel h Hb Hb8 Hno Hfuel.
  assert (Hq : buffer = 8 * (buffer / 8)).
  { pose proof (Z.div_mod buffer 8). lia. }
  rewrite Hq.
  eapply returns_with_weaken;
    [|apply (freelist_S3_symbolic (buffer / 8) fuel h); lia].
  intros r _ ->.
  exists (8 * (buffer / 8) + 32), (8 * (buffer / 8) + 264),
         (8 * (buffer / 8) + 496), (8 * (buffer / 8) + 32).
  rewrite <- Hq. split; [reflexivity|].
  split; [unfold nullptr; lia | reflexivity].
Qed.

(** The scenario with the buffer at address 4096 and walks of at most 8
    steps, started in empty memory. *)
Lemma freelist_S3_coalesces_witness :
  Scenario.run (Scenario.freelist_S3 4096 8)
  = Ret (4128, 4360, 4592, 4128, (4096, 1024, nullptr), (1024, 1024, 1)).
Proof.
  destruct (freelist_S3_coalesces 4096 8 ∅)
    as (r & h' & Hrun & a & b & c & d & Hr & Hd & Hda);
    [lia | reflexivity | vm_compute; discriminate | lia |].
  unfold Scenario.run. rewrite Hrun. subst r.
  assert (Hval : Ret ((a, b, c, d, (4096, 1024, nullptr), (1024, 1024, 1)), h')
                 = Scenario.freelist_S3 4096 8 ∅) by (symmetry; exact Hrun).
  assert (Hfst : Scenario.run (Scenario.freelist_S3 4096 8)
                 = Ret (4128, 4360, 4592, 4128, (4096, 1024, nullptr), (1024, 1024, 1)))
    by (vm_compute; reflexivity).
  unfold Scenario.run in Hfst. rewrite Hrun in Hfst. exact Hfst.
Defined.




(** C6.  [Allocate] of the pool allocator serves a request from the first
    pool, in declared order, whose block size is at least the requested size.
    If that pool's freelist is empty the call returns null and changes
    nothing, whatever the later pools hold; otherwise it returns the head of
    that freelist and the total allocated grows by the block size of the
    pool, not by the requested size. *)
Theorem pool_Allocate_first_class :
  forall (this : PoolAllocator.t) (before after : list PoolAllocator.Pool)
         (pool : PoolAllocator.Pool) (size alignment : Z) (h : heap),
  PoolAllocator.pools this = before ++ pool :: after ->
  Forall (fun q => PoolAllocator.blockSize q < size) before ->
  size <= PoolAllocator.blockSize pool ->
  PoolAllocator.findPool this size h = Ret (length before, h)
  /\ (PoolAllocator.freeList pool = nullptr ->
      PoolAllocator.Allocate this size alignment h = Ret ((nullptr, this), h))
  /\ (forall next : Z,
        PoolAllocator.freeList pool <> nullptr ->
        Mem.read_le h word_bytes
          (PoolAllocator.freeList pool + PoolAllocator.offsetof_next) = Some next ->
        exists this' : PoolAllocator.t,
          PoolAllocator.Allocate this size alignment h
            = Ret ((PoolAllocator.freeList pool, this'), h)
          /\ PoolAllocator.pools this'
             = before ++ PoolAllocator.set_freeList pool next :: after
          /\ PoolAllocator.GetTotalAllocated this'
             = wrap (PoolAllocator.GetTotalAllocated this
                     + PoolAllocator.blockSize pool)
          /\ (size_t_range (PoolAllocator.GetTotalAllocated this
                            + PoolAllocator.blockSize pool) ->
              PoolAllocator.GetTotalAllocated this'
              = PoolAllocator.GetTotalAllocated this
                + PoolAllocator.blockSize pool)).
Proof.
  intros this before after pool size alignment h Hps Hsmall Hfit.
  split; [|split].
  - unfold PoolAllocator.findPool.
    rewrite Hps, (findPool_from_first before pool after 0 size Hsmall Hfit).
    reflexivity.
  - intros Hempty. eapply pool_Allocate_class_empty; eassumption.
  - intros next Hhead Hnext. eexists. split.
    + eapply pool_Allocate_class_pop; eassumption.
    + simpl. repeat split. intros Hrange. apply wrap_small. exact Hrange.
Qed.

(** Scenario S5: with the classes (32, 4) and (128, 2), a request of 20
    bytes is served from the class of 32 and counts as 32 bytes; and with
    that class exhausted a request of 32 bytes returns null although the
    class of 128 has idle blocks. *)
Lemma pool_Allocate_first_class_witness :
  let this := PoolAllocator.Build
                [PoolAllocator.BuildPool 4096 32 4 4192;
                 PoolAllocator.BuildPool 8192 128 2 8320]
                0 0 0 EmptyString false in
  let full := PoolAllocator.Build
                [PoolAllocator.BuildPool 4096 32 4 nullptr;
                 PoolAllocator.BuildPool 8192 128 2 8320]
                128 128 4 EmptyString false in
  exists (this' : PoolAllocator.t) (h : heap),
    PoolAllocator.create [(32, 4); (128, 2)] [4096; 8192] ∅ = Ret (this, h)
    /\ PoolAllocator.Allocate this 20 8 h = Ret ((4192, this'), h)
    /\ PoolAllocator.GetTotalAllocated this' = 32
    /\ PoolAllocator.GetAllocationSize this' 4192 = 32
    /\ PoolAllocator.Allocate full 32 8 h = Ret ((nullptr, full), h).
Proof.
  intros this full.
  assert (E : exists h : heap,
             PoolAllocator.create [(32, 4); (128, 2)] [4096; 8192] ∅ = Ret (this, h)
             /\ Mem.read_le h word_bytes (4192 + PoolAllocator.offsetof_next)
                = Some 4160)
    by (eexists; split; vm_compute; reflexivity).
  destruct E as (h & Ecreate & Hread).
  destruct (pool_Allocate_first_class this []
              [PoolAllocator.BuildPool 8192 128 2 8320]
              (PoolAllocator.BuildPool 4096 32 4 4192) 20 8 h)
    as (_ & _ & Hpop); [reflexivity | constructor | vm_compute; discriminate |].
  destruct (Hpop 4160) as (this' & Heq & Hps & _ & Htotal);
    [discriminate | exact Hread |].
  destruct (pool_Allocate_first_class full []
              [PoolAllocator.BuildPool 8192 128 2 8320]
              (PoolAllocator.BuildPool 4096 32 4 nullptr) 32 8 h)
    as (_ & Hnull & _); [reflexivity | constructor | vm_compute; discriminate |].
  exists this', h.
  split; [exact Ecreate|].
  split; [exact Heq|].
  split; [apply Htotal; vm_compute; split; [discriminate | reflexivity]|].
  split; [unfold PoolAllocator.GetAllocationSize; rewrite Hps; reflexivity|].
  apply Hnull. reflexivity.
Defined.

(** The linear, stack and pool allocators answer 0 for every pointer they
    do not own. *)
Lemma bump_and_pool_size_zero_when_not_owned :
  IAllocator.size_zero_when_not_owned IAllocator.Linear
  /\ IAllocator.size_zero_when_not_owned IAllocator.Stack
  /\ IAllocator.size_zero_when_not_owned IAllocator.Pool.
Proof.
  split; [|split]; intros this p h Hown; cbn in *.
  - rewrite linear_GetAllocationSize_not_owned by exact Hown. reflexivity.
  - apply stack_GetAllocationSize_not_owned. exact Hown.
  - rewrite pool_GetAllocationSize_not_owned by exact Hown. reflexivity.
Qed.

(** C7 (the code departs from the claim).  [GetAllocationSize] of the
    free-list allocator does not test ownership: for a pointer that another
    allocator handed out it returns that block's size, 200, and for the
    address one past the end of its own buffer it returns 2^64 - 16, while
    [Owns] is false for both.  So the free-list allocator, with any bound on
    its walks, breaks the contract that its three siblings keep. *)
Theorem freelist_GetAllocationSize_not_owned :
  Scenario.run (Scenario.freelist_size_of_foreign_pointer 8)
  = Ret (8224, false, 200)
  /\ Scenario.run (Scenario.freelist_size_of_end_pointer 8)
     = Ret (4128, false, 2 ^ 64 - 16)
  /\ forall fuel : nat,
       ~ IAllocator.size_zero_when_not_owned (IAllocator.FreeList fuel).
Proof.
  split; [vm_compute; reflexivity|].
  split; [vm_compute; reflexivity|].
  intros fuel Hcontract.
  specialize (Hcontract
                (FreeListAllocator.Build 4096 1024 4096 "FreeListAllocator" false 0 0 0)
                8224
                (Mem.write_le (Mem.write_le ∅ word_bytes 8208 232) 1 8216 16)
                eq_refl).
  vm_compute in Hcontract. discriminate.
Qed.

(** C8.  When [Allocate] of the linear or of the stack allocator fails
    because the new offset would exceed the buffer size, it returns null and
    the object (offset, allocation count, peak usage and every other member)
    and the memory are exactly those before the call; and a null result of
    an allocator with a non-null buffer comes from that path only. *)
Theorem bump_Allocate_exhausted_unchanged :
  forall (size alignment : Z) (h : heap),
  0 < alignment ->
  (forall this : LinearAllocator.t,
     (LinearAllocator.newOffset_for this size alignment
        > LinearAllocator.m_bufferSize this ->
      LinearAllocator.Allocate this size alignment h = Ret ((nullptr, this), h))
     /\ (forall (this' : LinearAllocator.t) (h' : heap),
           0 < LinearAllocator.m_buffer this ->
           0 <= LinearAllocator.m_offset this ->
           LinearAllocator.Allocate this size alignment h = Ret ((nullptr, this'), h') ->
           this' = this /\ h' = h))
  /\ (forall this : StackAllocator.t,
        (StackAllocator.newOffset_for this size alignment
           > StackAllocator.m_bufferSize this ->
         StackAllocator.Allocate this size alignment h = Ret ((nullptr, this), h))
        /\ (forall (this' : StackAllocator.t) (h' : heap),
              0 < StackAllocator.m_buffer this ->
              0 <= StackAllocator.m_offset this ->
              StackAllocator.Allocate this size alignment h = Ret ((nullptr, this'), h') ->
              this' = this /\ h' = h)).
Proof.
  intros size alignment h Ha. split; intros this; split.
  - intros Hex. apply linear_Allocate_exhausted; [lia | assumption].
  - intros this' h' Hb Ho Heq.
    destruct (linear_Allocate_null_inv _ _ _ _ _ _ Ha Hb Ho Heq) as (_ & Hthis & Hh).
    split; assumption.
  - intros Hex. apply stack_Allocate_exhausted; [lia | assumption].
  - intros this' h' Hb Ho Heq.
    destruct (stack_Allocate_null_inv _ _ _ _ _ _ Ha Hb Ho Heq) as (_ & Hthis & Hh).
    split; assumption.
Qed.

(** Scenario S1: a linear allocator of 128 bytes that has served 100 bytes
    refuses 40 more and stays as it was; likewise a stack allocator. *)
Lemma bump_Allocate_exhausted_unchanged_witness :
  let lin := LinearAllocator.Build 4096 128 104 "LinearAllocator" false 104 1 in
  let stk := StackAllocator.Build 4096 128 116 "StackAllocator" false 116 1 [] in
  LinearAllocator.Allocate lin 40 8 ∅ = Ret ((nullptr, lin), ∅)
  /\ StackAllocator.Allocate stk 40 8 ∅ = Ret ((nullptr, stk), ∅).
Proof.
  intros lin stk.
  destruct (bump_Allocate_exhausted_unchanged 40 8 ∅ ltac:(lia)) as [Hl Hs].
  split; [apply (Hl lin) | apply (Hs stk)]; vm_compute; reflexivity.
Defined.

(** C9.  [Reset] of the linear and of the stack allocator zeroes the offset
    and the allocation count (and empties the marker stack) and leaves the
    peak usage as it was; [Reset] of the free-list allocator zeroes the peak
    usage as well; [Reset] of the pool allocator, like the first two, keeps
    it. *)
Theorem Reset_peak_usage :
  (forall this : LinearAllocator.t,
     LinearAllocator.m_offset (LinearAllocator.Reset this) = 0
     /\ LinearAllocator.GetAllocationCount (LinearAllocator.Reset this) = 0
     /\ LinearAllocator.GetPeakUsage (LinearAllocator.Reset this)
        = LinearAllocator.GetPeakUsage this)
  /\ (forall this : StackAllocator.t,
        StackAllocator.m_offset (StackAllocator.Reset this) = 0
        /\ StackAllocator.GetAllocationCount (StackAllocator.Reset this) = 0
        /\ StackAllocator.m_markers (StackAllocator.Reset this) = []
        /\ StackAllocator.GetPeakUsage (StackAllocator.Reset this)
           = StackAllocator.GetPeakUsage this)
  /\ (forall (this : FreeListAllocator.t) (h : heap),
        exists (this' : FreeListAllocator.t) (h' : heap),
          FreeListAllocator.Reset this h = Ret (this', h')
          /\ FreeListAllocator.GetTotalAllocated this' = 0
          /\ FreeListAllocator.GetAllocationCount this' = 0
          /\ FreeListAllocator.GetPeakUsage this' = 0)
  /\ (forall (this : PoolAllocator.t) (h : heap),
        exists (this' : PoolAllocator.t) (h' : heap),
          PoolAllocator.Reset this h = Ret (this', h')
          /\ PoolAllocator.GetTotalAllocated this' = 0
          /\ PoolAllocator.GetAllocationCount this' = 0
          /\ PoolAllocator.GetPeakUsage this' = PoolAllocator.GetPeakUsage this).
Proof.
  split; [|split; [|split]].
  - intros this. repeat split.
  - intros this. repeat split.
  - intros this h. eexists _, _. split; [reflexivity|]. repeat split.
  - intros this h.
    destruct (pool_Reset_pools_returns (PoolAllocator.pools this) h)
      as (ps' & h' & Hps).
    eexists _, _. split.
    + unfold PoolAllocator.Reset. run_monad. rewrite Hps. reflexivity.
    + repeat split.
Qed.

(** C10.  A zero-size request to a linear allocator that still has room for
    the padding returns the non-null address [m_buffer + m_offset] of the
    state after the call; that address is not owned and has allocation size
    0 as long as the offset has not moved past it, and is owned once it
    has. *)
Theorem linear_Allocate_zero_size :
  forall (this : LinearAllocator.t) (alignment : Z) (h : heap),
  0 < alignment ->
  0 < LinearAllocator.m_buffer this ->
  0 <= LinearAllocator.m_offset this ->
  LinearAllocator.m_offset this + LinearAllocator.padding_for this alignment
    <= LinearAllocator.m_bufferSize this ->
  LinearAllocator.m_bufferSize this < 2 ^ SIZE_BITS ->
  exists (p : ptr) (this' : LinearAllocator.t),
    LinearAllocator.Allocate this 0 alignment h = Ret ((p, this'), h)
    /\ p <> nullptr
    /\ p = LinearAllocator.m_buffer this' + LinearAllocator.m_offset this'
    /\ (forall later : LinearAllocator.t,
          LinearAllocator.m_buffer later = LinearAllocator.m_buffer this' ->
          LinearAllocator.m_offset later <= LinearAllocator.m_offset this' ->
          LinearAllocator.Owns later p = false
          /\ LinearAllocator.GetAllocationSize later p = 0)
    /\ (forall later : LinearAllocator.t,
          LinearAllocator.m_buffer later = LinearAllocator.m_buffer this' ->
          LinearAllocator.m_offset this' < LinearAllocator.m_offset later ->
          LinearAllocator.Owns later p = true).
Proof.
  intros this alignment h Ha Hb Ho Hroom Hbs.
  pose proof (linear_padding_nonneg this alignment Ha) as Hpad.
  assert (Hnew : LinearAllocator.newOffset_for this 0 alignment
                 = LinearAllocator.m_offset this
                   + LinearAllocator.padding_for this alignment).
  { unfold LinearAllocator.newOffset_for.
    rewrite wrap_small by (unfold size_t_range; lia). lia. }
  eexists _, _. split.
  { apply linear_Allocate_fits; lia. }
  simpl. rewrite Hnew.
  split; [unfold nullptr; lia|].
  split; [lia|].
  split.
  - intros later Hlb Hlo.
    assert (Hown : LinearAllocator.Owns later
                     (LinearAllocator.m_buffer this + LinearAllocator.m_offset this
                      + LinearAllocator.padding_for this alignment) = false).
    { apply not_true_is_false. rewrite linear_Owns_iff. lia. }
    split; [exact Hown|].
    apply linear_GetAllocationSize_not_owned. exact Hown.
  - intros later Hlb Hlo. apply linear_Owns_iff. lia.
Qed.

Lemma linear_Allocate_zero_size_witness :
  let this := LinearAllocator.Build 4096 128 100 "LinearAllocator" false 100 1 in
  exists (p : ptr) (this' : LinearAllocator.t),
    LinearAllocator.Allocate this 0 8 ∅ = Ret ((p, this'), ∅)
    /\ p = 4200
    /\ LinearAllocator.m_offset this' = 104
    /\ LinearAllocator.Owns this' p = false
    /\ LinearAllocator.GetAllocationSize this' p = 0.
Proof.
  intros this.
  destruct (linear_Allocate_zero_size this 8 ∅)
    as (p & this' & Heq & Hp & Hpeq & Hstay & Hpast);
    [lia | simpl; lia | simpl; lia | vm_compute; discriminate | vm_compute; reflexivity |].
  assert (Hval : Ret ((p, this'), (∅ : heap))
                 = Ret ((4200, LinearAllocator.Build 4096 128 104 "LinearAllocator"
                                 false 104 2), ∅))
    by (rewrite <- Heq; vm_compute; reflexivity).
  inversion Hval; subst p this'.
  exists 4200, (LinearAllocator.Build 4096 128 104 "LinearAllocator" false 104 2).
  split; [exact Heq|].
  split; [reflexivity|].
  split; [reflexivity|].
  apply Hstay; simpl; [reflexivity | lia].
Defined.

(** * Further properties *)

(** ** Memory and arithmetic *)

(** What [memcpy] leaves at each address. *)
Lemma copy_lookup (n : nat) : forall (h0 h : heap) (dst src a : Z),
  Mem.copy h0 h n dst src !! a
  = if bool_decide (dst <= a < dst + Z.of_nat n) then h0 !! (src + (a - dst))
    else h !! a.
Proof.
  induction n as [|n IH]; intros h0 h dst src a; cbn [Mem.copy].
  - rewrite bool_decide_eq_false_2 by lia. reflexivity.
  - rewrite IH. rewrite Nat2Z.inj_succ.
    destruct (decide (a = dst)) as [->|Hne].
    + rewrite bool_decide_eq_false_2 by lia.
      rewrite bool_decide_eq_true_2 by lia.
      replace (src + (dst - dst)) with src by lia.
      destruct (h0 !! src); [apply lookup_insert_eq | apply lookup_delete_eq].
    + assert (Hh : (match h0 !! src with
                    | Some b => <[dst:=b]> h
                    | None => delete dst h
                    end) !! a = h !! a).
      { destruct (h0 !! src);
          [apply lookup_insert_ne | apply lookup_delete_ne]; congruence. }
      destruct (decide (dst + 1 <= a < dst + 1 + Z.of_nat n)).
      * rewrite !bool_decide_eq_true_2 by lia. f_equal. lia.
      * rewrite !bool_decide_eq_false_2 by lia. exact Hh.
Qed.


Lemma wrap_add_sub (a b : Z) : size_t_range a -> wrap (wrap (a + b) - b) = a.
Proof.
  intros Ha. unfold wrap. rewrite Zminus_mod_idemp_l.
  replace (a + b - b) with a by lia. apply Z.mod_small. exact Ha.
Qed.

Lemma wrap_add_wrap (a b : Z) : wrap (a + wrap b) = wrap (a + b).
Proof. unfold wrap. apply Zplus_mod_idemp_r. Qed.

(** ** The linear allocator *)

Section LinearFurther.
Import LinearAllocator.

Lemma linear_Allocate_within (buffer bufferSize : Z) (this this' : t)
    (size alignment p : Z) (h h' : heap) :
  Shape.linear_within buffer bufferSize this ->
  Allocate this size alignment h = Ret ((p, this'), h') ->
  Shape.linear_within buffer bufferSize this'.
Proof.
  intros (Hb & Hbs & Ho & Hp). unfold Allocate.
  destruct (alignment =? 0); [discriminate|].
  destruct (Z.gtb_spec (newOffset_for this size alignment) (m_bufferSize this))
    as [Hgt|Hle]; intros Heq; injection Heq as _ <- _.
  - repeat split; auto; lia.
  - pose proof (wrap_range (m_offset this + padding_for this alignment + size)) as Hr.
    unfold size_t_range in Hr.
    unfold Shape.linear_within, newOffset_for in *. simpl.
    repeat split; auto; lia.
Qed.

Lemma linear_do_within (buffer bufferSize : Z) (c : Calls.linear_call)
    (this this' : t) (h h' : heap) :
  Shape.linear_within buffer bufferSize this ->
  Calls.linear_do this c h = Ret (this', h') ->
  Shape.linear_within buffer bufferSize this'.
Proof.
  intros Hinv. destruct c as [size al|p|p n al|]; cbn [Calls.linear_do].
  - run_monad.
    destruct (Allocate this size al h) as [[[p this1] h1]| | |] eqn:E;
      try discriminate.
    intros Heq; injection Heq as <- <-.
    eapply linear_Allocate_within; eassumption.
  - intros Heq; injection Heq as <- <-. exact Hinv.
  - unfold Reallocate. run_monad.
    destruct (Allocate this n al h) as [[[q this1] h1]| | |] eqn:E;
      try discriminate.
    pose proof (linear_Allocate_within _ _ _ _ _ _ _ _ _ Hinv E) as Hinv1.
    destruct (negb (q =? nullptr) && negb (p =? nullptr)).
    + unfold memcpy. destruct (overlap _ _ _); [discriminate|].
      intros Heq; injection Heq as <- <-; exact Hinv1.
    + intros Heq; injection Heq as <- <-; exact Hinv1.
  - intros Heq; injection Heq as <- <-.
    destruct Hinv as (Hb & Hbs & Ho & Hp).
    unfold Shape.linear_within. simpl. repeat split; auto; lia.
Qed.

(** X1.  Whatever calls of [Allocate], [Free], [Reallocate] and [Reset] a
    client makes on a linear allocator constructed over a buffer of
    [bufferSize] bytes, and whatever their arguments (sizes that make the
    offset arithmetic wrap around included), when they have returned
    [ValidateInternalState] holds, the used space is at most the peak usage,
    the peak usage is at most [bufferSize], and the buffer is the one the
    constructor was given. *)
Theorem linear_calls_stay_within_buffer (buffer bufferSize : Z)
    (cs : list Calls.linear_call) (this : t) (h h' : heap) :
  0 <= bufferSize ->
  Calls.linear_run (create buffer bufferSize) cs h = Ret (this, h') ->
  ValidateInternalState this = true
  /\ 0 <= GetTotalAllocated this <= GetPeakUsage this
  /\ GetPeakUsage this <= bufferSize
  /\ m_buffer this = buffer
  /\ m_bufferSize this = bufferSize.
Proof.
  intros Hbs Hrun.
  assert (Hinv : Shape.linear_within buffer bufferSize this).
  { assert (H0 : Shape.linear_within buffer bufferSize (create buffer bufferSize))
      by (unfold Shape.linear_within; simpl; repeat split; auto; lia).
    revert Hrun H0. generalize (create buffer bufferSize) as this0.
    revert h. induction cs as [|c cs IH]; intros h this0 Hrun H0.
    - injection Hrun as <- <-. exact H0.
    - cbn [Calls.linear_run] in Hrun. run_monad.
      destruct (Calls.linear_do this0 c h) as [[this1 h1]| | |] eqn:E; try discriminate.
      eapply IH; [exact Hrun|]. eapply linear_do_within; eassumption. }
  destruct Hinv as (Hb & Hbs' & Ho & Hp).
  unfold ValidateInternalState, GetTotalAllocated, GetPeakUsage.
  repeat split; auto; lia.
Qed.

(** A buffer of 128 bytes at address 4096: an allocation, one whose size
    wraps the offset around, a reallocation, a reset and an allocation of
    the whole buffer. *)
Lemma linear_calls_stay_within_buffer_witness :
  let cs := [Calls.LAllocate 100 8; Calls.LAllocate (2 ^ 64 - 60) 1;
             Calls.LReallocate 4100 40 16; Calls.LReset; Calls.LAllocate 128 1] in
  exists this : t,
    Calls.linear_run (create 4096 128) cs ∅ = Ret (this, ∅)
    /\ ValidateInternalState this = true
    /\ GetTotalAllocated this = 128.
Proof.
  intros cs.
  assert (E : exists this : t,
             Calls.linear_run (create 4096 128) cs ∅ = Ret (this, ∅)
             /\ GetTotalAllocated this = 128)
    by (eexists; split; vm_compute; reflexivity).
  destruct E as (this & E & Htotal). exists this.
  split; [exact E|]. split; [|exact Htotal].
  apply (linear_calls_stay_within_buffer 4096 128 cs this ∅ ∅); [lia | exact E].
Defined.

Lemma linear_newOffset_exact (this : t) (size alignment : Z) :
  0 < alignment -> 0 <= size -> 0 <= m_offset this ->
  m_offset this + size + alignment < 2 ^ SIZE_BITS ->
  newOffset_for this size alignment
  = m_offset this + padding_for this alignment + size.
Proof.
  intros Ha Hs Ho Hno. pose proof (linear_padding_nonneg this alignment Ha).
  unfold newOffset_for. apply wrap_small. unfold size_t_range. lia.
Qed.

(** X2.  [GetAllocationSize] of the linear allocator measures from the
    pointer to the end of the used space.  On an allocator whose offset is
    within its buffer, and for requests that do not wrap around (positive
    alignments, a first size above 0, and
    [m_bufferSize + size + alignment < 2^64] for each request): for the
    block that [Allocate] has just returned it is the requested size, and
    after a further successful allocation it is the distance to the later
    block plus the size of that block, which is not less than the size the
    first block was requested with. *)
Theorem linear_GetAllocationSize_spans_later_allocations
    (this this1 this2 : t) (size1 alignment1 size2 alignment2 p1 p2 : Z)
    (h h1 h2 : heap) :
  0 < alignment1 -> 0 < alignment2 -> 0 < size1 -> 0 <= size2 ->
  0 <= m_offset this <= m_bufferSize this ->
  m_bufferSize this + size1 + alignment1 < 2 ^ SIZE_BITS ->
  m_bufferSize this + size2 + alignment2 < 2 ^ SIZE_BITS ->
  Allocate this size1 alignment1 h = Ret ((p1, this1), h1) ->
  p1 <> nullptr ->
  GetAllocationSize this1 p1 = size1
  /\ (Allocate this1 size2 alignment2 h1 = Ret ((p2, this2), h2) ->
      p2 <> nullptr ->
      GetAllocationSize this2 p1 = (p2 - p1) + size2
      /\ size1 <= p2 - p1).
Proof.
  intros Ha1 Ha2 Hs1 Hs2 Ho Hno1 Hno2 Heq1 Hp1.
  destruct (linear_Allocate_nonnull_inv _ _ _ _ _ _ _ Heq1 Hp1)
    as (_ & Hfit1 & -> & Ho1 & Hb1 & _).
  pose proof (linear_padding_nonneg this alignment1 Ha1) as Hpad1.
  rewrite linear_newOffset_exact in Ho1, Hfit1 by lia.
  split.
  - unfold GetAllocationSize. rewrite Ho1, Hb1.
    destruct (Z.ltb_spec (m_buffer this + m_offset this + padding_for this alignment1)
                (m_buffer this)); [lia|].
    destruct (Z.geb_spec (m_buffer this + m_offset this + padding_for this alignment1)
                (m_buffer this + (m_offset this + padding_for this alignment1 + size1)));
      [lia|].
    simpl. rewrite wrap_small by (unfold size_t_range; lia). lia.
  - intros Heq2 Hp2.
    destruct (linear_Allocate_nonnull_inv _ _ _ _ _ _ _ Heq2 Hp2)
      as (_ & Hfit2 & -> & Ho2 & Hb2 & _).
    pose proof (linear_padding_nonneg this1 alignment2 Ha2) as Hpad2.
    assert (Hbs1 : m_bufferSize this1 = m_bufferSize this).
    { rewrite linear_Allocate_fits in Heq1
        by (rewrite ?linear_newOffset_exact by lia; lia).
      injection Heq1 as <- _. reflexivity. }
    rewrite linear_newOffset_exact in Ho2, Hfit2 by lia.
    unfold GetAllocationSize. rewrite Ho2, Hb2, Hb1, Ho1.
    destruct (Z.ltb_spec (m_buffer this + m_offset this + padding_for this alignment1)
                (m_buffer this)); [lia|].
    destruct (Z.geb_spec (m_buffer this + m_offset this + padding_for this alignment1)
                (m_buffer this + (m_offset this + padding_for this alignment1 + size1
                                  + padding_for this1 alignment2 + size2)));
      [lia|].
    simpl. rewrite wrap_small by (unfold size_t_range; lia). lia.
Qed.

(** A block of 10 bytes, then one of 20 bytes aligned to 8: the first block
    is reported as 10 bytes, then as 36. *)
Lemma linear_GetAllocationSize_spans_later_allocations_witness :
  let this := create 4096 128 in
  let this1 := Build 4096 128 10 "LinearAllocator" false 10 1 in
  let this2 := Build 4096 128 36 "LinearAllocator" false 36 2 in
  Allocate this 10 8 ∅ = Ret ((4096, this1), ∅)
  /\ Allocate this1 20 8 ∅ = Ret ((4112, this2), ∅)
  /\ GetAllocationSize this1 4096 = 10
  /\ GetAllocationSize this2 4096 = 36.
Proof.
  intros this this1 this2.
  assert (E1 : Allocate this 10 8 ∅ = Ret ((4096, this1), ∅)) by reflexivity.
  assert (E2 : Allocate this1 20 8 ∅ = Ret ((4112, this2), ∅)) by reflexivity.
  split; [exact E1|]. split; [exact E2|].
  destruct (linear_GetAllocationSize_spans_later_allocations
              this this1 this2 10 8 20 8 4096 4112 ∅ ∅ ∅) as [H1 H2];
    [lia | lia | lia | lia | unfold this; simpl; lia
    | rewrite two_SIZE_BITS; unfold this; simpl; lia
    | rewrite two_SIZE_BITS; unfold this; simpl; lia | exact E1 | discriminate |].
  split; [exact H1|].
  destruct (H2 E2) as [H3 _]; [discriminate | exact H3].
Defined.

(** X3.  [Reallocate] of the linear allocator, given a pointer into the
    used space and a new size that fits (on an allocator whose buffer is not
    at address 0 and whose offset is within the buffer, with a positive
    alignment and [m_bufferSize + newSize + alignment < 2^64]), allocates a
    new block at the top and calls [memcpy] for exactly [newSize] bytes
    starting at the old pointer: the size it takes for the old block reaches
    to the end of the new one.  When [newSize] is at most the distance from
    the old pointer to the new block, the copy is made: byte [i] of the new
    block is byte [i] after the old pointer, the old block stays owned, and
    no other byte changes.  When [newSize] is larger, as it is whenever the
    last block is grown past the padding that follows it, the source and the
    destination of the [memcpy] overlap and the behaviour of the call is
    undefined. *)
Theorem linear_Reallocate_copies_newSize (this : t) (p newSize alignment : Z)
    (h : heap) :
  0 < alignment -> 0 <= newSize ->
  0 < m_buffer this ->
  0 <= m_offset this <= m_bufferSize this ->
  m_bufferSize this + newSize + alignment < 2 ^ SIZE_BITS ->
  Owns this p = true ->
  newOffset_for this newSize alignment <= m_bufferSize this ->
  let newPtr := m_buffer this + m_offset this + padding_for this alignment in
  (newSize <= newPtr - p ->
   exists (this' : t) (h' : heap),
     Reallocate this p newSize alignment h = Ret ((newPtr, this'), h')
     /\ m_offset this' = m_offset this + padding_for this alignment + newSize
     /\ Owns this' p = true
     /\ (forall i, 0 <= i < newSize -> h' !! (newPtr + i) = h !! (p + i))
     /\ (forall a, a < newPtr \/ newPtr + newSize <= a -> h' !! a = h !! a))
  /\ (newPtr - p < newSize ->
      Reallocate this p newSize alignment h = Undefined).
Proof.
  intros Ha Hs Hb Ho Hno Hown Hfit newPtr.
  pose proof (linear_padding_nonneg this alignment Ha) as Hpad.
  apply linear_Owns_iff in Hown.
  unfold Reallocate. run_monad.
  rewrite linear_Allocate_fits by (auto; lia).
  rewrite linear_newOffset_exact in * by lia.
  fold newPtr.
  destruct (Z.eqb_spec newPtr nullptr) as [Hz|_];
    [unfold newPtr, nullptr in Hz; lia|].
  destruct (Z.eqb_spec p nullptr) as [Hz|_]; [unfold nullptr in Hz; lia|].
  cbn [negb andb].
  assert (Hsize : Z.min newSize
                    (GetAllocationSize
                       {| m_buffer := m_buffer this;
                          m_bufferSize := m_bufferSize this;
                          m_offset := m_offset this + padding_for this alignment + newSize;
                          m_name := m_name this;
                          m_threadSafe := m_threadSafe this;
                          m_peakUsage :=
                            Z.max (m_peakUsage this)
                              (m_offset this + padding_for this alignment + newSize);
                          m_allocationCount := wrap (m_allocationCount this + 1) |} p)
                  = newSize).
  { unfold GetAllocationSize. cbn [m_buffer m_offset].
    destruct (Z.ltb_spec p (m_buffer this)); [lia|].
    destruct (Z.geb_spec p (m_buffer this
                            + (m_offset this + padding_for this alignment + newSize)));
      [lia|].
    simpl. rewrite wrap_small by (unfold size_t_range; lia). lia. }
  rewrite Hsize. split; intros Hdist.
  - rewrite memcpy_disjoint by lia.
    eexists _, _. split; [reflexivity|]. cbn [m_offset].
    split; [reflexivity|].
    split; [apply linear_Owns_iff; cbn [m_buffer m_offset]; lia|].
    split.
    + intros i Hi. rewrite copy_lookup, bool_decide_eq_true_2 by lia.
      f_equal. lia.
    + intros a Hout. rewrite copy_lookup, bool_decide_eq_false_2 by lia.
      reflexivity.
  - rewrite memcpy_overlap by lia. reflexivity.
Qed.

(** A block of 4 bytes at the start of a buffer of 128 bytes.  Reallocated
    to 8 bytes aligned to 8, the new block is at offset 8 and bytes 0..7
    after the old pointer are copied, the byte 7 written at offset 5 among
    them.  Reallocated to 24 bytes, the copy would read the bytes 4096..4119
    and write the bytes 4104..4127: the call is undefined. *)
Lemma linear_Reallocate_copies_newSize_witness :
  let this := Build 4096 128 4 "LinearAllocator" false 4 1 in
  let h : heap := <[4101 := 7]> ∅ in
  (exists (this' : t) (h' : heap),
     Reallocate this 4096 8 8 h = Ret ((4104, this'), h')
     /\ m_offset this' = 16
     /\ h' !! 4109 = Some 7)
  /\ Reallocate this 4096 24 8 h = Undefined.
Proof.
  intros this h. split.
  - destruct (linear_Reallocate_copies_newSize this 4096 8 8 h)
      as [Hcopies _];
      [lia | lia | simpl; lia | simpl; lia | rewrite two_SIZE_BITS; simpl; lia
      | reflexivity | vm_compute; discriminate |].
    destruct Hcopies as (this' & h' & Hrun & Ho & _ & Hcopy & _);
      [vm_compute; discriminate|].
    exists this', h'. split; [exact Hrun|]. split; [exact Ho|].
    change 4109 with (4096 + 4 + 4 + 5).
    change (4096 + 4 + 4) with (m_buffer this + m_offset this + padding_for this 8).
    rewrite (Hcopy 5) by lia. vm_compute. reflexivity.
  - destruct (linear_Reallocate_copies_newSize this 4096 24 8 h)
      as [_ Hundefined];
      [lia | lia | simpl; lia | simpl; lia | rewrite two_SIZE_BITS; simpl; lia
      | reflexivity | vm_compute; discriminate |].
    apply Hundefined. vm_compute. reflexivity.
Defined.



End LinearFurther.

(** ** The stack allocator *)

Section StackFurther.
Import StackAllocator.
#[local] Opaque Mem.write_le Mem.read_le.

(** The two descriptor words that [Allocate] leaves below the address it
    returns. *)
Lemma stack_header_written_reads (this : t) (size alignment : Z) (h : heap) :
  0 < alignment -> size_t_range size ->
  alignment + sizeof_AllocationHeader < 2 ^ SIZE_BITS ->
  let p := m_buffer this + m_offset this + sizeof_AllocationHeader
           + padding_for this alignment in
  let h' := header_written this size alignment h in
  Mem.read_le h' word_bytes (p - sizeof_AllocationHeader + offsetof_size) = Some size
  /\ Mem.read_le h' word_bytes (p - sizeof_AllocationHeader + offsetof_adjustment)
     = Some (sizeof_AllocationHeader + padding_for this alignment).
Proof.
  intros Ha Hs Hno p h'. subst p h'. unfold header_written.
  pose proof (stack_padding_range this alignment Ha) as Hpad.
  assert (H16 : sizeof_AllocationHeader = 16) by reflexivity.
  assert (Hos : offsetof_size = 0) by reflexivity.
  assert (Hoa : offsetof_adjustment = 8) by reflexivity.
  assert (Hwb : Z.of_nat word_bytes = 8) by reflexivity.
  unfold size_t_range in Hs.
  split; simpl_wrap; read_through; reflexivity.
Qed.

(** [Free] of the block that [Allocate] has just returned puts the
    allocator back where it was, the peak usage apart. *)
Lemma stack_Free_after_Allocate (this this' : t) (size alignment p : Z)
    (h h' : heap) :
  0 < alignment -> 0 <= size ->
  0 <= m_offset this ->
  m_offset this + size + alignment + sizeof_AllocationHeader < 2 ^ SIZE_BITS ->
  size_t_range (m_allocationCount this) ->
  Allocate this size alignment h = Ret ((p, this'), h') ->
  p <> nullptr ->
  exists this'' : t,
    Free this' p h' = Ret (this'', h')
    /\ m_offset this'' = m_offset this
    /\ m_allocationCount this'' = m_allocationCount this
    /\ m_markers this'' = m_markers this
    /\ m_buffer this'' = m_buffer this
    /\ m_bufferSize this'' = m_bufferSize this
    /\ m_peakUsage this'' = Z.max (m_peakUsage this) (m_offset this').
Proof.
  intros Ha Hs Ho Hno Hcnt Heq Hp.
  destruct (stack_Allocate_nonnull_inv _ _ _ _ _ _ _ Heq Hp) as (Hal & Hfit & _).
  rewrite stack_Allocate_fits in Heq by assumption.
  injection Heq as <- <- <-.
  pose proof (stack_padding_range this alignment Ha) as Hpad.
  assert (H16 : sizeof_AllocationHeader = 16) by reflexivity.
  destruct (stack_header_written_reads this size alignment h Ha
              ltac:(unfold size_t_range; lia) ltac:(lia)) as [_ Hadj].
  cbv zeta in Hadj.
  unfold Free.
  destruct (Z.eqb_spec (m_buffer this + m_offset this + sizeof_AllocationHeader
                        + padding_for this alignment) nullptr) as [?|_];
    [contradiction|].
  run_monad. rewrite Hadj.
  eexists. split; [reflexivity|].
  cbn [set_offset set_allocationCount m_offset m_allocationCount m_markers m_buffer
       m_bufferSize m_peakUsage].
  replace (m_buffer this + m_offset this + sizeof_AllocationHeader
           + padding_for this alignment - m_buffer this
           - (sizeof_AllocationHeader + padding_for this alignment))
    with (m_offset this) by lia.
  rewrite wrap_small by (unfold size_t_range; lia).
  rewrite (wrap_add_sub _ 1) by exact Hcnt.
  repeat split.
Qed.


(** X5.  [Free] of the pointer that [Allocate] of the stack allocator has
    just returned reads the adjustment from the header below the pointer and
    rewinds: the offset, the allocation count, the markers and the buffer
    are those before the allocation, memory is left as the allocation left
    it, and only the peak usage keeps the trace of the block. *)
Theorem stack_Free_undoes_Allocate (this this' : t) (size alignment p : Z)
    (h h' : heap) :
  0 < alignment -> 0 <= size ->
  0 <= m_offset this ->
  m_offset this + size + alignment + sizeof_AllocationHeader < 2 ^ SIZE_BITS ->
  size_t_range (m_allocationCount this) ->
  Allocate this size alignment h = Ret ((p, this'), h') ->
  p <> nullptr ->
  exists this'' : t,
    Free this' p h' = Ret (this'', h')
    /\ m_offset this'' = m_offset this
    /\ m_allocationCount this'' = m_allocationCount this
    /\ m_markers this'' = m_markers this
    /\ m_buffer this'' = m_buffer this
    /\ m_bufferSize this'' = m_bufferSize this
    /\ m_peakUsage this'' = Z.max (m_peakUsage this) (m_offset this').
Proof. apply stack_Free_after_Allocate. Qed.

(** A block of 40 bytes aligned to 8 in a fresh buffer of 1024 bytes, and
    its release. *)
Lemma stack_Free_undoes_Allocate_witness :
  let this := create 4096 1024 in
  exists (this' this'' : t) (h' : heap),
    Allocate this 40 8 ∅ = Ret ((4112, this'), h')
    /\ Free this' 4112 h' = Ret (this'', h')
    /\ m_offset this'' = 0
    /\ m_allocationCount this'' = 0.
Proof.
  intros this.
  assert (E : exists (this' : t) (h' : heap),
             Allocate this 40 8 ∅ = Ret ((4112, this'), h'))
    by (eexists _, _; vm_compute; reflexivity).
  destruct E as (this' & h' & E).
  destruct (stack_Free_undoes_Allocate this this' 40 8 4112 ∅ h')
    as (this'' & Hfree & Ho & Hc & _);
    [lia | lia | simpl; lia | rewrite two_SIZE_BITS; vm_compute; reflexivity
    | unfold size_t_range; rewrite two_SIZE_BITS; simpl; lia | exact E | discriminate |].
  exists this', this'', h'. repeat split; assumption.
Defined.

(** [Allocate] writes only at or above the top of the used space. *)
Lemma stack_header_written_frame (this : t) (size alignment : Z) (h : heap)
    (n : nat) (a : Z) :
  0 < alignment ->
  a + Z.of_nat n <= m_buffer this + m_offset this ->
  Mem.read_le (header_written this size alignment h) n a = Mem.read_le h n a.
Proof.
  intros Ha Hle. unfold header_written.
  pose proof (stack_padding_range this alignment Ha) as Hpad.
  assert (H16 : sizeof_AllocationHeader = 16) by reflexivity.
  assert (Hos : offsetof_size = 0) by reflexivity.
  assert (Hoa : offsetof_adjustment = 8) by reflexivity.
  rewrite !read_le_write_le_other by lia. reflexivity.
Qed.

(** X6.  [GetAllocationSize] of the stack allocator, asked about the
    pointer that [Allocate] has just returned for a request that does not
    wrap around (a positive alignment, an offset of 0 or more, and
    [m_offset + size + alignment + 16 < 2^64]), answers the requested size:
    it reads it from the header when the size is positive, and answers 0 for
    a block of size 0, whose address [Owns] does not accept. *)
Theorem stack_GetAllocationSize_is_requested_size (this this' : t)
    (size alignment p : Z) (h h' : heap) :
  0 < alignment -> 0 <= size ->
  0 <= m_offset this ->
  m_offset this + size + alignment + sizeof_AllocationHeader < 2 ^ SIZE_BITS ->
  Allocate this size alignment h = Ret ((p, this'), h') ->
  p <> nullptr ->
  GetAllocationSize this' p h' = Ret (size, h')
  /\ Owns this' p = (0 <? size).
Proof.
  intros Ha Hs Ho Hno Heq Hp.
  assert (H16 : sizeof_AllocationHeader = 16) by reflexivity.
  destruct (Z.ltb_spec 0 size) as [Hpos|Hzero].
  - pose proof (stack_Allocate_owned _ _ _ _ _ _ _ Heq Hp Ha Hpos Ho Hno) as Hown.
    split; [|exact Hown].
    apply (stack_GetAllocationSize_after_Allocate this this' size alignment p h h');
      auto.
    unfold size_t_range. lia.
  - assert (size = 0) by lia. subst size.
    destruct (stack_Allocate_nonnull_inv _ _ _ _ _ _ _ Heq Hp)
      as (_ & _ & -> & Ho' & Hb' & _).
    rewrite stack_newOffset_exact in Ho' by lia.
    assert (Hown : Owns this' (m_buffer this + m_offset this + sizeof_AllocationHeader
                               + padding_for this alignment) = false).
    { apply not_true_is_false. rewrite stack_Owns_iff. rewrite Ho', Hb'. lia. }
    split; [|exact Hown].
    apply stack_GetAllocationSize_not_owned. exact Hown.
Qed.

(** A block of 40 bytes aligned to 8 in a fresh buffer of 1024 bytes. *)
Lemma stack_GetAllocationSize_is_requested_size_witness :
  let this := create 4096 1024 in
  exists (this' : t) (h' : heap),
    Allocate this 40 8 ∅ = Ret ((4112, this'), h')
    /\ GetAllocationSize this' 4112 h' = Ret (40, h')
    /\ Owns this' 4112 = true.
Proof.
  intros this.
  assert (E : exists (this' : t) (h' : heap),
             Allocate this 40 8 ∅ = Ret ((4112, this'), h'))
    by (eexists _, _; vm_compute; reflexivity).
  destruct E as (this' & h' & E).
  destruct (stack_GetAllocationSize_is_requested_size this this' 40 8 4112 ∅ h')
    as (Hsize & Hown);
    [lia | lia | simpl; lia | rewrite two_SIZE_BITS; vm_compute; reflexivity
    | exact E | discriminate |].
  exists this', h'. repeat split; assumption.
Defined.

(** X7.  [Free] of the stack allocator rewinds to the start of the block it
    is given, whatever was allocated after it.  On an allocator whose offset
    is within its buffer and whose allocation count is below [2^64 - 1],
    after two successful allocations that do not wrap around (positive
    alignments and [m_bufferSize + size + alignment + 16 < 2^64] for each),
    [Free] of the first pointer puts the offset back where it was before the
    first one, so that neither block is owned any more, while the allocation
    count goes down by one only. *)
Theorem stack_Free_releases_later_allocations (this this1 this2 : t)
    (size1 alignment1 size2 alignment2 p1 p2 : Z) (h h1 h2 : heap) :
  0 < alignment1 -> 0 < alignment2 -> 0 <= size1 -> 0 <= size2 ->
  0 <= m_offset this <= m_bufferSize this ->
  m_bufferSize this + size1 + alignment1 + sizeof_AllocationHeader < 2 ^ SIZE_BITS ->
  m_bufferSize this + size2 + alignment2 + sizeof_AllocationHeader < 2 ^ SIZE_BITS ->
  size_t_range (m_allocationCount this + 1) ->
  Allocate this size1 alignment1 h = Ret ((p1, this1), h1) ->
  p1 <> nullptr ->
  Allocate this1 size2 alignment2 h1 = Ret ((p2, this2), h2) ->
  p2 <> nullptr ->
  exists this3 : t,
    Free this2 p1 h2 = Ret (this3, h2)
    /\ m_offset this3 = m_offset this
    /\ Owns this3 p1 = false
    /\ Owns this3 p2 = false
    /\ m_allocationCount this3 = m_allocationCount this + 1.
Proof.
  intros Ha1 Ha2 Hs1 Hs2 Ho Hno1 Hno2 Hcnt Heq1 Hp1 Heq2 Hp2.
  assert (H16 : sizeof_AllocationHeader = 16) by reflexivity.
  assert (Hoa : offsetof_adjustment = 8) by reflexivity.
  assert (Hwb : Z.of_nat word_bytes = 8) by reflexivity.
  destruct (stack_Allocate_nonnull_inv _ _ _ _ _ _ _ Heq1 Hp1)
    as (Hal1 & Hfit1 & Hp1eq & Ho1 & Hb1 & Hbs1 & _ & Hh1).
  rewrite stack_newOffset_exact in Ho1, Hfit1 by lia.
  pose proof (stack_padding_range this alignment1 Ha1) as Hpad1.
  pose proof (stack_padding_range this1 alignment2 Ha2) as Hpad2.
  destruct (stack_Allocate_nonnull_inv _ _ _ _ _ _ _ Heq2 Hp2)
    as (Hal2 & Hfit2 & Hp2eq & Ho2 & Hb2 & Hbs2 & _ & Hh2).
  rewrite stack_newOffset_exact in Ho2, Hfit2 by lia.
  assert (Hc1 : m_allocationCount this1 = wrap (m_allocationCount this + 1)).
  { rewrite stack_Allocate_fits in Heq1 by (rewrite ?stack_newOffset_exact by lia; auto).
    injection Heq1 as _ <- _. reflexivity. }
  assert (Hc2 : m_allocationCount this2 = wrap (m_allocationCount this1 + 1)).
  { rewrite stack_Allocate_fits in Heq2 by (rewrite ?stack_newOffset_exact by lia; auto).
    injection Heq2 as _ <- _. reflexivity. }
  destruct (stack_header_written_reads this size1 alignment1 h Ha1
              ltac:(unfold size_t_range; lia) ltac:(lia)) as [_ Hadj].
  cbv zeta in Hadj. rewrite <- Hp1eq, <- Hh1 in Hadj.
  unfold Free. destruct (Z.eqb_spec p1 nullptr) as [?|_]; [contradiction|].
  run_monad. rewrite Hh2.
  rewrite stack_header_written_frame by (try assumption; lia).
  rewrite Hadj. eexists. split; [reflexivity|].
  cbn [set_offset set_allocationCount m_offset m_allocationCount m_markers m_buffer
       m_bufferSize m_peakUsage].
  replace (p1 - m_buffer this2 - (sizeof_AllocationHeader + padding_for this alignment1))
    with (m_offset this) by lia.
  rewrite (wrap_small (m_offset this)) by (unfold size_t_range; lia).
  split; [reflexivity|].
  split; [apply not_true_is_false; rewrite stack_Owns_iff;
          cbn [set_offset set_allocationCount m_buffer m_offset]; lia|].
  split; [apply not_true_is_false; rewrite stack_Owns_iff;
          cbn [set_offset set_allocationCount m_buffer m_offset]; lia|].
  rewrite Hc2, Hc1. unfold size_t_range in Hcnt.
  rewrite (wrap_small (m_allocationCount this + 1)) by exact Hcnt.
  apply (wrap_add_sub _ 1). exact Hcnt.
Qed.


(** Blocks of 40 and of 24 bytes, then [Free] of the first. *)
Lemma stack_Free_releases_later_allocations_witness :
  let this := create 4096 1024 in
  exists (this1 this2 this3 : t) (h1 h2 : heap),
    Allocate this 40 8 ∅ = Ret ((4112, this1), h1)
    /\ Allocate this1 24 8 h1 = Ret ((4168, this2), h2)
    /\ Free this2 4112 h2 = Ret (this3, h2)
    /\ m_offset this3 = 0
    /\ Owns this3 4168 = false
    /\ m_allocationCount this3 = 1.
Proof.
  intros this.
  assert (E : exists (this1 this2 : t) (h1 h2 : heap),
             Allocate this 40 8 ∅ = Ret ((4112, this1), h1)
             /\ Allocate this1 24 8 h1 = Ret ((4168, this2), h2)).
  { eexists _, _, _, _. split; [vm_compute; reflexivity|].
    vm_compute. reflexivity. }
  destruct E as (this1 & this2 & h1 & h2 & E1 & E2).
  destruct (stack_Free_releases_later_allocations this this1 this2 40 8 24 8 4112 4168
              ∅ h1 h2) as (this3 & Hfree & Ho & _ & Hown & Hc);
    [lia | lia | lia | lia | simpl; lia
    | rewrite two_SIZE_BITS; vm_compute; reflexivity
    | rewrite two_SIZE_BITS; vm_compute; reflexivity
    | unfold size_t_range; rewrite two_SIZE_BITS; simpl; lia
    | exact E1 | discriminate | exact E2 | discriminate |].
  exists this1, this2, this3, h1, h2. repeat split; assumption.
Defined.



(** X9.  Take the block at the top of the stack, allocated on an allocator
    whose offset was within its buffer, and a call of [Reallocate] for it,
    where neither the request that allocated the block nor the new one wraps
    around (positive alignments, and
    [m_bufferSize + size + alignment + 16 < 2^64] for both).  When the block
    cannot grow in place because the buffer has no room for the new size,
    [Reallocate] returns null and leaves the allocator and the memory as
    they were: the attempt to allocate a new block, which needs still more
    room, fails too. *)
Theorem stack_Reallocate_top_no_room (this this1 : t)
    (size alignment p newSize alignment' : Z) (h h1 : heap) :
  0 < alignment -> 0 < alignment' -> 0 <= size -> 0 <= newSize ->
  0 <= m_offset this <= m_bufferSize this ->
  m_bufferSize this + size + alignment + sizeof_AllocationHeader < 2 ^ SIZE_BITS ->
  m_bufferSize this + newSize + alignment' + sizeof_AllocationHeader < 2 ^ SIZE_BITS ->
  Allocate this size alignment h = Ret ((p, this1), h1) ->
  p <> nullptr ->
  m_bufferSize this < m_offset this1 - size + newSize ->
  Reallocate this1 p newSize alignment' h1 = Ret ((nullptr, this1), h1).
Proof.
  intros Ha Ha' Hs Hn Ho Hno Hno' Heq Hp Hroom.
  assert (H16 : sizeof_AllocationHeader = 16) by reflexivity.
  assert (Hos : offsetof_size = 0) by reflexivity.
  assert (Hoa : offsetof_adjustment = 8) by reflexivity.
  assert (Hwb : Z.of_nat word_bytes = 8) by reflexivity.
  destruct (stack_Allocate_nonnull_inv _ _ _ _ _ _ _ Heq Hp)
    as (Hal & Hfit & Hpeq & Ho1 & Hb1 & Hbs1 & _ & Hh1).
  rewrite stack_newOffset_exact in Ho1, Hfit by lia.
  pose proof (stack_padding_range this alignment Ha) as Hpad.
  pose proof (stack_padding_range this1 alignment' Ha') as Hpad'.
  destruct (stack_header_written_reads this size alignment h Ha
              ltac:(unfold size_t_range; lia) ltac:(lia)) as [Hsz Hadj].
  cbv zeta in Hsz, Hadj. rewrite <- Hpeq, <- Hh1 in Hsz, Hadj.
  unfold Reallocate. destruct (Z.eqb_spec p nullptr) as [?|_]; [contradiction|].
  run_monad. rewrite Hsz, Hadj.
  rewrite wrap_add_wrap.
  replace (m_offset this1 + (newSize - size)) with (m_offset this1 - size + newSize)
    by lia.
  rewrite (wrap_small (m_offset this1 - size + newSize))
    by (unfold size_t_range; lia).
  destruct (Z.leb_spec (m_offset this1 - size + newSize) (m_bufferSize this1)) as [?|_];
    [lia|].
  rewrite andb_false_r.
  rewrite stack_Allocate_exhausted; [reflexivity | lia |].
  rewrite stack_newOffset_exact by lia. lia.
Qed.


(** A block of 40 bytes in a buffer of 128 bytes cannot grow to 200. *)
Lemma stack_Reallocate_top_no_room_witness :
  let this := create 4096 128 in
  exists (this1 : t) (h1 : heap),
    Allocate this 40 8 ∅ = Ret ((4112, this1), h1)
    /\ Reallocate this1 4112 200 8 h1 = Ret ((nullptr, this1), h1).
Proof.
  intros this.
  assert (E : exists (this1 : t) (h1 : heap),
             Allocate this 40 8 ∅ = Ret ((4112, this1), h1)
             /\ m_offset this1 = 56).
  { eexists _, _. split; [vm_compute; reflexivity|]. vm_compute. reflexivity. }
  destruct E as (this1 & h1 & E & Ho1).
  exists this1, h1. split; [exact E|].
  apply (stack_Reallocate_top_no_room this this1 40 8 4112 200 8 ∅ h1);
    [lia | lia | lia | lia | simpl; lia
    | rewrite two_SIZE_BITS; vm_compute; reflexivity
    | rewrite two_SIZE_BITS; vm_compute; reflexivity
    | exact E | discriminate | rewrite Ho1; simpl; lia].
Defined.




Lemma stack_FreeToMarker_within (buffer bufferSize marker : Z) (this : t) :
  Shape.stack_within buffer bufferSize this ->
  Shape.stack_within buffer bufferSize (FreeToMarker this marker).
Proof.
  intros (Hb & Hbs & Ho & Hp & Hm). unfold FreeToMarker.
  destruct (Z.leb_spec marker (m_offset this)); [|repeat split; auto; lia].
  unfold Shape.stack_within. simpl. repeat split; auto; lia.
Qed.

Lemma stack_do_within (buffer bufferSize : Z) (c : Calls.stack_call)
    (this this' : t) (h h' : heap) :
  Shape.stack_within buffer bufferSize this ->
  Calls.stack_do this c h = Ret (this', h') ->
  Shape.stack_within buffer bufferSize this'.
Proof.
  intros Hinv. pose proof Hinv as (Hb & Hbs & Ho & Hp & Hm).
  destruct c as [size al| | |marker|]; cbn [Calls.stack_do].
  - run_monad.
    destruct (Allocate this size al h) as [[[p this1] h1]| | |] eqn:E;
      try discriminate.
    intros Heq; injection Heq as <- <-.
    unfold Allocate in E. destruct (al =? 0); [discriminate|].
    destruct (Z.gtb_spec (newOffset_for this size al) (m_bufferSize this)).
    + injection E as _ <- _. exact Hinv.
    + run_monad. injection E as _ <- _. unfold Shape.stack_within. simpl.
      repeat split; auto; lia.
  - intros Heq; injection Heq as <- <-.
    unfold Shape.stack_within, PushMarker. simpl. repeat split; auto; try lia.
    apply Forall_app. split; [exact Hm|]. constructor; [lia | constructor].
  - intros Heq; injection Heq as <- <-. unfold PopMarker.
    destruct (last (m_markers this)) as [back|]; [|exact Hinv].
    destruct (stack_FreeToMarker_within buffer bufferSize back this Hinv)
      as (Hb' & Hbs' & Ho' & Hp' & _).
    unfold Shape.stack_within. simpl. repeat split; auto; try lia.
    replace (m_markers this) with (take (length (m_markers this) - 1) (m_markers this)
                                   ++ drop (length (m_markers this) - 1) (m_markers this))
      in Hm by apply take_drop.
    apply Forall_app in Hm. destruct Hm as [Hm _].
    clear -Hm. induction (m_markers this) as [|x l IH] using rev_ind; [constructor|].
    rewrite removelast_last.
    rewrite length_app in Hm. simpl in Hm.
    replace (length l + 1 - 1)%nat with (length l) in Hm by lia.
    rewrite take_app_length in Hm. exact Hm.
  - intros Heq; injection Heq as <- <-. apply stack_FreeToMarker_within. exact Hinv.
  - intros Heq; injection Heq as <- <-.
    unfold Shape.stack_within, Reset. simpl. repeat split; auto; lia.
Qed.

(** X11.  Whatever calls of [Allocate], [PushMarker], [PopMarker],
    [FreeToMarker] and [Reset] a client makes on a stack allocator
    constructed over a buffer of [bufferSize] bytes, with any sizes,
    alignments and markers, when they have returned [ValidateInternalState]
    holds, the used space is at most the peak usage, the peak usage at most
    [bufferSize], and every marker on the marker stack is at most
    [bufferSize]. *)
Theorem stack_marker_calls_stay_within_buffer (buffer bufferSize : Z)
    (cs : list Calls.stack_call) (this : t) (h h' : heap) :
  0 <= bufferSize ->
  Calls.stack_run (create buffer bufferSize) cs h = Ret (this, h') ->
  ValidateInternalState this = true
  /\ GetTotalAllocated this <= GetPeakUsage this <= bufferSize
  /\ Forall (fun marker => marker <= bufferSize) (m_markers this)
  /\ m_buffer this = buffer
  /\ m_bufferSize this = bufferSize.
Proof.
  intros Hbs Hrun.
  assert (Hinv : Shape.stack_within buffer bufferSize this).
  { assert (H0 : Shape.stack_within buffer bufferSize (create buffer bufferSize))
      by (unfold Shape.stack_within; simpl; repeat split; auto; try lia; constructor).
    revert Hrun H0. generalize (create buffer bufferSize) as this0.
    revert h. induction cs as [|c cs IH]; intros h this0 Hrun H0.
    - inversion Hrun; subst. exact H0.
    - cbn [Calls.stack_run] in Hrun. run_monad.
      destruct (Calls.stack_do this0 c h) as [[this1 h1]| | |] eqn:E; try discriminate.
      eapply IH; [exact Hrun|]. eapply stack_do_within; eassumption. }
  destruct Hinv as (Hb & Hbs' & Ho & Hp & Hm).
  unfold ValidateInternalState, GetTotalAllocated, GetPeakUsage.
  repeat split; auto; lia.
Qed.

(** Allocations, a marker pushed and popped, a marker above the offset, a
    pop of the empty marker stack, a request that does not fit and a
    reset. *)
Lemma stack_marker_calls_stay_within_buffer_witness :
  let cs := [Calls.SAllocate 40 8; Calls.SPushMarker; Calls.SAllocate 30 16;
             Calls.SFreeToMarker 500; Calls.SPopMarker; Calls.SPopMarker;
             Calls.SAllocate 2000 8; Calls.SReset] in
  exists this h,
    Calls.stack_run (create 4096 1024) cs ∅ = Ret (this, h)
    /\ ValidateInternalState this = true.
Proof.
  assert (E : exists this h,
             Calls.stack_run (create 4096 1024)
               [Calls.SAllocate 40 8; Calls.SPushMarker; Calls.SAllocate 30 16;
                Calls.SFreeToMarker 500; Calls.SPopMarker; Calls.SPopMarker;
                Calls.SAllocate 2000 8; Calls.SReset] ∅ = Ret (this, h))
    by (eexists _, _; vm_compute; reflexivity).
  destruct E as (this & h & E). exists this, h. split; [exact E|].
  eapply (stack_marker_calls_stay_within_buffer 4096 1024); [lia | exact E].
Defined.

(** X12.  [AllocateAligned<T>] followed by [DeallocateAligned<T>] of the
    pointer it returned leaves a stack allocator with the offset and the
    allocation count it had, whether the allocation succeeded or returned
    null (which [DeallocateAligned] ignores). *)
Theorem stack_DeallocateAligned_undoes_AllocateAligned (this : t)
    (sizeof_T alignof_T : Z) (h : heap) :
  0 < alignof_T -> 0 <= sizeof_T ->
  0 < m_buffer this -> 0 <= m_offset this ->
  m_offset this + sizeof_T + alignof_T + sizeof_AllocationHeader < 2 ^ SIZE_BITS ->
  size_t_range (m_allocationCount this) ->
  returns_with (Calls.stack_AllocateAligned_DeallocateAligned this sizeof_T alignof_T) h
    (fun '(p, this') _ =>
       (p = nullptr <-> newOffset_for this sizeof_T alignof_T > m_bufferSize this)
       /\ m_offset this' = m_offset this
       /\ m_allocationCount this' = m_allocationCount this
       /\ m_markers this' = m_markers this).
Proof.
  intros Ha Hs Hb Ho Hno Hcnt.
  unfold Calls.stack_AllocateAligned_DeallocateAligned, IAllocator.AllocateAligned,
    IAllocator.DeallocateAligned.
  cbn [IAllocator.Allocate IAllocator.Free IAllocator.Stack].
  pose proof (stack_padding_range this alignof_T Ha) as Hpad.
  assert (H16 : sizeof_AllocationHeader = 16) by reflexivity.
  destruct (Z.gtb_spec (newOffset_for this sizeof_T alignof_T) (m_bufferSize this))
    as [Hgt|Hle].
  - apply returns_with_bind.
    eapply returns_with_eq; [apply stack_Allocate_exhausted; lia|].
    cbv beta iota. change (nullptr =? nullptr) with true. cbv iota.
    apply returns_with_bind, returns_with_ret, returns_with_ret.
    split; [split; [intros _; lia | reflexivity]|]. repeat split.
  - pose proof (stack_Allocate_fits this sizeof_T alignof_T h ltac:(lia) Hle) as Hrun.
    set (p := m_buffer this + m_offset this + sizeof_AllocationHeader
              + padding_for this alignof_T) in *.
    assert (Hp : p <> nullptr) by (unfold p, nullptr; lia).
    destruct (stack_Free_after_Allocate _ _ _ _ _ _ _ Ha Hs Ho Hno Hcnt Hrun Hp)
      as (this'' & Hfree & Ho'' & Hc'' & Hm'' & _).
    apply returns_with_bind.
    eapply returns_with_eq; [exact Hrun|]. cbv beta iota.
    destruct (Z.eqb_spec p nullptr) as [?|_]; [contradiction|].
    apply returns_with_bind.
    eapply returns_with_eq; [exact Hfree|].
    apply returns_with_ret.
    split; [split; [intros ?; contradiction | lia]|]. repeat split; assumption.
Qed.

(** An object of 40 bytes aligned to 8 in a fresh buffer of 1024 bytes. *)
Lemma stack_DeallocateAligned_undoes_AllocateAligned_witness :
  returns_with (Calls.stack_AllocateAligned_DeallocateAligned (create 4096 1024) 40 8) ∅
    (fun '(p, this') _ => m_offset this' = 0 /\ m_allocationCount this' = 0).
Proof.
  eapply returns_with_weaken;
    [|apply (stack_DeallocateAligned_undoes_AllocateAligned (create 4096 1024) 40 8 ∅);
      [lia | lia | simpl; lia | simpl; lia
      | rewrite two_SIZE_BITS; vm_compute; reflexivity
      | unfold size_t_range; rewrite two_SIZE_BITS; simpl; lia]].
  intros [p this'] h' (_ & Ho & Hc & _). split; assumption.
Defined.

End StackFurther.

(** ** The pool allocator *)

Section PoolFurther.
Import PoolAllocator.
#[local] Opaque Mem.write_le Mem.read_le.

Lemma pool_create_pools_returns (poolConfigs : list (Z * Z)) :
  forall (mallocs : list ptr) (h : heap),
  Forall (fun m => m <> nullptr) (take (length poolConfigs) mallocs) ->
  (length poolConfigs <= length mallocs)%nat ->
  exists ps h', create_pools poolConfigs mallocs h = Ret (ps, h').
Proof.
  induction poolConfigs as [|[bs cnt] configs IH]; intros mallocs h Hgood Hlen.
  - eexists _, _. reflexivity.
  - destruct mallocs as [|m ms]; [simpl in Hlen; lia|].
    cbn [length take] in Hgood. inversion Hgood as [|? ? Hm Hgood']; subst.
    cbn [create_pools tail].
    destruct (Z.eqb_spec m nullptr) as [?|_]; [contradiction|].
    destruct (pool_thread_blocks_returns (Z.to_nat cnt) m bs 0 nullptr h)
      as (head & h1 & Hthread).
    destruct (IH ms h1 Hgood' ltac:(simpl in Hlen; lia)) as (ps & h2 & Hrest).
    run_monad. rewrite Hthread, Hrest. eexists _, _. reflexivity.
Qed.

Lemma pool_create_pools_throws (poolConfigs : list (Z * Z)) :
  forall (good rest : list ptr) (h : heap),
  Forall (fun m => m <> nullptr) good ->
  (length good < length poolConfigs)%nat ->
  create_pools poolConfigs (good ++ nullptr :: rest) h = Throw bad_alloc.
Proof.
  induction poolConfigs as [|[bs cnt] configs IH]; intros good rest h Hgood Hlen.
  - simpl in Hlen. lia.
  - destruct good as [|m good].
    + reflexivity.
    + inversion Hgood as [|? ? Hm Hgood']; subst.
      cbn [create_pools app tail].
      destruct (Z.eqb_spec m nullptr) as [?|_]; [contradiction|].
      destruct (pool_thread_blocks_returns (Z.to_nat cnt) m bs 0 nullptr h)
        as (head & h1 & Hthread).
      run_monad. rewrite Hthread.
      rewrite IH; [reflexivity | exact Hgood' | simpl in Hlen; lia].
Qed.

(** X13.  The constructor of the pool allocator returns when every
    [malloc] it makes, one per configured class, returns a non-null address,
    and leaves by [std::bad_alloc] at the first [malloc] that returns
    null. *)
Theorem pool_create_bad_alloc (poolConfigs : list (Z * Z)) (mallocs : list ptr)
    (h : heap) :
  (Forall (fun m => m <> nullptr) (take (length poolConfigs) mallocs) ->
   (length poolConfigs <= length mallocs)%nat ->
   returns (create poolConfigs mallocs h))
  /\ (forall (good rest : list ptr),
        mallocs = good ++ nullptr :: rest ->
        Forall (fun m => m <> nullptr) good ->
        (length good < length poolConfigs)%nat ->
        create poolConfigs mallocs h = Throw bad_alloc).
Proof.
  split.
  - intros Hgood Hlen.
    destruct (pool_create_pools_returns _ mallocs h Hgood Hlen) as (ps & h' & Hrun).
    unfold create. run_monad. rewrite Hrun. exact I.
  - intros good rest -> Hgood Hlen. unfold create. run_monad.
    rewrite pool_create_pools_throws by assumption. reflexivity.
Qed.


(** Two classes: both [malloc]s succeed, or the second one fails. *)
Lemma pool_create_bad_alloc_witness :
  returns (create [(32, 4); (128, 2)] [4096; 8192] ∅)
  /\ create [(32, 4); (128, 2)] [4096; nullptr] ∅ = Throw bad_alloc.
Proof.
  destruct (pool_create_bad_alloc [(32, 4); (128, 2)] [4096; 8192] ∅) as [Hret _].
  destruct (pool_create_bad_alloc [(32, 4); (128, 2)] [4096; nullptr] ∅) as [_ Hthrow].
  split.
  - apply Hret; [repeat constructor; discriminate | simpl; lia].
  - apply (Hthrow [4096] []); [reflexivity | repeat constructor; discriminate | simpl; lia].
Defined.

Lemma slab_head_range (start bs cnt k : Z) :
  0 < start -> 0 <= bs -> 0 <= k <= cnt -> start + bs * cnt < 2 ^ SIZE_BITS ->
  size_t_range (Shape.slab_head start bs k).
Proof.
  intros Hs Hbs Hk Hno. unfold Shape.slab_head, size_t_range.
  destruct (Z.eqb_spec k 0); [unfold nullptr; lia|]. nia.
Qed.

Lemma pool_thread_blocks_descending (n : nat) :
  forall (start bs cnt i : Z) (h : heap),
  0 < start -> sizeof_pointer <= bs -> 0 <= i -> i + Z.of_nat n <= cnt ->
  start + bs * cnt < 2 ^ SIZE_BITS ->
  Shape.descending h start bs i ->
  exists h' : heap,
    thread_blocks n start bs i (Shape.slab_head start bs i) h
    = Ret (Shape.slab_head start bs (i + Z.of_nat n), h')
    /\ Shape.descending h' start bs (i + Z.of_nat n).
Proof.
  assert (H8 : sizeof_pointer = 8) by reflexivity.
  assert (Hwb : Z.of_nat word_bytes = 8) by reflexivity.
  assert (Hon : offsetof_next = 0) by reflexivity.
  induction n as [|n IH]; intros start bs cnt i h Hs Hbs Hi Hcnt Hno Hdesc.
  - exists h. rewrite Z.add_0_r. split; [reflexivity | exact Hdesc].
  - cbn [thread_blocks]. run_monad. rewrite Nat2Z.inj_succ in *.
    rewrite (wrap_small (i * bs)) by (unfold size_t_range; nia).
    set (h1 := Mem.write_le h word_bytes (start + i * bs + offsetof_next)
                 (Shape.slab_head start bs i)).
    assert (Hdesc1 : Shape.descending h1 start bs (i + 1)).
    { intros j Hj. unfold h1. destruct (Z.eq_dec j i) as [->|Hne].
      - apply read_word_write_word. apply (slab_head_range _ _ cnt); lia.
      - rewrite read_le_write_le_other by nia. apply Hdesc. lia. }
    destruct (IH start bs cnt (i + 1) h1 Hs Hbs ltac:(lia) ltac:(lia) Hno Hdesc1)
      as (h' & Hrun & Hdesc').
    replace (Shape.slab_head start bs (i + 1)) with (start + i * bs) in Hrun
      by (unfold Shape.slab_head; destruct (Z.eqb_spec (i + 1) 0); [lia|];
          f_equal; f_equal; lia).
    exists h'. replace (i + Z.succ (Z.of_nat n)) with (i + 1 + Z.of_nat n) by lia.
    split; assumption.
Qed.

(** Allocations from a class whose freelist descends through its first [k]
    blocks return these blocks from the last one down. *)
Lemma pool_Allocate_all_descending (sizes : list Z) :
  forall (this : t) (start bs cnt k alignment : Z) (h : heap),
  0 < start -> sizeof_pointer <= bs ->
  pools this = [BuildPool start bs cnt (Shape.slab_head start bs k)] ->
  Shape.descending h start bs k ->
  Forall (fun size => size <= bs) sizes ->
  Z.of_nat (length sizes) <= k ->
  exists this' : t,
    Calls.pool_Allocate_all this sizes alignment h
    = Ret ((map (fun j : nat => start + (k - 1 - Z.of_nat j) * bs)
                (seq 0 (length sizes)), this'), h)
    /\ pools this' = [BuildPool start bs cnt
                        (Shape.slab_head start bs (k - Z.of_nat (length sizes)))].
Proof.
  assert (H8 : sizeof_pointer = 8) by reflexivity.
  induction sizes as [|size sizes IH];
    intros this start bs cnt k alignment h Hs Hbs Hps Hdesc Hfit Hlen.
  - exists this. split; [reflexivity|]. rewrite Hps. simpl. rewrite Z.sub_0_r.
    reflexivity.
  - inversion Hfit as [|? ? Hsize Hfit']; subst.
    cbn [length] in Hlen. rewrite Nat2Z.inj_succ in Hlen.
    cbn [Calls.pool_Allocate_all]. run_monad.
    rewrite (pool_Allocate_class_pop this [] [] _ size alignment
               (Shape.slab_head start bs (k - 1)) h Hps);
      [|constructor | exact Hsize | |].
    + cbn [app].
      match goal with
      | |- context [Calls.pool_Allocate_all ?t _ _ _] =>
          destruct (IH t start bs cnt (k - 1) alignment h Hs Hbs) as (this' & Hrun & Hps');
            [reflexivity | | exact Hfit' | lia |]
      end.
      { intros j Hj. apply Hdesc. lia. }
      rewrite Hrun. exists this'. split.
      * cbn [length seq map freeList]. rewrite <- seq_shift, map_map.
        assert (Hhead : Shape.slab_head start bs k = start + (k - 1 - Z.of_nat 0) * bs).
        { unfold Shape.slab_head. destruct (Z.eqb_spec k 0); [lia|]. simpl. f_equal. lia. }
        assert (Htail : map (fun j : nat => start + (k - 1 - 1 - Z.of_nat j) * bs)
                          (seq 0 (length sizes))
                        = map (fun x : nat => start + (k - 1 - Z.of_nat (S x)) * bs)
                            (seq 0 (length sizes))).
        { apply map_ext. intros j. f_equal. f_equal. lia. }
        rewrite Hhead, Htail. reflexivity.
      * rewrite Hps'. cbn [length]. rewrite Nat2Z.inj_succ.
        replace (k - 1 - Z.of_nat (length sizes))
          with (k - Z.succ (Z.of_nat (length sizes))) by lia.
        reflexivity.
    + cbn [freeList]. unfold Shape.slab_head, nullptr.
      destruct (Z.eqb_spec k 0); [lia|]. nia.
    + cbn [freeList]. unfold Shape.slab_head at 1.
      destruct (Z.eqb_spec k 0); [lia|]. apply Hdesc. lia.
Qed.

(** X14.  A pool allocator constructed with a single class of [blockCount]
    blocks serves exactly [blockCount] requests of at most [blockSize]
    bytes: it hands out the blocks of the slab from the last one down to the
    first, each one once, and answers the next request with null. *)
Theorem pool_fresh_class_hands_out_every_block (blockSize blockCount : Z)
    (memory : ptr) (sizes : list Z) (size alignment : Z) (h : heap) :
  0 < memory -> sizeof_pointer <= blockSize ->
  memory + blockSize * blockCount < 2 ^ SIZE_BITS ->
  Forall (fun s => s <= blockSize) sizes ->
  Z.of_nat (length sizes) = blockCount ->
  size <= blockSize ->
  returns_with (Calls.pool_drain blockSize blockCount memory sizes size alignment) h
    (fun r _ =>
       r = (map (fun j : nat => memory + (blockCount - 1 - Z.of_nat j) * blockSize)
                (seq 0 (length sizes)),
            nullptr)).
Proof.
  intros Hm Hbs Hno Hfit Hlen Hsize.
  assert (Hcnt : 0 <= blockCount) by lia.
  unfold returns_with, Calls.pool_drain, create. cbn [create_pools tail].
  destruct (Z.eqb_spec memory nullptr) as [Hz|_]; [unfold nullptr in Hz; lia|].
  destruct (pool_thread_blocks_descending (Z.to_nat blockCount) memory blockSize
              blockCount 0 h Hm Hbs ltac:(lia) ltac:(lia) Hno)
    as (h1 & Hthread & Hdesc).
  { intros j Hj. lia. }
  rewrite Z2Nat.id, Z.add_0_l in Hthread, Hdesc by lia.
  change (Shape.slab_head memory blockSize 0) with nullptr in Hthread.
  run_monad. rewrite Hthread.
  match goal with
  | |- context [Calls.pool_Allocate_all ?t _ _ _] =>
      destruct (pool_Allocate_all_descending sizes t memory blockSize blockCount
                  blockCount alignment h1 Hm Hbs) as (this' & Hrun & Hps');
        [reflexivity | exact Hdesc | exact Hfit | lia |]
  end.
  rewrite Hrun.
  rewrite Hlen, Z.sub_diag in Hps'.
  change (Shape.slab_head memory blockSize 0) with nullptr in Hps'.
  rewrite (pool_Allocate_class_empty this' [] [] _ size alignment h1 Hps');
    [|constructor | exact Hsize | reflexivity].
  eexists _, _. split; reflexivity.
Qed.

(** The class (32, 4) at address 4096. *)
Lemma pool_fresh_class_hands_out_every_block_witness :
  returns_with (Calls.pool_drain 32 4 4096 [20; 32; 1; 8] 16 8) ∅
    (fun r _ => r = ([4192; 4160; 4128; 4096], nullptr)).
Proof.
  apply (pool_fresh_class_hands_out_every_block 32 4 4096 [20; 32; 1; 8] 16 8 ∅).
  - lia.
  - unfold sizeof_pointer. lia.
  - rewrite two_SIZE_BITS. lia.
  - repeat constructor; lia.
  - reflexivity.
  - lia.
Defined.

Lemma pool_Free_from_not_owned (rest : list Pool) :
  forall (done : list Pool) (this : t) (p : ptr) (h : heap),
  Owns_from rest p = false ->
  Free_from done rest this p h = Ret (this, h).
Proof.
  induction rest as [|pool rest IH]; intros done this p h Hown; cbn [Free_from].
  - reflexivity.
  - cbn [Owns_from] in Hown. destruct (in_pool pool p); [discriminate|].
    apply IH. exact Hown.
Qed.

(** X15.  [Free] of the pool allocator ignores a pointer that [Owns]
    rejects, null included: the allocator, its counters and the memory are
    left as they were. *)
Theorem pool_Free_not_owned_unchanged (this : t) (p : ptr) (h : heap) :
  Owns this p = false ->
  Free this p h = Ret (this, h).
Proof.
  intros Hown. unfold Free. destruct (p =? nullptr); [reflexivity|].
  apply pool_Free_from_not_owned. exact Hown.
Qed.

(** The address one past the end of the only slab. *)
Lemma pool_Free_not_owned_unchanged_witness :
  let this := Build [BuildPool 4096 32 4 4192] 64 64 2 "" false in
  Free this 4224 ∅ = Ret (this, ∅).
Proof.
  intros this. apply (pool_Free_not_owned_unchanged this 4224 ∅). reflexivity.
Defined.

Lemma free_chain_steps (h : heap) (pool : Pool) (b : ptr) :
  free_chain h pool b -> exists n, Shape.chain_steps h b n.
Proof.
  induction 1 as [|b next Hb _ Hread _ [n IH]].
  - exists 0%nat. constructor.
  - exists (S n). econstructor; eassumption.
Qed.

Lemma chain_steps_unique (h : heap) (b : ptr) (n : nat) :
  Shape.chain_steps h b n -> forall m, Shape.chain_steps h b m -> n = m.
Proof.
  induction 1 as [|b next n Hb Hread _ IH]; intros m Hm.
  - inversion Hm; subst; [reflexivity | contradiction].
  - inversion Hm as [|? next' m' _ Hread' Hm']; subst; [contradiction|].
    rewrite Hread in Hread'. inversion Hread'; subst. f_equal. apply IH. exact Hm'.
Qed.

Lemma on_chain_steps (h : heap) (x y : ptr) :
  on_chain h x y -> forall n, Shape.chain_steps h x n ->
  exists m, (m <= n)%nat /\ Shape.chain_steps h y m.
Proof.
  induction 1 as [b Hb|head next b Hhead Hread _ IH]; intros n Hn.
  - exists n. split; [lia | exact Hn].
  - inversion Hn as [|? next' n' _ Hread' Hn']; subst; [contradiction|].
    rewrite Hread in Hread'. inversion Hread'; subst.
    destruct (IH _ Hn') as (m & Hm & Hy). exists m. split; [lia | exact Hy].
Qed.

(** A block is not met again further down its own chain. *)
Lemma free_chain_acyclic (h : heap) (pool : Pool) (b next : ptr) :
  free_chain h pool b -> b <> nullptr ->
  Mem.read_le h word_bytes (b + offsetof_next) = Some next ->
  ~ on_chain h next b.
Proof.
  intros Hchain Hb Hread Hon.
  destruct (free_chain_steps _ _ _ Hchain) as [n Hn].
  inversion Hn as [|? next' n' _ Hread' Hn']; subst; [contradiction|].
  rewrite Hread in Hread'. inversion Hread'; subst.
  destruct (on_chain_steps _ _ _ Hon _ Hn') as (m & Hm & Hb').
  pose proof (chain_steps_unique _ _ _ Hn _ Hb'). lia.
Qed.

(** X16.  In a pool allocator whose freelists are chains of blocks of
    their own slabs, [Free] of the pointer that [Allocate] has just returned
    puts the block back at the head of the freelist it came from: the pools,
    the total allocated and the allocation count are those before the
    allocation, and the freelists are well formed again. *)
Theorem pool_Free_undoes_Allocate (this this' : t) (size alignment p : Z)
    (h h' : heap) :
  well_formed this h ->
  size_t_range (totalAllocated this) ->
  size_t_range (allocationCount this) ->
  Allocate this size alignment h = Ret ((p, this'), h') ->
  p <> nullptr ->
  exists (this'' : t) (h'' : heap),
    Free this' p h' = Ret (this'', h'')
    /\ pools this'' = pools this
    /\ totalAllocated this'' = totalAllocated this
    /\ allocationCount this'' = allocationCount this
    /\ well_formed this'' h''.
Proof.
  intros Hwf Htot Hcnt Heq Hp.
  destruct (pool_Allocate_owned _ _ _ _ _ _ _ Hwf Heq Hp) as [_ Hwf'].
  destruct Hwf as (Hgeo & Hdis & Hchains).
  unfold Allocate, findPool in Heq.
  destruct (findPool_from (pools this) 0 size) as [i|] eqn:Hfind; [|discriminate].
  destruct (findPool_from_Some _ _ _ _ Hfind)
    as (before & pool & after & Hps & -> & Hsmall & Hfit).
  run_monad. cbn [Nat.add] in Heq. rewrite Hps in Heq.
  rewrite list_lookup_middle in Heq by reflexivity.
  destruct (Z.eqb_spec (freeList pool) nullptr) as [Hnull|Hhead].
  { injection Heq as <- _ _. contradiction. }
  destruct (Mem.read_le h word_bytes (freeList pool + offsetof_next))
    as [next|] eqn:Hread; [|discriminate].
  rewrite insert_app_r_alt, Nat.sub_diag in Heq by lia.
  cbn [lookup_total list_insert] in Heq.
  injection Heq as <- <- <-.
  rewrite Hps in Hgeo, Hchains, Hdis.
  apply Forall_app in Hgeo, Hchains.
  destruct Hgeo as [Hgeo1 Hgeo], Hchains as [_ Hchains].
  inversion Hgeo as [|? ? Hg _]; subst.
  inversion Hchains as [|? ? Hchain _]; subst.
  inversion Hchain as [Hz|b next' Hb Hblock Hread' Htail]; subst; [congruence|].
  destruct (pool_Free_well_formed _ before after (set_freeList pool next) (freeList pool) h
              Hwf' eq_refl) as (this'' & h'' & Hfree & Hps'' & Hwf'').
  { apply (is_block_same_slab pool); [apply same_slab_set_freeList | exact Hblock]. }
  { cbn [set_freeList freeList].
    apply (free_chain_acyclic h pool); assumption. }
  exists this'', h''. split; [exact Hfree|].
  assert (Hin : in_pool (set_freeList pool next) (freeList pool) = true).
  { apply (is_block_in_pool pool); assumption. }
  assert (Hout : Forall (fun q => in_pool q (freeList pool) = false) before).
  { destruct (pairwise_disjoint_middle _ _ _ Hdis) as [Hdis1 _].
    destruct (is_block_slab pool (freeList pool) Hg Hblock) as [Hlo Hhi].
    assert (H8 : sizeof_pointer = 8) by reflexivity.
    apply Forall_forall. intros q Hq. apply not_true_is_false. intros Hqp.
    rewrite Forall_forall in Hgeo1, Hdis1.
    apply (pool_in_pool_iff q _ (Hgeo1 q Hq)) in Hqp.
    specialize (Hdis1 q Hq). unfold disjoint in Hdis1. lia. }
  unfold Free in Hfree.
  destruct (Z.eqb_spec (freeList pool) nullptr) as [?|_]; [contradiction|].
  cbn [pools] in Hfree.
  rewrite (pool_Free_from_push before [] after) in Hfree by assumption.
  injection Hfree as <- <-. cbn [pools totalAllocated allocationCount] in *.
  split.
  { rewrite Hps. destruct pool; reflexivity. }
  split; [apply wrap_add_sub; exact Htot|].
  split; [|exact Hwf''].
  apply (wrap_add_sub _ 1). exact Hcnt.
Qed.

(** The classes (32, 4) and (128, 2), a request of 100 bytes and its
    release. *)
Lemma pool_Free_undoes_Allocate_witness :
  exists (this this' this'' : t) (p : ptr) (h h' h'' : heap),
    create [(32, 4); (128, 2)] [4096; 8192] ∅ = Ret (this, h)
    /\ Allocate this 100 8 h = Ret ((p, this'), h')
    /\ p <> nullptr
    /\ Free this' p h' = Ret (this'', h'')
    /\ pools this'' = pools this
    /\ totalAllocated this'' = totalAllocated this.
Proof.
  destruct (pool_create_well_formed [(32, 4); (128, 2)] [4096; 8192] ∅)
    as (this & h & Hcreate & Hwf & _).
  { repeat constructor; cbn; unfold sizeof_pointer; rewrite ?two_SIZE_BITS; lia. }
  { cbn. repeat split; repeat constructor. unfold disjoint. cbn. lia. }
  assert (E : exists (this0 this' : t) (h0 : heap),
             create [(32, 4); (128, 2)] [4096; 8192] ∅ = Ret (this0, h0)
             /\ Allocate this0 100 8 h0 = Ret ((8320, this'), h0)
             /\ totalAllocated this0 = 0 /\ allocationCount this0 = 0).
  { eexists _, _, _. split; [vm_compute; reflexivity|].
    split; [vm_compute; reflexivity|]. split; reflexivity. }
  destruct E as (this0 & this' & h0 & Hcreate0 & Halloc & Htot & Hcnt).
  rewrite Hcreate in Hcreate0. injection Hcreate0 as <- <-.
  destruct (pool_Free_undoes_Allocate this this' 100 8 8320 h h Hwf)
    as (this'' & h'' & Hfree & Hps & Htot' & _);
    [rewrite Htot; unfold size_t_range; rewrite two_SIZE_BITS; lia
    | rewrite Hcnt; unfold size_t_range; rewrite two_SIZE_BITS; lia
    | exact Halloc | discriminate |].
  exists this, this', this'', 8320, h, h, h''.
  repeat split; try assumption. discriminate.
Defined.

(** X17.  [Free] of the pool allocator does not notice that a block is
    already free: after [Free(p)] twice, the block links to itself, and the
    next two allocations from its class both return [p]. *)
Theorem pool_double_Free_hands_block_out_twice (this : t)
    (before after : list Pool) (pool : Pool) (p size alignment : Z) (h : heap) :
  pools this = before ++ pool :: after ->
  Forall (fun q => in_pool q p = false) before ->
  in_pool pool p = true ->
  Forall (fun q => blockSize q < size) before ->
  size <= blockSize pool ->
  p <> nullptr -> size_t_range p ->
  returns_with (Calls.pool_double_Free this p size alignment) h
    (fun r _ => r = (p, p)).
Proof.
  intros Hps Hout Hin Hsmall Hfit Hp Hrange.
  unfold Calls.pool_double_Free.
  apply returns_with_bind. unfold Free at 1.
  destruct (Z.eqb_spec p nullptr) as [?|_]; [contradiction|].
  rewrite Hps.
  eapply returns_with_eq; [apply (pool_Free_from_push before []); assumption|].
  apply returns_with_bind. unfold Free at 1.
  destruct (Z.eqb_spec p nullptr) as [?|_]; [contradiction|].
  cbn [pools app].
  eapply returns_with_eq;
    [apply (pool_Free_from_push before []); [assumption | exact Hin]|].
  cbn [app totalAllocated peakUsage allocationCount name threadSafe].
  apply returns_with_bind.
  eapply returns_with_eq.
  { eapply (pool_Allocate_class_pop _ before after
              (set_freeList (set_freeList pool p) p) size alignment p);
      [reflexivity | assumption | exact Hfit | exact Hp |].
    cbn [set_freeList freeList]. apply read_word_write_word. exact Hrange. }
  cbv beta iota. apply returns_with_bind.
  eapply returns_with_eq.
  { eapply (pool_Allocate_class_pop _ before after
              (set_freeList (set_freeList (set_freeList pool p) p) p)
              size alignment p);
      [reflexivity | assumption | exact Hfit | exact Hp |].
    cbn [set_freeList freeList]. apply read_word_write_word. exact Hrange. }
  cbv beta iota. apply returns_with_ret. reflexivity.
Qed.

(** The second block of the class (32, 4). *)
Lemma pool_double_Free_hands_block_out_twice_witness :
  let this := Build [BuildPool 4096 32 4 4192] 0 0 0 "" false in
  returns_with (Calls.pool_double_Free this 4128 20 8) ∅ (fun r _ => r = (4128, 4128)).
Proof.
  intros this.
  apply (pool_double_Free_hands_block_out_twice this [] [] (BuildPool 4096 32 4 4192)).
  - reflexivity.
  - constructor.
  - reflexivity.
  - constructor.
  - simpl. lia.
  - discriminate.
  - unfold size_t_range. rewrite two_SIZE_BITS. lia.
Defined.

(** X18.  The freelists of the pool allocator stay well formed (the
    slabs do not overlap, and every class's freelist is a null-terminated
    chain of blocks of its own slab): the constructor and [Reset] establish
    this, [Allocate] keeps it and returns a block that [Owns] accepts, and
    [Free] of a block of a slab that is not on the freelist of its class
    keeps it. *)
Theorem pool_freelists_stay_well_formed :
  (forall (poolConfigs : list (Z * Z)) (mallocs : list ptr) (h : heap),
     Forall geometry (slabs poolConfigs mallocs) ->
     pairwise_disjoint (slabs poolConfigs mallocs) ->
     returns_with (create poolConfigs mallocs) h well_formed)
  /\ (forall (this : t) (h : heap),
        Forall geometry (pools this) -> pairwise_disjoint (pools this) ->
        returns_with (Reset this) h well_formed)
  /\ (forall (this this' : t) (size alignment p : Z) (h h' : heap),
        well_formed this h ->
        Allocate this size alignment h = Ret ((p, this'), h') ->
        p <> nullptr ->
        Owns this' p = true /\ well_formed this' h')
  /\ (forall (this : t) (before after : list Pool) (pool : Pool) (p : ptr) (h : heap),
        well_formed this h ->
        pools this = before ++ pool :: after ->
        is_block pool p ->
        ~ on_chain h (freeList pool) p ->
        returns_with (Free this p) h well_formed).
Proof.
  split; [|split; [|split]].
  - intros poolConfigs mallocs h Hgeo Hdis.
    destruct (pool_create_well_formed poolConfigs mallocs h Hgeo Hdis)
      as (this & h' & Hrun & Hwf & _).
    exists this, h'. split; assumption.
  - intros this h Hgeo Hdis.
    destruct (pool_Reset_well_formed this h Hgeo Hdis) as (this' & h' & Hrun & Hwf).
    exists this', h'. split; assumption.
  - intros this this' size alignment p h h'. apply pool_Allocate_owned.
  - intros this before after pool p h Hwf Hps Hblock Hoff.
    destruct (pool_Free_well_formed this before after pool p h Hwf Hps Hblock Hoff)
      as (this' & h' & Hrun & _ & Hwf').
    exists this', h'. split; assumption.
Qed.

(** The classes (32, 4) and (128, 2) over slabs at 4096 and 8192. *)
Lemma pool_freelists_stay_well_formed_witness :
  returns_with (create [(32, 4); (128, 2)] [4096; 8192]) ∅ well_formed.
Proof.
  destruct pool_freelists_stay_well_formed as [Hcreate _].
  apply Hcreate.
  - repeat constructor; cbn; unfold sizeof_pointer; rewrite ?two_SIZE_BITS; lia.
  - cbn. repeat split; repeat constructor. unfold disjoint. cbn. lia.
Defined.

End PoolFurther.

Section PoolReallocate.
Import PoolAllocator.
#[local] Opaque Mem.write_le Mem.read_le.

(** X19.  [Reallocate] of the pool allocator always asks [Allocate] for a
    new block, even when the old block is large enough: when the class that
    [findPool] selects for the new size has no free block, it returns null
    and leaves the allocator, the old block and the memory as they were. *)
Theorem pool_Reallocate_class_exhausted (this : t) (before after : list Pool)
    (pool : Pool) (p newSize alignment : Z) (h : heap) :
  pools this = before ++ pool :: after ->
  Forall (fun q => blockSize q < newSize) before ->
  newSize <= blockSize pool ->
  freeList pool = nullptr ->
  Reallocate this p newSize alignment h = Ret ((nullptr, this), h).
Proof.
  intros Hps Hsmall Hfit Hempty. unfold Reallocate. run_monad.
  rewrite (pool_Allocate_class_empty this before after pool newSize alignment h)
    by assumption.
  reflexivity.
Qed.

(** A block of the class (128, 2) cannot be reallocated to 20 bytes while
    the class (32, 4) is exhausted. *)
Lemma pool_Reallocate_class_exhausted_witness :
  let this := Build [BuildPool 4096 32 4 nullptr; BuildPool 8192 128 2 8192]
                192 192 5 "" false in
  Reallocate this 8320 20 8 ∅ = Ret ((nullptr, this), ∅).
Proof.
  intros this.
  apply (pool_Reallocate_class_exhausted this [] [BuildPool 8192 128 2 8192]
           (BuildPool 4096 32 4 nullptr) 8320 20 8 ∅).
  - reflexivity.
  - constructor.
  - simpl. lia.
  - reflexivity.
Defined.

Lemma pool_same_slab_in_pool (q q' : Pool) (p : ptr) :
  same_slab q q' -> in_pool q p = in_pool q' p.
Proof. intros (Hm & Hs & Hc). unfold in_pool. rewrite Hm, Hs, Hc. reflexivity. Qed.

Lemma pool_same_slabs_queries (ps ps' : list Pool) (p : ptr) :
  Forall2 same_slab ps ps' ->
  Owns_from ps p = Owns_from ps' p
  /\ GetAllocationSize_from ps p = GetAllocationSize_from ps' p.
Proof.
  induction 1 as [|q q' ps ps' Hq Hps [IHo IHs]]; [split; reflexivity|].
  cbn [Owns_from GetAllocationSize_from].
  rewrite (pool_same_slab_in_pool q q' p Hq).
  destruct Hq as (_ & Hbs & _). rewrite Hbs, IHo, IHs. split; reflexivity.
Qed.

Lemma pool_Allocate_same_slabs (this this' : t) (size alignment p : Z) (h h' : heap) :
  Allocate this size alignment h = Ret ((p, this'), h') ->
  Forall2 same_slab (pools this) (pools this')
  /\ h' = h
  /\ (p <> nullptr ->
      allocationCount this' = wrap (allocationCount this + 1)
      /\ exists pool, pool ∈ pools this
                      /\ totalAllocated this'
                         = wrap (totalAllocated this + blockSize pool)
                      /\ size <= blockSize pool).
Proof.
  intros Heq. unfold Allocate, findPool in Heq.
  destruct (findPool_from (pools this) 0 size) as [i|] eqn:Hfind; [|discriminate].
  destruct (findPool_from_Some _ _ _ _ Hfind)
    as (before & pool & after & Hps & -> & Hsmall & Hfit).
  run_monad. cbn [Nat.add] in Heq. rewrite Hps in Heq.
  rewrite list_lookup_middle in Heq by reflexivity.
  destruct (Z.eqb_spec (freeList pool) nullptr) as [Hnull|Hhead].
  { injection Heq as <- <- <-. split; [|split; [reflexivity|]].
    - apply Forall_Forall2_diag, Forall_forall. intros ? _. repeat split.
    - intros Hp. contradiction. }
  destruct (Mem.read_le h word_bytes (freeList pool + offsetof_next))
    as [next|] eqn:Hread; [|discriminate].
  rewrite insert_app_r_alt, Nat.sub_diag in Heq by lia.
  cbn [list_insert] in Heq. injection Heq as <- <- <-.
  cbn [pools allocationCount totalAllocated].
  split; [rewrite Hps; apply same_slabs_middle|].
  split; [reflexivity|]. intros _. split; [reflexivity|].
  exists pool. split; [rewrite Hps; apply elem_of_app; right; left|].
  split; [reflexivity | exact Hfit].
Qed.

(** X20.  When [Reallocate] of the pool allocator gets a new block, for an
    old pointer that the allocator owns (in a state whose freelists are well
    formed and whose allocation count is in range), it calls [memcpy] for
    [n] bytes from the old pointer to the new block, [n] being the smaller
    of the new size and the size [GetAllocationSize] gives for the old
    pointer.  When these two ranges of [n] bytes do not overlap, it returns
    the new block and then frees the old one: the allocator owns the new
    pointer, the old pointer becomes the head of the freelist of the first
    pool whose slab holds it, the allocation count is as before the call,
    and the total allocated is that after the allocation of the new block
    less the size [GetAllocationSize] gives for the old pointer.  When the
    two ranges overlap (for instance when the old pointer is the free block
    that [Allocate] hands out, and [n] is positive), the behaviour of the
    call is undefined. *)
Theorem pool_Reallocate_moves_block (this this1 : t) (p newSize alignment q : Z)
    (h h1 : heap) :
  well_formed this h ->
  size_t_range (allocationCount this) ->
  Owns this p = true -> p <> nullptr ->
  Allocate this newSize alignment h = Ret ((q, this1), h1) ->
  q <> nullptr ->
  let n := Z.min (GetAllocationSize this p) newSize in
  (n <= 0 \/ q + n <= p \/ p + n <= q ->
   exists (this2 : t) (h2 : heap) (before after : list Pool) (pool : Pool),
     Reallocate this p newSize alignment h = Ret ((q, this2), h2)
     /\ Owns this2 q = true
     /\ pools this2 = before ++ pool :: after
     /\ Forall (fun r => in_pool r p = false) before
     /\ in_pool pool p = true
     /\ freeList pool = p
     /\ allocationCount this2 = allocationCount this
     /\ totalAllocated this2
        = wrap (totalAllocated this1 - GetAllocationSize this p))
  /\ (0 < n -> p < q + n -> q < p + n ->
      Reallocate this p newSize alignment h = Undefined).
Proof.
  intros Hwf Hcnt Hown Hp Halloc Hq n.
  destruct (pool_Allocate_owned _ _ _ _ _ _ _ Hwf Halloc Hq) as [Hownq _].
  destruct (pool_Allocate_same_slabs _ _ _ _ _ _ _ Halloc) as (Hsame & -> & Hacc).
  destruct (Hacc Hq) as (Hc1 & _).
  destruct (pool_same_slabs_queries _ _ p Hsame) as [Ho1 Hs1].
  assert (Hown1 : Owns this1 p = true) by (unfold Owns in *; congruence).
  destruct (pool_GetAllocationSize_owned this1 p Hown1)
    as (before & pool & after & Hps1 & Hout & Hin & Hsize).
  unfold Reallocate. run_monad. rewrite Halloc.
  destruct (Z.eqb_spec q nullptr) as [?|_]; [contradiction|].
  destruct (Z.eqb_spec p nullptr) as [?|_]; [contradiction|].
  cbn [negb andb].
  assert (Hn : Z.min (GetAllocationSize this1 p) newSize = n)
    by (unfold n, GetAllocationSize; congruence).
  rewrite Hn. split.
  - intros Hdisjoint. rewrite memcpy_disjoint by lia. unfold Free.
    destruct (Z.eqb_spec p nullptr) as [?|_]; [contradiction|].
    rewrite Hps1, (pool_Free_from_push before [] after) by assumption.
    eexists _, _, before, after, (set_freeList pool p).
    split; [reflexivity|]. cbn [pools app allocationCount totalAllocated].
    split.
    { unfold Owns in *. cbn [pools].
      rewrite <- (proj1 (pool_same_slabs_queries _ _ q
                           (same_slabs_middle before after pool p))).
      rewrite <- Hps1. exact Hownq. }
    split; [reflexivity|]. split; [exact Hout|].
    split; [rewrite <- (pool_same_slab_in_pool pool _ p
                          (same_slab_set_freeList pool p));
            exact Hin|].
    split; [reflexivity|].
    split.
    + rewrite Hc1. apply (wrap_add_sub _ 1). exact Hcnt.
    + f_equal. f_equal. unfold GetAllocationSize in *. congruence.
  - intros Hpos Hpq Hqp. rewrite memcpy_overlap by assumption. reflexivity.
Qed.

(** A block of the class (128, 2) reallocated to 20 bytes moves to the
    class (32, 4); the 20 bytes copied from 8320 and those written at 4192
    are apart. *)
Lemma pool_Reallocate_moves_block_witness :
  exists (this this2 : t) (h h2 : heap),
    create [(32, 4); (128, 2)] [4096; 8192] ∅ = Ret (this, h)
    /\ Reallocate this 8320 20 8 h = Ret ((4192, this2), h2)
    /\ Owns this2 4192 = true
    /\ allocationCount this2 = allocationCount this.
Proof.
  destruct (pool_create_well_formed [(32, 4); (128, 2)] [4096; 8192] ∅)
    as (this & h & Hcreate & Hwf & _).
  { repeat constructor; cbn; unfold sizeof_pointer; rewrite ?two_SIZE_BITS; lia. }
  { cbn. repeat split; repeat constructor. unfold disjoint. cbn. lia. }
  assert (E : exists (this0 this1 : t) (h0 : heap),
             create [(32, 4); (128, 2)] [4096; 8192] ∅ = Ret (this0, h0)
             /\ Allocate this0 20 8 h0 = Ret ((4192, this1), h0)
             /\ allocationCount this0 = 0
             /\ Owns this0 8320 = true).
  { eexists _, _, _. split; [vm_compute; reflexivity|].
    split; [vm_compute; reflexivity|]. split; reflexivity. }
  destruct E as (this0 & this1 & h0 & Hcreate0 & Halloc & Hcnt & Hown).
  rewrite Hcreate in Hcreate0. injection Hcreate0 as <- <-.
  destruct (pool_Reallocate_moves_block this this1 8320 20 8 4192 h h Hwf)
    as [Hmoves _];
    [rewrite Hcnt; unfold size_t_range; rewrite two_SIZE_BITS; lia
    | exact Hown | discriminate | exact Halloc | discriminate |].
  destruct Hmoves
    as (this2 & h2 & before & after & pool & Hrun & Hownq & _ & _ & _ & _ & Hc & _).
  { right. left. pose proof (Z.le_min_r (GetAllocationSize this 8320) 20). lia. }
  exists this, this2, h, h2. repeat split; assumption.
Defined.

End PoolReallocate.

(** ** The free-list allocator *)

Section FreeListFurther.
Import FreeListAllocator.
#[local] Opaque Mem.write_le Mem.read_le.

Ltac fl_step :=
  lazymatch goal with
  | |- returns_with (create _ _) _ _ => unfold create
  | |- returns_with (Allocate _ _ _ _) _ _ =>
      unfold Allocate; cbn [Allocate_loop m_freeList]
  | |- returns_with (Free _ _ _) _ _ =>
      unfold Free; cbn [Free_walk m_freeList]
  | |- returns_with (Reset _) _ _ => unfold Reset
  | |- returns_with (GetAllocationSize _ _) _ _ => unfold GetAllocationSize
  | |- returns_with (ValidateInternalState _ _) _ _ =>
      unfold ValidateInternalState; cbn [Validate_loop m_freeList]
  | |- returns_with (link _ _ _) _ _ => unfold link; cbn [m_freeList]
  | |- returns_with (free_stats _ _ _) _ _ => cbn [free_stats]
  | |- returns_with (Allocate_loop _ _ _ _ _ _) _ _ => cbn [Allocate_loop m_freeList]
  | |- returns_with (Free_walk _ _ _ _) _ _ => cbn [Free_walk]
  | |- returns_with (Validate_loop _ _ _) _ _ => cbn [Validate_loop]
  | |- returns_with (match ?x with Some _ => _ | None => _ end) _ _ => cbv beta iota
  | |- _ => sym_step
  end; cbv beta;
  cbn [m_buffer m_bufferSize m_freeList m_name m_threadSafe m_allocatedSize
       m_peakUsage m_allocationCount].

(** X21.  A freshly constructed free-list allocator is consistent:
    [ValidateInternalState] returns true, the freelist is one block that
    spans the buffer, and the counters are zero. *)
Theorem freelist_create_is_consistent (buffer bufferSize : Z) (fuel : nat) (h : heap) :
  buffer <> nullptr -> size_t_range bufferSize -> (2 <= fuel)%nat ->
  returns_with (Calls.freelist_create_check buffer bufferSize fuel) h
    (fun '(this, valid, stats) _ =>
       valid = true /\ stats = (bufferSize, bufferSize, 1)
       /\ GetTotalAllocated this = 0 /\ GetAllocationCount this = 0
       /\ GetPeakUsage this = 0).
Proof.
  intros Hb Hbs Hfuel. unfold size_t_range in Hbs.
  assert (Hos : offsetof_size = 0) by reflexivity.
  assert (Hon : offsetof_next = 8) by reflexivity.
  assert (Hwb : Z.of_nat word_bytes = 8) by reflexivity.
  assert (Hnull : nullptr = 0) by reflexivity.
  destruct fuel as [|[|fuel]]; try lia.
  unfold Calls.freelist_create_check.
  repeat fl_step.
  split; [simpl_wrap; apply Z.eqb_eq; lia|].
  split; [|repeat split].
  repeat match goal with |- (_, _) = (_, _) => f_equal end; simpl_wrap; lia.
Qed.

(** A buffer of 1024 bytes at address 4096. *)
Lemma freelist_create_is_consistent_witness :
  returns_with (Calls.freelist_create_check 4096 1024 4) ∅
    (fun '(this, valid, stats) _ => valid = true /\ stats = (1024, 1024, 1)).
Proof.
  eapply returns_with_weaken;
    [|apply (freelist_create_is_consistent 4096 1024 4 ∅);
      [discriminate | unfold size_t_range; rewrite two_SIZE_BITS; lia | lia]].
  intros [[this valid] stats] h' (Hv & Hs & _). split; assumption.
Defined.

(** X22.  [Reset] of the free-list allocator restores consistency from any
    state, whatever the freelist and the counters were: it leaves the memory
    and the freelist that the constructor leaves, zeroes the counters, and
    [ValidateInternalState] then returns true. *)
Theorem freelist_Reset_restores_consistency (this : t) (fuel : nat) (h : heap) :
  m_buffer this <> nullptr -> size_t_range (m_bufferSize this) -> (2 <= fuel)%nat ->
  returns_with (Calls.freelist_Reset_check this fuel) h
    (fun '(this', valid, stats) h' =>
       valid = true /\ stats = (m_bufferSize this, m_bufferSize this, 1)
       /\ m_freeList this' = m_buffer this
       /\ GetTotalAllocated this' = 0 /\ GetAllocationCount this' = 0
       /\ exists this0, create (m_buffer this) (m_bufferSize this) h = Ret (this0, h')).
Proof.
  intros Hb Hbs Hfuel. unfold size_t_range in Hbs.
  assert (Hos : offsetof_size = 0) by reflexivity.
  assert (Hon : offsetof_next = 8) by reflexivity.
  assert (Hwb : Z.of_nat word_bytes = 8) by reflexivity.
  assert (Hnull : nullptr = 0) by reflexivity.
  destruct fuel as [|[|fuel]]; try lia.
  unfold Calls.freelist_Reset_check.
  repeat fl_step.
  split; [simpl_wrap; apply Z.eqb_eq; lia|].
  split; [repeat match goal with |- (_, _) = (_, _) => f_equal end; simpl_wrap; lia|].
  repeat split. eexists. apply freelist_create_eq.
Qed.


(** An allocator whose counters and freelist are inconsistent. *)
Lemma freelist_Reset_restores_consistency_witness :
  let this := Build 4096 1024 4400 "FreeListAllocator" false 216 216 1 in
  returns_with (Calls.freelist_Reset_check this 4) ∅
    (fun '(this', valid, stats) _ => valid = true /\ stats = (1024, 1024, 1)).
Proof.
  intros this.
  eapply returns_with_weaken;
    [|apply (freelist_Reset_restores_consistency this 4 ∅);
      [discriminate | unfold size_t_range; rewrite two_SIZE_BITS; simpl; lia | lia]].
  intros [[this' valid] stats] h' (Hv & Hs & _). split; assumption.
Defined.

(** X23.  On a fresh free-list allocator, [Allocate] followed by [Free] of
    the pointer it returned restores the fresh state, for a request with an
    alignment that is a power of two of at most 128 and a size that does not
    wrap around ([size + alignment + 32 <= 2^64], on a buffer that is not at
    address 0 and that ends [alignment + 32] bytes or more below [2^64]),
    whether the block was split, taken whole, or refused: the freelist is
    again the single block that spans the buffer, the total allocated and
    the allocation count are zero, and [ValidateInternalState] returns
    true. *)
Theorem freelist_Free_undoes_first_Allocate
    (buffer bufferSize size alignment : Z) (fuel : nat) (h : heap) :
  0 < buffer ->
  size_t_range bufferSize ->
  power_of_two alignment -> alignment <= 128 ->
  0 <= size ->
  size + alignment + sizeof_FreeBlock + sizeof_AllocationHeader <= 2 ^ SIZE_BITS ->
  buffer + bufferSize + alignment + sizeof_FreeBlock + sizeof_AllocationHeader
    <= 2 ^ SIZE_BITS ->
  (2 <= fuel)%nat ->
  returns_with (Calls.freelist_Allocate_Free buffer bufferSize size alignment fuel) h
    (fun '(p, this, valid, stats) h' =>
       (p <> nullptr <-> size + (alignedAddress_for buffer alignment - buffer) <= bufferSize)
       /\ m_freeList this = buffer
       /\ Mem.read_le h' word_bytes (buffer + offsetof_size) = Some bufferSize
       /\ Mem.read_le h' word_bytes (buffer + offsetof_next) = Some nullptr
       /\ GetTotalAllocated this = 0
       /\ GetAllocationCount this = 0
       /\ valid = true
       /\ stats = (bufferSize, bufferSize, 1)).
Proof.
  intros Hb Hbs Hpow H128 Hs Hsno Hno Hfuel.
  assert (H16 : sizeof_FreeBlock = 16) by reflexivity.
  assert (H16' : sizeof_AllocationHeader = 16) by reflexivity.
  assert (Hmin : MIN_BLOCK_SIZE = 16) by reflexivity.
  assert (Hos : offsetof_size = 0) by reflexivity.
  assert (Hon : offsetof_next = 8) by reflexivity.
  assert (Hhs : offsetof_header_size = 0) by reflexivity.
  assert (Hhp : offsetof_header_padding = 8) by reflexivity.
  assert (Hwb : Z.of_nat word_bytes = 8) by reflexivity.
  assert (Hnull : nullptr = 0) by reflexivity.
  pose proof (power_of_two_range alignment Hpow) as Ha.
  unfold size_t_range in Hbs.
  pose proof (freelist_alignedAddress_range buffer alignment Hpow ltac:(lia) ltac:(lia))
    as Hrange.
  destruct (freelist_required_exact buffer size alignment Hpow ltac:(lia) Hs Hsno
              ltac:(lia)) as [Hpad Hreq].
  destruct fuel as [|[|fuel]]; try lia.
  unfold Calls.freelist_Allocate_Free.
  set (A := alignedAddress_for buffer alignment) in *.
  repeat (rewrite ?Hreq, ?Hpad; fold A; fl_step).
  all: unfold GetTotalAllocated, GetAllocationCount;
    cbn [m_freeList m_allocatedSize m_allocationCount].
  all: repeat match goal with |- _ /\ _ => split end.
  all: try reflexivity.
  all: try (simpl_wrap; read_through; reflexivity).
  all: try (split; intros; lia).
  all: try (simpl_wrap; lia).
  all: try (repeat match goal with |- (_, _) = (_, _) => f_equal end; lia).
  all: simpl_wrap; read_through; f_equal; lia.
Qed.


(** 200 bytes aligned to 8 from a buffer of 1024 bytes. *)
Lemma freelist_Free_undoes_first_Allocate_witness :
  returns_with (Calls.freelist_Allocate_Free 4096 1024 200 8 4) ∅
    (fun '(p, this, valid, stats) _ =>
       p <> nullptr /\ valid = true /\ stats = (1024, 1024, 1)).
Proof.
  eapply returns_with_weaken;
    [|apply (freelist_Free_undoes_first_Allocate 4096 1024 200 8 4 ∅);
      [lia | unfold size_t_range; rewrite two_SIZE_BITS; lia
      | exists 3; split; [unfold SIZE_BITS; lia | reflexivity] | lia | lia
      | rewrite two_SIZE_BITS; vm_compute; discriminate
      | rewrite two_SIZE_BITS; vm_compute; discriminate | lia]].
  intros [[[p this] valid] stats] h' (Hp & _ & _ & _ & _ & _ & Hv & Hs).
  split; [|split; assumption].
  apply Hp. vm_compute. discriminate.
Defined.

Lemma freelist_usable_after_Allocate_loop (fuel : nat) :
  forall (this : t) (size alignment : Z) (prev current : ptr) (h : heap),
  power_of_two alignment -> alignment <= 128 ->
  0 <= size ->
  size + alignment + sizeof_FreeBlock + sizeof_AllocationHeader <= 2 ^ SIZE_BITS ->
  0 <= m_buffer this ->
  m_buffer this + m_bufferSize this + alignment
    + sizeof_FreeBlock + sizeof_AllocationHeader <= 2 ^ SIZE_BITS ->
  (forall c csize, on_free_list h current c ->
     Mem.read_le h word_bytes (c + offsetof_size) = Some csize ->
     m_buffer this <= c /\ c + csize <= m_buffer this + m_bufferSize this) ->
  post (Allocate_loop fuel this (wrap (size + sizeof_AllocationHeader)) alignment
          prev current) h
    (fun '(p, this') h' =>
       p <> nullptr ->
       exists usable : Z,
         size <= usable
         /\ p + usable <= m_buffer this + m_bufferSize this
         /\ GetAllocationSize this' p h' = Ret (usable, h')).
Proof.
  assert (H16 : sizeof_FreeBlock = 16) by reflexivity.
  assert (H16' : sizeof_AllocationHeader = 16) by reflexivity.
  assert (Hmin : MIN_BLOCK_SIZE = 16) by reflexivity.
  induction fuel as [|fuel IH];
    intros this size alignment prev current h Hpow H128 Hs Hsno Hb Hno Hin;
    cbn [Allocate_loop].
  - intros a h' Heq. discriminate.
  - destruct (Z.eqb_spec current nullptr) as [Hnull|Hcur].
    { apply post_ret. intros Hp. contradiction. }
    apply post_bind, post_load. intros csize Hcsize.
    destruct (Hin current csize (on_free_list_here _ _ Hcur) Hcsize) as [Hlo Hhi].
    pose proof (read_word_range _ _ _ Hcsize) as Hcr. unfold size_t_range in Hcr.
    pose proof (power_of_two_range alignment Hpow) as Ha.
    pose proof (freelist_alignedAddress_range current alignment Hpow
                  ltac:(lia) ltac:(lia)) as Hrange.
    destruct (freelist_required_exact current size alignment Hpow
                ltac:(lia) Hs Hsno ltac:(lia)) as [Hpad Hreq].
    rewrite Hreq, Hpad.
    set (A := alignedAddress_for current alignment) in *.
    destruct (Z.geb_spec csize (size + (A - current))) as [Hfit|Hsmall].
    + rewrite (wrap_small (csize - _)) by (unfold size_t_range; lia).
      rewrite (wrap_small (A - _)) by (unfold size_t_range; lia).
      apply post_bind.
      destruct (Z.leb_spec (csize - (size + (A - current))) MIN_BLOCK_SIZE).
      * apply post_bind, post_load. intros next _.
        apply post_bind_any. intros head h1. apply post_ret.
        apply post_bind, post_store. apply post_bind, post_store. apply post_ret.
        intros Hp. eexists.
        split; [|split; [|apply freelist_GetAllocationSize_of_header]];
          unfold size_t_range; lia.
      * apply post_bind, post_store. apply post_bind, post_load. intros next _.
        apply post_bind, post_store.
        apply post_bind_any. intros head h1. apply post_ret.
        apply post_bind, post_store. apply post_bind, post_store. apply post_ret.
        intros Hp. eexists.
        split; [|split; [|apply freelist_GetAllocationSize_of_header]];
          unfold size_t_range; lia.
    + apply post_bind, post_load. intros next Hnext.
      apply IH; try assumption.
      intros c sz Hon Hread. apply Hin; [|exact Hread].
      econstructor; eassumption.
Qed.

Lemma freelist_usable_after_Allocate (fuel : nat) (this this' : t)
    (size alignment p : Z) (h h' : heap) :
  power_of_two alignment -> alignment <= 128 ->
  0 <= size ->
  size + alignment + sizeof_FreeBlock + sizeof_AllocationHeader <= 2 ^ SIZE_BITS ->
  0 <= m_buffer this ->
  m_buffer this + m_bufferSize this + alignment
    + sizeof_FreeBlock + sizeof_AllocationHeader <= 2 ^ SIZE_BITS ->
  free_blocks_in_buffer this h ->
  Allocate fuel this size alignment h = Ret ((p, this'), h') ->
  p <> nullptr ->
  exists usable : Z,
    size <= usable
    /\ p + usable <= m_buffer this + m_bufferSize this
    /\ GetAllocationSize this' p h' = Ret (usable, h').
Proof.
  intros Hpow H128 Hs Hsno Hb Hno Hin Heq Hp.
  exact (freelist_usable_after_Allocate_loop fuel this size alignment
           nullptr (m_freeList this) h Hpow H128 Hs Hsno Hb Hno Hin _ _ Heq Hp).
Qed.

(** X24.  For the pointer that [Allocate] of the free-list allocator has
    just returned, with an alignment that is a power of two of at most 128,
    a size that does not wrap around ([size + alignment + 32 <= 2^64], on a
    buffer that ends [alignment + 32] bytes or more below [2^64]) and a
    freelist whose blocks lie in the buffer, [GetAllocationSize] returns a
    size that is at least the requested one and that, counted from the
    pointer, stays inside the buffer. *)
Theorem freelist_GetAllocationSize_covers_request (fuel : nat) (this this' : t)
    (size alignment p : Z) (h h' : heap) :
  power_of_two alignment -> alignment <= 128 ->
  0 <= size ->
  size + alignment + sizeof_FreeBlock + sizeof_AllocationHeader <= 2 ^ SIZE_BITS ->
  0 <= m_buffer this ->
  m_buffer this + m_bufferSize this + alignment
    + sizeof_FreeBlock + sizeof_AllocationHeader <= 2 ^ SIZE_BITS ->
  free_blocks_in_buffer this h ->
  Allocate fuel this size alignment h = Ret ((p, this'), h') ->
  p <> nullptr ->
  exists usable : Z,
    size <= usable
    /\ p + usable <= m_buffer this + m_bufferSize this
    /\ GetAllocationSize this' p h' = Ret (usable, h').
Proof. apply freelist_usable_after_Allocate. Qed.

(** 200 bytes aligned to 8 from a fresh buffer of 1024 bytes. *)
Lemma freelist_GetAllocationSize_covers_request_witness :
  exists (this this' : t) (h h' : heap) (usable : Z),
    create 4096 1024 ∅ = Ret (this, h)
    /\ Allocate 4 this 200 8 h = Ret ((4128, this'), h')
    /\ 200 <= usable
    /\ GetAllocationSize this' 4128 h' = Ret (usable, h').
Proof.
  assert (E : exists (this this' : t) (h h' : heap),
             create 4096 1024 ∅ = Ret (this, h)
             /\ Allocate 4 this 200 8 h = Ret ((4128, this'), h')).
  { eexists _, _, _, _. split; [vm_compute; reflexivity|]. vm_compute. reflexivity. }
  destruct E as (this & this' & h & h' & Hcreate & Halloc).
  destruct (freelist_create_blocks_in_buffer 4096 1024 ∅ h this) as (Hb & Hbs & Hin);
    [unfold size_t_range; rewrite two_SIZE_BITS; lia | exact Hcreate |].
  destruct (freelist_GetAllocationSize_covers_request 4 this this' 200 8 4128 h h')
    as (usable & Hle & _ & Hsize);
    [exists 3; split; [unfold SIZE_BITS; lia | reflexivity] | lia | lia
    | rewrite two_SIZE_BITS; vm_compute; discriminate | rewrite Hb; lia
    | rewrite Hb, Hbs, two_SIZE_BITS; vm_compute; discriminate
    | exact Hin | exact Halloc | discriminate |].
  exists this, this', h, h', usable. repeat split; assumption.
Defined.

(** X25.  [Reallocate] of the free-list allocator neither shrinks nor moves
    a block that is large enough.  For a pointer that [Allocate] has just
    returned, with an alignment that is a power of two of at most 128, a
    size that does not wrap around ([size + alignment + 32 <= 2^64], on a
    buffer that ends [alignment + 32] bytes or more below [2^64]) and a
    freelist whose blocks lay in the buffer, [Reallocate] to a new size
    between 1 and the requested size, with any alignment, returns the same
    pointer and changes neither the allocator nor the memory. *)
Theorem freelist_Reallocate_without_growth (fuel : nat) (this this' : t)
    (size alignment p newSize alignment' : Z) (h h' : heap) :
  power_of_two alignment -> alignment <= 128 ->
  0 <= size ->
  size + alignment + sizeof_FreeBlock + sizeof_AllocationHeader <= 2 ^ SIZE_BITS ->
  0 <= m_buffer this ->
  m_buffer this + m_bufferSize this + alignment
    + sizeof_FreeBlock + sizeof_AllocationHeader <= 2 ^ SIZE_BITS ->
  free_blocks_in_buffer this h ->
  Allocate fuel this size alignment h = Ret ((p, this'), h') ->
  p <> nullptr ->
  0 < newSize <= size ->
  Reallocate fuel this' p newSize alignment' h' = Ret ((p, this'), h').
Proof.
  intros Hpow H128 Hs Hsno Hb Hno Hin Heq Hp Hn.
  destruct (freelist_usable_after_Allocate fuel this this' size alignment p
              h h' Hpow H128 Hs Hsno Hb Hno Hin Heq Hp) as (usable & Hle & _ & Hsize).
  unfold Reallocate.
  destruct (Z.eqb_spec p nullptr) as [?|_]; [contradiction|].
  destruct (Z.eqb_spec newSize 0) as [?|_]; [lia|].
  run_monad. rewrite Hsize.
  destruct (Z.leb_spec newSize usable); [reflexivity | lia].
Qed.

(** 200 bytes shrunk to 50. *)
Lemma freelist_Reallocate_without_growth_witness :
  exists (this this' : t) (h h' : heap),
    create 4096 1024 ∅ = Ret (this, h)
    /\ Allocate 4 this 200 8 h = Ret ((4128, this'), h')
    /\ Reallocate 4 this' 4128 50 8 h' = Ret ((4128, this'), h').
Proof.
  assert (E : exists (this this' : t) (h h' : heap),
             create 4096 1024 ∅ = Ret (this, h)
             /\ Allocate 4 this 200 8 h = Ret ((4128, this'), h')).
  { eexists _, _, _, _. split; [vm_compute; reflexivity|]. vm_compute. reflexivity. }
  destruct E as (this & this' & h & h' & Hcreate & Halloc).
  destruct (freelist_create_blocks_in_buffer 4096 1024 ∅ h this) as (Hb & Hbs & Hin);
    [unfold size_t_range; rewrite two_SIZE_BITS; lia | exact Hcreate |].
  pose proof (freelist_Reallocate_without_growth 4 this this' 200 8 4128 50 8 h h')
    as Hsame.
  exists this, this', h, h'. repeat split; try assumption. apply Hsame;
    [exists 3; split; [unfold SIZE_BITS; lia | reflexivity] | lia | lia
    | rewrite two_SIZE_BITS; vm_compute; discriminate | rewrite Hb; lia
    | rewrite Hb, Hbs, two_SIZE_BITS; vm_compute; discriminate
    | exact Hin | exact Halloc | discriminate | lia].
Defined.




(** X27.  On a freshly constructed free-list allocator, for a request that
    does not wrap around (an alignment that is a power of two,
    [size + alignment + 32 <= 2^64], and a buffer that is not at address 0
    and ends [alignment + 32] bytes or more below [2^64]), the first
    [Allocate] returns; it succeeds exactly when the request, with its
    descriptors and padding, fits in the buffer, and then leaves a state
    that [ValidateInternalState] rejects. *)
Theorem freelist_first_Allocate_fails_validation
    (buffer bufferSize size alignment : Z) (fuel : nat) (h : heap) :
  0 < buffer ->
  size_t_range bufferSize ->
  power_of_two alignment ->
  0 <= size ->
  size + alignment + sizeof_FreeBlock + sizeof_AllocationHeader <= 2 ^ SIZE_BITS ->
  buffer + bufferSize + alignment + sizeof_FreeBlock + sizeof_AllocationHeader
    <= 2 ^ SIZE_BITS ->
  (2 <= fuel)%nat ->
  returns_with (this ← create buffer bufferSize; Allocate fuel this size alignment) h
    (fun '(p, this) h' =>
       if bufferSize >=? size + (alignedAddress_for buffer alignment - buffer)
       then p = alignedAddress_for buffer alignment
            /\ p <> nullptr
            /\ ValidateInternalState fuel this h' = Ret (false, h')
       else p = nullptr).
Proof. apply freelist_first_Allocate_invalidates. Qed.

(** 16 bytes aligned to 64 from a buffer of 256 bytes. *)
Lemma freelist_first_Allocate_fails_validation_witness :
  returns_with (this ← create 4096 256; Allocate 4 this 16 64) ∅
    (fun '(p, this) h' =>
       p = 4160 /\ ValidateInternalState 4 this h' = Ret (false, h')).
Proof.
  eapply returns_with_weaken;
    [|apply (freelist_first_Allocate_fails_validation 4096 256 16 64 4 ∅);
      [lia | unfold size_t_range; rewrite two_SIZE_BITS; lia
      | exists 6; split; [unfold SIZE_BITS; lia | reflexivity] | lia
      | rewrite two_SIZE_BITS; vm_compute; discriminate
      | rewrite two_SIZE_BITS; vm_compute; discriminate | lia]].
  intros [p this] h'.
  change (256 >=? 16 + (alignedAddress_for 4096 64 - 4096)) with true.
  change (alignedAddress_for 4096 64) with 4160.
  intros (Hp & _ & Hv). split; assumption.
Defined.

End FreeListFurther.

(** ** Exceptions *)

Section Exceptions.

Lemma linear_Allocate_no_throw (this : LinearAllocator.t) (size alignment : Z) :
  no_throw (LinearAllocator.Allocate this size alignment).
Proof. intros h. apply linear_Allocate_never_throws. Qed.

Lemma stack_Allocate_no_throw (this : StackAllocator.t) (size alignment : Z) :
  no_throw (StackAllocator.Allocate this size alignment).
Proof. intros h. apply stack_Allocate_never_throws. Qed.

Lemma stack_Free_no_throw (this : StackAllocator.t) (p : ptr) :
  no_throw (StackAllocator.Free this p).
Proof. unfold StackAllocator.Free. repeat no_throw_step. Qed.

Lemma freelist_Free_walk_no_throw (fuel : nat) :
  forall (blockToFree prev current : ptr),
  no_throw (FreeListAllocator.Free_walk fuel blockToFree prev current).
Proof.
  induction fuel as [|fuel IH]; intros blockToFree prev current;
    cbn [FreeListAllocator.Free_walk].
  - apply no_throw_out_of_fuel.
  - repeat first [apply IH | no_throw_step].
Qed.

Lemma freelist_Free_no_throw (fuel : nat) (this : FreeListAllocator.t) (p : ptr) :
  no_throw (FreeListAllocator.Free fuel this p).
Proof.
  unfold FreeListAllocator.Free.
  repeat first [apply freelist_Free_walk_no_throw | apply freelist_link_no_throw
               | no_throw_step].
Qed.

Lemma freelist_Allocate_no_throw (fuel : nat) (this : FreeListAllocator.t)
    (size alignment : Z) :
  no_throw (FreeListAllocator.Allocate fuel this size alignment).
Proof. unfold FreeListAllocator.Allocate. apply freelist_Allocate_loop_no_throw. Qed.

Lemma freelist_GetAllocationSize_no_throw (this : FreeListAllocator.t) (p : ptr) :
  no_throw (FreeListAllocator.GetAllocationSize this p).
Proof. unfold FreeListAllocator.GetAllocationSize. repeat no_throw_step. Qed.

Lemma freelist_Validate_loop_no_throw (fuel : nat) :
  forall (block : ptr) (totalFreeSize : Z),
  no_throw (FreeListAllocator.Validate_loop fuel block totalFreeSize).
Proof.
  induction fuel as [|fuel IH]; intros block totalFreeSize;
    cbn [FreeListAllocator.Validate_loop].
  - apply no_throw_out_of_fuel.
  - repeat first [apply IH | no_throw_step].
Qed.

Lemma pool_Free_from_no_throw (rest : list PoolAllocator.Pool) :
  forall (done : list PoolAllocator.Pool) (this : PoolAllocator.t) (p : ptr),
  no_throw (PoolAllocator.Free_from done rest this p).
Proof.
  induction rest as [|pool rest IH]; intros done this p; cbn [PoolAllocator.Free_from].
  - apply no_throw_ret.
  - repeat first [apply IH | no_throw_step].
Qed.

Lemma pool_Free_no_throw (this : PoolAllocator.t) (p : ptr) :
  no_throw (PoolAllocator.Free this p).
Proof.
  unfold PoolAllocator.Free. destruct (p =? nullptr); [apply no_throw_ret|].
  apply pool_Free_from_no_throw.
Qed.

Lemma pool_Reset_no_throw (this : PoolAllocator.t) :
  no_throw (PoolAllocator.Reset this).
Proof.
  intros h Hthrow.
  destruct (pool_Reset_pools_returns (PoolAllocator.pools this) h) as (ps & h' & Hrun).
  unfold PoolAllocator.Reset in Hthrow. run_monad. rewrite Hrun in Hthrow.
  exact Hthrow.
Qed.

(** X28.  No exception leaves [Free] or [Reallocate] of the linear
    allocator, [Free], [Reallocate] or [GetAllocationSize] of the stack
    allocator, [Free], [Reallocate], [GetAllocationSize], [Reset] or
    [ValidateInternalState] of the free-list allocator, nor [Free] or
    [Reset] of the pool allocator; the only exception that leaves
    [Reallocate] of the pool allocator is the [std::runtime_error] of
    [findPool], and only when the new size exceeds the block size of every
    class. *)
Theorem exceptions_leave_only_the_pool_allocator :
  (forall (this : LinearAllocator.t) (p : ptr) (size alignment : Z),
     no_throw (LinearAllocator.Free this p)
     /\ no_throw (LinearAllocator.Reallocate this p size alignment))
  /\ (forall (this : StackAllocator.t) (p : ptr) (size alignment : Z),
        no_throw (StackAllocator.Free this p)
        /\ no_throw (StackAllocator.Reallocate this p size alignment)
        /\ no_throw (StackAllocator.GetAllocationSize this p))
  /\ (forall (fuel : nat) (this : FreeListAllocator.t) (p : ptr) (size alignment : Z),
        no_throw (FreeListAllocator.Free fuel this p)
        /\ no_throw (FreeListAllocator.Reallocate fuel this p size alignment)
        /\ no_throw (FreeListAllocator.GetAllocationSize this p)
        /\ no_throw (FreeListAllocator.Reset this)
        /\ no_throw (FreeListAllocator.ValidateInternalState fuel this))
  /\ (forall (this : PoolAllocator.t) (p : ptr) (size alignment : Z) (h : heap),
        no_throw (PoolAllocator.Free this p)
        /\ no_throw (PoolAllocator.Reset this)
        /\ (throws (PoolAllocator.Reallocate this p size alignment h) ->
            PoolAllocator.Reallocate this p size alignment h
            = Throw (runtime_error "No suitable pool found")
            /\ Forall (fun q => PoolAllocator.blockSize q < size)
                 (PoolAllocator.pools this))).
Proof.
  split; [|split; [|split]].
  - intros this p size alignment.
    split; [apply no_throw_ret|].
    unfold LinearAllocator.Reallocate.
    repeat first [apply linear_Allocate_no_throw | no_throw_step].
  - intros this p size alignment.
    split; [apply stack_Free_no_throw|].
    split.
    + unfold StackAllocator.Reallocate.
      repeat first [apply stack_Allocate_no_throw | apply stack_Free_no_throw
                   | no_throw_step].
    + unfold StackAllocator.GetAllocationSize. repeat no_throw_step.
  - intros fuel this p size alignment.
    split; [apply freelist_Free_no_throw|].
    split.
    { unfold FreeListAllocator.Reallocate.
      repeat first [apply freelist_Allocate_no_throw | apply freelist_Free_no_throw
                   | apply freelist_GetAllocationSize_no_throw | no_throw_step]. }
    split; [apply freelist_GetAllocationSize_no_throw|].
    split.
    { unfold FreeListAllocator.Reset. repeat no_throw_step. }
    unfold FreeListAllocator.ValidateInternalState.
    repeat first [apply freelist_Validate_loop_no_throw | no_throw_step].
  - intros this p size alignment h.
    split; [apply pool_Free_no_throw|].
    split; [apply pool_Reset_no_throw|].
    intros Hthrow.
    assert (Halloc : throws (PoolAllocator.Allocate this size alignment h)).
    { unfold PoolAllocator.Reallocate in Hthrow. run_monad.
      destruct (PoolAllocator.Allocate this size alignment h) as [[[q this1] h1]| | |];
        try exact Hthrow; try exact I.
      exfalso.
      destruct (negb (q =? nullptr) && negb (p =? nullptr)); [|exact Hthrow].
      unfold memcpy in Hthrow.
      destruct (overlap _ _ _); [exact Hthrow|].
      pose proof (pool_Free_no_throw this1 p
                    (Mem.copy h1 h1
                       (Z.to_nat (Z.min (PoolAllocator.GetAllocationSize this1 p) size))
                       q p)) as Hfree.
      destruct (PoolAllocator.Free this1 p _) as [[this2 h2]| | |];
        try exact Hthrow. apply Hfree. exact I. }
    pose proof (pool_Allocate_throws_inv _ _ _ _ Halloc) as Hclass.
    split; [|exact Hclass].
    unfold PoolAllocator.Reallocate. run_monad.
    rewrite (pool_Allocate_no_class this size alignment h Hclass). reflexivity.
Qed.

End Exceptions.
